(** * GROMACS: the nbnxn reference kernel inner loop and the selection
      comparison method

    Two parts of the code base are embedded here.

    - [Kernel]: the body of the plain-C nbnxn reference kernel inner loop (one
      cluster pair: the double loop over the [UNROLLI] i-particles and the
      [UNROLLJ] j-particles).  The file is a template that is compiled once
      for each combination of preprocessor flags; the flags are a record
      [config] here, and every [#ifdef] is an [if] on a field of that record.
      The arithmetic type [real] (float or double, chosen at build time) is an
      interface [RealOps], with two instances: IEEE binary64 (Rocq's primitive
      floats) and the exact real numbers.
    - [Compare]: sm_compare.cpp, the comparison method of the selection
      engine: the set-up function [init_compare] with its operand conversions,
      and the two evaluation loops. *)

From Stdlib Require Import ZArith QArith Qround Reals Lra Lia Floats String Ascii.
From stdpp Require Import base tactics option list.

#[local] Open Scope Z_scope.
#[local] Set Default Proof Using "Type".

(** ** C arrays

    A C array is a list; an access outside of it is undefined behaviour, which
    is [None] in the [option] monad that the kernel runs in.  Indices are
    computed in [Z]: the indices of a pair list are far from the bounds of
    [int], and an index that is not in the array is undefined all the same. *)

Definition idx {A : Type} (a : list A) (k : Z) : option A :=
  if decide (0 ≤ k) then a !! Z.to_nat k else None.

(** [a[k] = g (a[k])], for the compound assignments [+=] and [-=]. *)
Definition upd {A : Type} (a : list A) (k : Z) (g : A → A) : option (list A) :=
  v ← idx a k; Some (<[Z.to_nat k := g v]> a).

(** [for (i = 0; i < n; i++) body], threading the state [s]. *)
Fixpoint for_upto {S : Type} (fuel : nat) (lo : Z)
    (body : Z → S → option S) (s : S) : option S :=
  match fuel with
  | O => Some s
  | Datatypes.S fuel' => s' ← body lo s; for_upto fuel' (lo + 1) body s'
  end.

Definition for_range {S : Type} (n : Z) (body : Z → S → option S) (s : S)
    : option S :=
  for_upto (Z.to_nat n) 0 body s.

(** ** The arithmetic of [real]

    [of_int] is the conversion of an [int] operand in a mixed expression
    ([interact*rinvsq], [Vvdw12/12], [rs - ri], and the initialiser [=0]);
    [to_int] is the cast [(int)rs], undefined when the truncated value is not
    an [int]; [r_1em12] is the literal [1e-12]; [gmx_invsqrt] comes from a
    maths header that is not modelled and is a field of the interface. *)

Class RealOps (real : Type) : Type := {
  of_int : Z → real;
  to_int : real → option Z;
  radd : real → real → real;
  rsub : real → real → real;
  rmul : real → real → real;
  rdiv : real → real → real;
  rlt : real → real → bool;
  rge : real → real → bool;
  r_1em12 : real;
  gmx_invsqrt : real → real;
}.

Declare Scope real_scope.
Delimit Scope real_scope with real.
Infix "+" := radd : real_scope.
Infix "-" := rsub : real_scope.
Infix "*" := rmul : real_scope.
Infix "/" := rdiv : real_scope.

Definition INT_MIN : Z := - 2 ^ 31.
Definition INT_MAX : Z := 2 ^ 31 - 1.

Definition int_range (z : Z) : bool := (INT_MIN <=? z) && (z <=? INT_MAX).

Module Kernel.

(** The preprocessor symbols the template tests, and the two cluster sizes. *)
Record config : Type := {
  UNROLLI : Z;
  UNROLLJ : Z;
  CHECK_EXCLS : bool;
  CALC_COULOMB : bool;
  CALC_COUL_RF : bool;
  CALC_ENERGIES : bool;
  ENERGY_GROUPS : bool;
  HALF_LJ : bool;
  COUNT_PAIRS : bool;
}.

(** [#if defined CHECK_EXCLS && defined CALC_COULOMB] / [#define EXCL_FORCES] *)
Definition EXCL_FORCES (cfg : config) : bool :=
  CHECK_EXCLS cfg && CALC_COULOMB cfg.

(** An entry of the j-cluster list: the cluster index and the exclusion mask
    (an [unsigned], 32 bits). *)
Record nbnxn_cj_t : Type := { c : Z; excl : Z }.

(** [continue], or control reaches the end of the tested block. *)
Inductive ctl (A : Type) : Type :=
  | Continue : ctl A
  | Go : A → ctl A.
Arguments Continue {A}.
Arguments Go {A} _.

Section kernel.
Context {real : Type} {RO : RealOps real}.
#[local] Open Scope real_scope.

(** Everything the loop body reads and does not write. *)
Record env : Type := {
  l_cj : list nbnxn_cj_t;
  cjind : Z;
  ci : Z;
  ci_sh : Z;
  xi : list real;
  x : list real;
  type : list Z;
  ntype2 : Z;
  nbfp : list real;
  qi : list real;
  q : list real;
  k_rf2 : real;
  k_rf : real;
  c_rf : real;
  tabq_scale : real;
  tab_coul_FDV0 : list real;
  halfsp : real;
  rcut2 : real;
  energrp : list Z;
  egp_sh_i : list Z;
}.

(** Everything the loop body writes: the i-cluster force accumulator [fi], the
    force buffer [f], the energy accumulators (two scalars, or two arrays
    indexed by energy-group pair) and the pair counter. *)
Record acc : Type := {
  fi : list real;
  f : list real;
  Vvdw_ci : real;
  Vc_ci : real;
  Vvdw : list real;
  Vc : list real;
  npair : Z;
}.

(** The locals that are set by the time the cut-off tests have passed. *)
Record geom : Type := {
  interact : Z;
  aj : Z;
  dx : real;
  dy : real;
  dz : real;
  rsq : real;
}.

(** The locals computed after the tests.  [lj] tells whether the Van der Waals
    block ran; [fcoul] and [vcoul] exist only in the builds that declare
    them. *)
Record terms : Type := {
  rinv : real;
  rinvsq : real;
  lj : bool;
  Vvdw6 : real;
  Vvdw12 : real;
  fcoul : option real;
  vcoul : option real;
  fx : real;
  fy : real;
  fz : real;
}.

(** [interact = ((l_cj[cjind].excl>>(i*UNROLLI + j)) & 1)] *)
Definition interact_bit (cfg : config) (e : env) (i j : Z) : option Z :=
  cje ← idx (l_cj e) (cjind e);
  let sh := (i * UNROLLI cfg + j)%Z in
  if decide (0 ≤ sh < 32)%Z then Some (Z.land (Z.shiftr (excl cje) sh) 1)
  else None.

(** [interact] once it is set: the mask bit, or the constant of
    [#define interact 1] in the builds that do not check exclusions. *)
Definition interact_of (cfg : config) (e : env) (i j : Z) : option Z :=
  if CHECK_EXCLS cfg then interact_bit cfg e i j else Some 1%Z.

(** [aj] and the distance: [(dx, dy, dz, rsq)]. *)
Definition pair_dist (cfg : config) (e : env) (cj i j : Z)
    : option (real * real * real * real) :=
  let aj := (cj * UNROLLJ cfg + j)%Z in
  xi0 ← idx (xi e) (i * 3 + 0)%Z; x0 ← idx (x e) (aj * 3 + 0)%Z;
  xi1 ← idx (xi e) (i * 3 + 1)%Z; x1 ← idx (x e) (aj * 3 + 1)%Z;
  xi2 ← idx (xi e) (i * 3 + 2)%Z; x2 ← idx (x e) (aj * 3 + 2)%Z;
  let dx := xi0 - x0 in
  let dy := xi1 - x1 in
  let dz := xi2 - x2 in
  Some (dx, dy, dz, dx * dx + dy * dy + dz * dz).

(** From the declaration of [interact] to the last [continue]: the exclusion
    test or the diagonal test, the distance, the cut-off test and the guard
    against a pair at distance zero. *)
Definition pair_tests (cfg : config) (e : env) (cj i j : Z)
    : option (ctl geom) :=
  ia ← interact_of cfg e i j;
  if CHECK_EXCLS cfg && negb (EXCL_FORCES cfg) && (ia =? 0)%Z
  then Some Continue
  else if CHECK_EXCLS cfg && EXCL_FORCES cfg && (cj =? ci_sh e)%Z && (j <=? i)%Z
  then Some Continue
  else
    '(dx, dy, dz, rsq) ← pair_dist cfg e cj i j;
    if rge rsq (rcut2 e) then Some Continue
    else if EXCL_FORCES cfg && rlt rsq r_1em12 then Some Continue
    else Some (Go {| interact := ia; aj := (cj * UNROLLJ cfg + j)%Z;
                     dx := dx; dy := dy; dz := dz; rsq := rsq |}).

(** The Van der Waals block: [(lj, Vvdw6, Vvdw12)].  Both terms keep their
    initial value 0 when [HALF_LJ] leaves the block out for this [i]. *)
Definition lj_block (cfg : config) (e : env) (type_i_off i : Z) (g : geom)
    (rinvsq : real) : option (bool * real * real) :=
  if HALF_LJ cfg && negb (i <? Z.quot (UNROLLI cfg) 2)%Z
  then Some (false, of_int 0, of_int 0)
  else
    let rinvsix := of_int (interact g) * rinvsq * rinvsq * rinvsq in
    tj ← idx (type e) (aj g);
    c6 ← idx (nbfp e) (type_i_off + tj * 2)%Z;
    c12 ← idx (nbfp e) (type_i_off + tj * 2 + 1)%Z;
    Some (true, c6 * rinvsix, c12 * rinvsix * rinvsix).

(** The Coulomb block: [(fcoul, vcoul)], by the reaction field formula or by
    the table.  [vcoul] is computed under [CALC_ENERGIES] only. *)
Definition coul_block (cfg : config) (e : env) (i : Z) (g : geom)
    (rinv rinvsq : real) : option (real * option real) :=
  qi_i ← idx (qi e) i;
  q_aj ← idx (q e) (aj g);
  let qq := qi_i * q_aj in
  if CALC_COUL_RF cfg then
    let fcoul := qq * (of_int (interact g) * rinv * rinvsq - k_rf2 e) in
    let vcoul := qq * (of_int (interact g) * rinv + k_rf e * rsq g - c_rf e) in
    Some (fcoul, if CALC_ENERGIES cfg then Some vcoul else None)
  else
    let rs := rsq g * rinv * tabq_scale e in
    ri ← to_int rs;
    let frac := rs - of_int ri in
    t0 ← idx (tab_coul_FDV0 e) (ri * 4)%Z;
    t1 ← idx (tab_coul_FDV0 e) (ri * 4 + 1)%Z;
    let fexcl := t0 + frac * t1 in
    let fcoul := of_int (interact g) * rinvsq - fexcl in
    vc ← (if CALC_ENERGIES cfg then
            t2 ← idx (tab_coul_FDV0 e) (ri * 4 + 2)%Z;
            Some (Some (qq * (of_int (interact g) * rinv
                              - (t2 - halfsp e * frac * (t0 + fexcl)))))
          else Some None);
    Some (fcoul * (qq * rinv), vc).

(** From [rinv = gmx_invsqrt(rsq)] to the force vector. *)
Definition pair_terms (cfg : config) (e : env) (type_i_off i : Z) (g : geom)
    : option terms :=
  let rinv := gmx_invsqrt (rsq g) in
  let rinvsq := rinv * rinv in
  '(lj, Vvdw6, Vvdw12) ← lj_block cfg e type_i_off i g rinvsq;
  if CALC_COULOMB cfg then
    '(fcoul, vcoul) ← coul_block cfg e i g rinv rinvsq;
    let fscal :=
      if HALF_LJ cfg && negb (i <? Z.quot (UNROLLI cfg) 2)%Z then fcoul
      else (Vvdw12 - Vvdw6) * rinvsq + fcoul in
    Some {| rinv := rinv; rinvsq := rinvsq; lj := lj;
            Vvdw6 := Vvdw6; Vvdw12 := Vvdw12;
            fcoul := Some fcoul; vcoul := vcoul;
            fx := fscal * dx g; fy := fscal * dy g; fz := fscal * dz g |}
  else
    Some {| rinv := rinv; rinvsq := rinvsq; lj := lj;
            Vvdw6 := Vvdw6; Vvdw12 := Vvdw12;
            fcoul := None; vcoul := None;
            fx := (Vvdw12 - Vvdw6) * rinvsq * dx g;
            fy := (Vvdw12 - Vvdw6) * rinvsq * dy g;
            fz := (Vvdw12 - Vvdw6) * rinvsq * dz g |}.

(** [V[egp_sh_i[i]+((egp_cj>>(8*j)) & 255)] += v], or [V_ci += v] when the
    build has no energy groups.  Returns the array and the scalar. *)
Definition add_energy (cfg : config) (e : env) (egp_cj i j : Z)
    (V : list real) (V_ci : real) (v : real) : option (list real * real) :=
  if ENERGY_GROUPS cfg then
    sh ← idx (egp_sh_i e) i;
    V' ← upd V (sh + Z.land (Z.shiftr egp_cj (8 * j)) 255)%Z (λ o, o + v);
    Some (V', V_ci)
  else Some (V, V_ci + v).

(** The writes of one evaluated pair, in the order of the source: the pair
    counter, the Van der Waals energy, the Coulomb energy, the force on the
    i-particle and the force on the j-particle. *)
Definition pair_accum (cfg : config) (e : env) (egp_cj i j : Z) (g : geom)
    (t : terms) (s : acc) : option acc :=
  let np := if COUNT_PAIRS cfg then (npair s + 1)%Z else npair s in
  '(Vvdw', Vvdw_ci') ←
    (if lj t && CALC_ENERGIES cfg then
       add_energy cfg e egp_cj i j (Vvdw s) (Vvdw_ci s)
         (Vvdw12 t / of_int 12 - Vvdw6 t / of_int 6)
     else Some (Vvdw s, Vvdw_ci s));
  '(Vc', Vc_ci') ←
    (match vcoul t with
     | Some v => add_energy cfg e egp_cj i j (Vc s) (Vc_ci s) v
     | None => Some (Vc s, Vc_ci s)
     end);
  fi0 ← upd (fi s) (i * 3 + 0)%Z (λ o, o + fx t);
  fi1 ← upd fi0 (i * 3 + 1)%Z (λ o, o + fy t);
  fi2 ← upd fi1 (i * 3 + 2)%Z (λ o, o + fz t);
  f0 ← upd (f s) (aj g * 3 + 0)%Z (λ o, o - fx t);
  f1 ← upd f0 (aj g * 3 + 1)%Z (λ o, o - fy t);
  f2 ← upd f1 (aj g * 3 + 2)%Z (λ o, o - fz t);
  Some {| fi := fi2; f := f2; Vvdw_ci := Vvdw_ci'; Vc_ci := Vc_ci';
          Vvdw := Vvdw'; Vc := Vc'; npair := np |}.

(** The body of the j-loop: the tests, then the locals, then the writes.  (In
    the source the two energy writes stand between the computations of the
    locals; no local is computed from what the body writes.) *)
Definition pair_body (cfg : config) (e : env) (cj egp_cj type_i_off i j : Z)
    (s : acc) : option acc :=
  k ← pair_tests cfg e cj i j;
  match k with
  | Continue => Some s
  | Go g =>
      t ← pair_terms cfg e type_i_off i g;
      pair_accum cfg e egp_cj i j g t s
  end.

(** The body of the i-loop: [ai], [type_i_off] and the j-loop. *)
Definition i_body (cfg : config) (e : env) (cj egp_cj i : Z) (s : acc)
    : option acc :=
  let ai := (ci e * UNROLLI cfg + i)%Z in
  ty ← idx (type e) ai;
  let type_i_off := (ty * ntype2 e)%Z in
  for_range (UNROLLJ cfg) (pair_body cfg e cj egp_cj type_i_off i) s.

(** The whole block: one cluster pair. *)
Definition inner (cfg : config) (e : env) (s : acc) : option acc :=
  cje ← idx (l_cj e) (cjind e);
  let cj := c cje in
  egp_cj ← (if ENERGY_GROUPS cfg then idx (energrp e) cj else Some 0%Z);
  for_range (UNROLLI cfg) (i_body cfg e cj egp_cj) s.

(** The force magnitude of the reaction field scenario as the specification
    writes it: [qq*(rinv*rinvsq - k_rf2)*rinv]. *)
Definition spec_rf_force_magnitude (qq rinv rinvsq k_rf2 : real) : real :=
  qq * (rinv * rinvsq - k_rf2) * rinv.

End kernel.

Arguments env : clear implicits.
Arguments acc : clear implicits.
Arguments geom : clear implicits.
Arguments terms : clear implicits.

End Kernel.

(** ** Two arithmetics

    IEEE binary64, the [real] of a double precision build: the operations are
    those of the hardware, [gmx_invsqrt(x)] is [1.0/sqrt(x)] (the definition of
    the builds without the software inverse square root). *)

Definition float_of_Z (z : Z) : float :=
  if (z <? 0)%Z then PrimFloat.opp (PrimFloat.of_uint63 (Uint63.of_Z (- z)))
  else PrimFloat.of_uint63 (Uint63.of_Z z).

(** [(int)x]: the value is truncated towards zero; the cast is undefined for
    a NaN, an infinity, and a value whose integral part is not an [int]. *)
Definition float_to_int (x : float) : option Z :=
  match Prim2SF x with
  | S754_zero _ => Some 0%Z
  | S754_finite s m e =>
      let a := match e with
               | Zneg p => Z.shiftr (Zpos m) (Zpos p)
               | _ => Z.shiftl (Zpos m) e
               end in
      let t := if s then (- a)%Z else a in
      if int_range t then Some t else None
  | _ => None
  end.

(** The number that a finite [double] stands for. *)
Definition float_value (a : float) : option Q :=
  match Prim2SF a with
  | S754_zero _ => Some 0%Q
  | S754_finite sg m ex =>
      Some ((if sg then -1 else 1) * inject_Z (Z.pos m) * Qpower 2 ex)%Q
  | _ => None
  end.

#[export] Instance float_ops : RealOps float := {|
  of_int := float_of_Z;
  to_int := float_to_int;
  radd := PrimFloat.add;
  rsub := PrimFloat.sub;
  rmul := PrimFloat.mul;
  rdiv := PrimFloat.div;
  rlt := PrimFloat.ltb;
  rge := λ a b, PrimFloat.leb b a;
  r_1em12 := 0x1.19799812dea11p-40%float;
  gmx_invsqrt := λ a, PrimFloat.div 1%float (PrimFloat.sqrt a);
|}.

(** The real numbers: the arithmetic that the floating point code
    approximates, for the statements about the formulas themselves. *)

Definition R_to_int (a : R) : option Z :=
  let t := if Rle_dec 0 a then Int_part a else (- Int_part (- a))%Z in
  if int_range t then Some t else None.

#[export] Instance R_ops : RealOps R := {|
  of_int := IZR;
  to_int := R_to_int;
  radd := Rplus;
  rsub := Rminus;
  rmul := Rmult;
  rdiv := Rdiv;
  rlt := λ a b, if Rlt_dec a b then true else false;
  rge := λ a b, if Rle_dec b a then true else false;
  r_1em12 := (/ 10 ^ 12)%R;
  gmx_invsqrt := λ a, (/ R_sqrt.sqrt a)%R;
|}.

Module Compare.

(** Defines the comparison operator for comparison expressions. *)
Inductive e_comparison_t : Type :=
  | CMP_INVALID
  | CMP_LESS
  | CMP_LEQ
  | CMP_GTR
  | CMP_GEQ
  | CMP_EQUAL
  | CMP_NEQ.

Definition CMP_SINGLEVAL : Z := 1.
Definition CMP_DYNAMICVAL : Z := 2.
Definition CMP_REALVAL : Z := 4.
Definition CMP_ALLOCINT : Z := 16.
Definition CMP_ALLOCREAL : Z := 32.

(** [flags & m] as a condition. *)
Definition tst (flags m : Z) : bool := negb (Z.land flags m =? 0).

(** An operand.  The two arrays are pointers: [None] is [NULL].  A [real] is
    a rational number here: every finite floating point number is one, and
    [ceil], [floor] and the comparisons are exact on them.  The conversion of
    an [int] to [real] is not exact in every build: see [single_of_int]. *)
Record t_compare_value : Type := {
  flags : Z;
  i : option (list Z);
  r : option (list Q);
}.

Record t_methoddata_compare : Type := {
  cmpop : option string;
  cmpt : e_comparison_t;
  left : t_compare_value;
  right : t_compare_value;
}.

(** The exceptions the method throws (utility/exceptions.h), with their
    message. *)
Inductive exn : Type :=
  | InternalError (msg : string)
  | NotImplementedError (msg : string).

(** A call returns, throws, or has no defined behaviour (a null or out of
    bounds access, a cast to [int] of a value that is not an [int]). *)
Inductive result (A : Type) : Type :=
  | Ok (a : A)
  | Throw (e : exn)
  | Undefined.
Arguments Ok {A} _.
Arguments Throw {A} _.
Arguments Undefined {A}.

#[export] Instance result_bind : MBind result := λ A B k m,
  match m with
  | Ok a => k a
  | Throw e => Throw e
  | Undefined => Undefined
  end.

(** [p[k]] *)
Definition rd {A : Type} (p : option (list A)) (k : Z) : result A :=
  match p with
  | Some a => match idx a k with Some v => Ok v | None => Undefined end
  | None => Undefined
  end.

(** A selection method parameter, as far as the method reads it: the number
    of values, the two members of the value union that the method uses, and
    the flags. *)
Record gmx_ana_selparam_t : Type := {
  val_nr : Z;
  val_u_i : option (list Z);
  val_u_r : option (list Q);
  pflags : Z;
}.

Definition ceil (a : Q) : Q := inject_Z (Qceiling a).
Definition floor (a : Q) : Q := inject_Z (Qfloor a).

(** [(int)a]: truncation towards zero, undefined when the result is not an
    [int]. *)
Definition cast_int (a : Q) : result Z :=
  let t := if Qle_bool 0 a then Qfloor a else Qceiling a in
  if int_range t then Ok t else Undefined.

Definition comparison_type (str : string) : e_comparison_t :=
  let eq1 := match String.get 1 str with
             | Some c => Ascii.eqb c "="
             | None => false
             end in
  match String.get 0 str with
  | Some "<"%char => if eq1 then CMP_LEQ else CMP_LESS
  | Some ">"%char => if eq1 then CMP_GEQ else CMP_GTR
  | Some "="%char => if eq1 then CMP_EQUAL else CMP_INVALID
  | Some "!"%char => if eq1 then CMP_NEQ else CMP_INVALID
  | _ => CMP_INVALID
  end.

Definition comparison_type_str (t : e_comparison_t) : string :=
  match t with
  | CMP_INVALID => "INVALID"
  | CMP_LESS => "<"
  | CMP_LEQ => "<="
  | CMP_GTR => ">"
  | CMP_GEQ => ">="
  | CMP_EQUAL => "=="
  | CMP_NEQ => "!="
  end.

(** The data as [snew] leaves it: all zero. *)
Definition init_data_compare : t_methoddata_compare :=
  {| cmpop := None; cmpt := CMP_INVALID;
     left := {| flags := 0; i := None; r := None |};
     right := {| flags := 0; i := None; r := None |} |}.

Definition reverse_comparison_type (t : e_comparison_t) : e_comparison_t :=
  match t with
  | CMP_LESS => CMP_GTR
  | CMP_LEQ => CMP_GEQ
  | CMP_GTR => CMP_LESS
  | CMP_GEQ => CMP_LEQ
  | _ => t
  end.

(** [(real)z], the conversion of an [int] to [real].  A header that is not
    modelled makes [real] a [float] or a [double], as the build is in single
    or in double precision; the functions below take the conversion of the
    build as [real_of_int].

    Single precision: the nearest number with a significand of 24 bits, a tie
    going to the even significand.  An [int] up to [2^24] in absolute value
    is kept; a larger one is rounded ([16777217] becomes [16777216]). *)
Definition single_of_int (z : Z) : Q :=
  let a := Z.abs z in
  let e := Z.log2 a - 23 in
  if e <=? 0 then inject_Z z
  else
    let q := Z.shiftr a e in
    let rest := Z.land a (Z.ones e) in
    let half := Z.shiftl 1 (e - 1) in
    let q' := if (half <? rest) || ((rest =? half) && Z.odd q)
              then q + 1 else q in
    inject_Z (Z.sgn z * Z.shiftl q' e).

(** Double precision: every [int] (32 bits) is a number of the format, and
    the conversion is exact. *)
Definition double_of_int (z : Z) : Q := inject_Z z.

(** [convert_int_real]: the loop, then the stores to [val]. *)
Fixpoint convert_int_real_loop (real_of_int : Z → Q) (fuel : nat) (k : Z)
    (vi : option (list Z)) (rv : list Q) : result (list Q) :=
  match fuel with
  | O => Ok rv
  | S fuel' =>
      a ← rd vi k;
      convert_int_real_loop real_of_int fuel' (k + 1) vi
        (rv ++ [real_of_int a])
  end.

Definition convert_int_real (real_of_int : Z → Q) (n : Z)
    (val : t_compare_value) : result t_compare_value :=
  rv ← convert_int_real_loop real_of_int (Z.to_nat n) 0 (i val) [];
  Ok {| flags := Z.lor (flags val) (Z.lor CMP_REALVAL CMP_ALLOCREAL);
        i := i val; r := Some rv |}.

Definition msg_not_implemented : string :=
  "Equality comparison between dynamic integer and static real expressions not implemented".

(** [convert_real_int]: the [switch] in the loop rounds one value, or
    throws. *)
Definition round_value (vr : option (list Q)) (k : Z) (cmpt : e_comparison_t)
    : result Z :=
  match cmpt with
  | CMP_LESS | CMP_GEQ => a ← rd vr k; cast_int (ceil a)
  | CMP_GTR | CMP_LEQ => a ← rd vr k; cast_int (floor a)
  | CMP_EQUAL | CMP_NEQ => Throw (NotImplementedError msg_not_implemented)
  | CMP_INVALID => Throw (InternalError "Invalid comparison type")
  end.

Fixpoint convert_real_int_loop (fuel : nat) (k : Z) (vr : option (list Q))
    (cmpt : e_comparison_t) (iv : list Z) : result (list Z) :=
  match fuel with
  | O => Ok iv
  | S fuel' =>
      v ← round_value vr k cmpt;
      convert_real_int_loop fuel' (k + 1) vr cmpt (iv ++ [v])
  end.

Definition convert_real_int (n : Z) (val : t_compare_value)
    (cmpt : e_comparison_t) (bRight : bool) : result t_compare_value :=
  let cmpt := if bRight then cmpt else reverse_comparison_type cmpt in
  iv ← convert_real_int_loop (Z.to_nat n) 0 (r val) cmpt [];
  Ok {| flags := Z.lor (Z.land (flags val) (Z.lnot CMP_REALVAL)) CMP_ALLOCINT;
        i := Some iv; r := r val |}.

Section method.
(** The parameter flags are bits defined in selparam.h, the tolerant
    equality [gmx_within_tol(a, b, GMX_REAL_EPS)] is defined in a maths
    header, and the conversion [(real)] of an [int] is the one of the build
    ([single_of_int] or [double_of_int]); all are variables here. *)
Variables SPAR_SET SPAR_DYNAMIC SPAR_ATOMVAL : Z.
Variable gmx_within_tol : Q → Q → bool.
Variable real_of_int : Z → Q.

(** [init_comparison_value(val, &param[k])]: the number of values and the
    operand.  [val->i] and [val->r] keep what they hold unless assigned. *)
Definition init_comparison_value (val : t_compare_value)
    (param : list gmx_ana_selparam_t) (k : Z) : result (Z * t_compare_value) :=
  p0 ← rd (Some param) k;
  if tst (pflags p0) SPAR_SET then
    let fl := Z.lor 0 (if tst (pflags p0) SPAR_DYNAMIC then CMP_DYNAMICVAL else 0) in
    let fl := Z.lor fl (if negb (tst (pflags p0) SPAR_ATOMVAL) then CMP_SINGLEVAL else 0) in
    Ok (val_nr p0, {| flags := fl; i := val_u_i p0; r := r val |})
  else
    p1 ← rd (Some param) (k + 1);
    if tst (pflags p1) SPAR_SET then
      let fl := Z.lor 0 (if tst (pflags p1) SPAR_DYNAMIC then CMP_DYNAMICVAL else 0) in
      let fl := Z.lor fl (if negb (tst (pflags p1) SPAR_ATOMVAL) then CMP_SINGLEVAL else 0) in
      let fl := Z.lor fl CMP_REALVAL in
      Ok (val_nr p1, {| flags := fl; i := i val; r := val_u_r p1 |})
    else
      Ok (0, {| flags := 0; i := None; r := None |}).

Definition init_compare (param : list gmx_ana_selparam_t)
    (d : t_methoddata_compare) : result t_methoddata_compare :=
  '(n1, l) ← init_comparison_value (left d) param 0;
  '(n2, r) ← init_comparison_value (right d) param 3;
  if (n1 =? 0) || (n2 =? 0) then
    Throw (InternalError "One of the values for comparison missing")
  else
    op ← match cmpop d with Some s => Ok s | None => Undefined end;
    let ct := comparison_type op in
    match ct with
    | CMP_INVALID => Throw (InternalError "Invalid comparison type")
    | _ =>
      let d := {| cmpop := cmpop d; cmpt := ct; left := l; right := r |} in
      if tst (flags l) CMP_REALVAL && negb (tst (flags r) CMP_REALVAL) then
        if tst (Z.land (flags l) (flags r)) CMP_DYNAMICVAL then Ok d
        else if negb (tst (flags r) CMP_DYNAMICVAL) then
          r' ← convert_int_real real_of_int n2 r;
          Ok {| cmpop := cmpop d; cmpt := ct; left := l; right := r' |}
        else
          l' ← convert_real_int n1 l ct false;
          Ok {| cmpop := cmpop d; cmpt := ct; left := l'; right := r |}
      else if negb (tst (flags l) CMP_REALVAL) && tst (flags r) CMP_REALVAL then
        if tst (Z.land (flags l) (flags r)) CMP_DYNAMICVAL then
          Ok {| cmpop := cmpop d;
                cmpt := reverse_comparison_type ct;
                left := {| flags := flags r; i := None; r := Compare.r r |};
                right := {| flags := flags l; i := i l; r := None |} |}
        else if negb (tst (flags l) CMP_DYNAMICVAL) then
          l' ← convert_int_real real_of_int n1 l;
          Ok {| cmpop := cmpop d; cmpt := ct; left := l'; right := r |}
        else
          r' ← convert_real_int n2 r ct true;
          Ok {| cmpop := cmpop d; cmpt := ct; left := l; right := r' |}
      else Ok d
    end.

(** The [switch] of [evaluate_compare_int]. *)
Definition accept_int (ct : e_comparison_t) (a b : Z) : bool :=
  match ct with
  | CMP_INVALID => false
  | CMP_LESS => a <? b
  | CMP_LEQ => a <=? b
  | CMP_GTR => a >? b
  | CMP_GEQ => a >=? b
  | CMP_EQUAL => a =? b
  | CMP_NEQ => negb (a =? b)
  end.

(** The [switch] of [evaluate_compare_real]. *)
Definition accept_real (ct : e_comparison_t) (a b : Q) : bool :=
  match ct with
  | CMP_INVALID => false
  | CMP_LESS => negb (Qle_bool b a)
  | CMP_LEQ => Qle_bool a b
  | CMP_GTR => negb (Qle_bool a b)
  | CMP_GEQ => Qle_bool b a
  | CMP_EQUAL => gmx_within_tol a b
  | CMP_NEQ => negb (gmx_within_tol a b)
  end.

(** The loop of [evaluate_compare_int] over the index group [g]; [out] is the
    output group, [i1] and [i2] the positions in the two operands. *)
Fixpoint evaluate_compare_int_loop (g : list Z) (i1 i2 : Z)
    (d : t_methoddata_compare) (out : list Z) : result (list Z) :=
  match g with
  | [] => Ok out
  | gi :: g' =>
      a ← rd (i (left d)) i1;
      b ← rd (i (right d)) i2;
      let out := if accept_int (cmpt d) a b then out ++ [gi] else out in
      evaluate_compare_int_loop g'
        (if tst (flags (left d)) CMP_SINGLEVAL then i1 else i1 + 1)
        (if tst (flags (right d)) CMP_SINGLEVAL then i2 else i2 + 1)
        d out
  end.

Definition evaluate_compare_int (g : list Z) (d : t_methoddata_compare)
    : result (list Z) :=
  evaluate_compare_int_loop g 0 0 d [].

(** The loop of [evaluate_compare_real].  An integer right operand is
    converted to [real] at each element: [b = d->right.i[i2]]. *)
Fixpoint evaluate_compare_real_loop (g : list Z) (i1 i2 : Z)
    (d : t_methoddata_compare) (out : list Z) : result (list Z) :=
  match g with
  | [] => Ok out
  | gi :: g' =>
      a ← rd (r (left d)) i1;
      b ← (if tst (flags (right d)) CMP_REALVAL then rd (r (right d)) i2
           else bi ← rd (i (right d)) i2; Ok (real_of_int bi));
      let out := if accept_real (cmpt d) a b then out ++ [gi] else out in
      evaluate_compare_real_loop g'
        (if tst (flags (left d)) CMP_SINGLEVAL then i1 else i1 + 1)
        (if tst (flags (right d)) CMP_SINGLEVAL then i2 else i2 + 1)
        d out
  end.

Definition evaluate_compare_real (g : list Z) (d : t_methoddata_compare)
    : result (list Z) :=
  evaluate_compare_real_loop g 0 0 d [].

Definition evaluate_compare (g : list Z) (d : t_methoddata_compare)
    : result (list Z) :=
  if negb (tst (Z.lor (flags (left d)) (flags (right d))) CMP_REALVAL)
  then evaluate_compare_int g d
  else evaluate_compare_real g d.

(** The operand that [init_comparison_value] reads from the parameter pair
    [(pi, pr)] is a dynamic integer with values: the integer parameter is
    set, dynamic, and has a number of values other than 0. *)
Definition dynamic_int_operand (pi pr : gmx_ana_selparam_t) : Prop :=
  tst (pflags pi) SPAR_SET = true ∧ tst (pflags pi) SPAR_DYNAMIC = true ∧
  val_nr pi ≠ 0.

(** The operand read from [(pi, pr)] is a static real with at least one
    value: the integer parameter is not set, the real parameter is set and
    not dynamic. *)
Definition static_real_operand (pi pr : gmx_ana_selparam_t) : Prop :=
  tst (pflags pi) SPAR_SET = false ∧ tst (pflags pr) SPAR_SET = true ∧
  tst (pflags pr) SPAR_DYNAMIC = false ∧ 0 < val_nr pr.

End method.

(** The four order operators. *)
Definition is_order (ct : e_comparison_t) : bool :=
  match ct with
  | CMP_LESS | CMP_LEQ | CMP_GTR | CMP_GEQ => true
  | _ => false
  end.

(** The integer that [convert_real_int] stores for a real [a] when the
    operator (already reversed for a left operand) is [ct], before the cast
    to [int]. *)
Definition rounded (ct : e_comparison_t) (a : Q) : Z :=
  match ct with
  | CMP_LESS | CMP_GEQ => Qceiling a
  | _ => Qfloor a
  end.

End Compare.

(** ** Concrete kernels and inputs (double precision)

    Clusters of four particles.  In [env_two] the system has two particles:
    particle 0 (cluster 0, charge 1, at the origin) and particle 4 (cluster 1,
    charge -1, at distance 2 on the x axis); the other slots are padding
    (charge 0, far outside the cut-off 3).  In [env_self] cluster 0 is paired
    with itself and particles 0 and 1 are at distance 1. *)
Module KernelData.
Import Kernel.

Definition cfg_rf : config :=
  {| UNROLLI := 4; UNROLLJ := 4; CHECK_EXCLS := false; CALC_COULOMB := true;
     CALC_COUL_RF := true; CALC_ENERGIES := true; ENERGY_GROUPS := false;
     HALF_LJ := false; COUNT_PAIRS := false |}.

(** Exclusions checked, reaction field, forces only. *)
Definition cfg_excl_rf : config :=
  {| UNROLLI := 4; UNROLLJ := 4; CHECK_EXCLS := true; CALC_COULOMB := true;
     CALC_COUL_RF := true; CALC_ENERGIES := false; ENERGY_GROUPS := false;
     HALF_LJ := false; COUNT_PAIRS := false |}.

(** Exclusions checked, Van der Waals only, with energies. *)
Definition cfg_excl_lj : config :=
  {| UNROLLI := 4; UNROLLJ := 4; CHECK_EXCLS := true; CALC_COULOMB := false;
     CALC_COUL_RF := false; CALC_ENERGIES := true; ENERGY_GROUPS := false;
     HALF_LJ := false; COUNT_PAIRS := false |}.

Definition cfg_half : config :=
  {| UNROLLI := 4; UNROLLJ := 4; CHECK_EXCLS := false; CALC_COULOMB := true;
     CALC_COUL_RF := true; CALC_ENERGIES := true; ENERGY_GROUPS := false;
     HALF_LJ := true; COUNT_PAIRS := false |}.

Definition two_particles (mask : Z) : env float :=
  {| l_cj := [ {| c := 1; excl := mask |} ]; cjind := 0; ci := 0; ci_sh := 0;
     xi := [0; 0; 0;  50; 0; 0;  60; 0; 0;  70; 0; 0]%float;
     x := [0; 0; 0;  50; 0; 0;  60; 0; 0;  70; 0; 0;
           2; 0; 0;  150; 0; 0;  160; 0; 0;  170; 0; 0]%float;
     type := [0; 0; 0; 0; 0; 0; 0; 0]; ntype2 := 2;
     nbfp := [0; 0]%float;
     qi := [1; 0; 0; 0]%float;
     q := [1; 0; 0; 0; -1; 0; 0; 0]%float;
     k_rf2 := 0.015625%float; k_rf := 0.0078125%float; c_rf := 0.40625%float;
     tabq_scale := 1%float; tab_coul_FDV0 := []; halfsp := 0.5%float;
     rcut2 := 9%float; energrp := []; egp_sh_i := [] |}.

(** No exclusion: all sixteen mask bits are set. *)
Definition env_two : env float := two_particles 65535.

(** The pair of particle 0 and particle 4 is excluded: bit 0 is clear. *)
Definition env_excl : env float := two_particles 65534.

(** Cluster 0 against itself; particles 2 and 3 are at the same place. *)
Definition env_self : env float :=
  {| l_cj := [ {| c := 0; excl := 65535 |} ]; cjind := 0; ci := 0; ci_sh := 0;
     xi := [0; 0; 0;  1; 0; 0;  2; 0; 0;  2; 0; 0]%float;
     x := [0; 0; 0;  1; 0; 0;  2; 0; 0;  2; 0; 0]%float;
     type := [0; 0; 0; 0]; ntype2 := 2;
     nbfp := [1; 2]%float;
     qi := [1; -1; 0.5; 0]%float;
     q := [1; -1; 0.5; 0]%float;
     k_rf2 := 0.015625%float; k_rf := 0.0078125%float; c_rf := 0.40625%float;
     tabq_scale := 1%float; tab_coul_FDV0 := []; halfsp := 0.5%float;
     rcut2 := 9%float; energrp := []; egp_sh_i := [] |}.

(** The locals of the pair of particle 0 and particle 4 in [env_two], and
    the accumulators after that pair. *)
Definition g_two : geom float :=
  {| interact := 1; aj := 4;
     dx := (-2)%float; dy := 0%float; dz := 0%float; rsq := 4%float |}.

Definition t_two : terms float :=
  {| rinv := 0.5%float; rinvsq := 0.25%float; lj := true;
     Vvdw6 := 0%float; Vvdw12 := 0%float;
     fcoul := Some (-0.109375)%float; vcoul := Some (-0.125)%float;
     fx := 0.21875%float; fy := (-0)%float; fz := (-0)%float |}.

Definition acc_two : acc float :=
  {| fi := [0.21875; 0; 0;  0; 0; 0;  0; 0; 0;  0; 0; 0]%float;
     f := [0; 0; 0;  0; 0; 0;  0; 0; 0;  0; 0; 0;
           -0.21875; 0; 0;  0; 0; 0;  0; 0; 0;  0; 0; 0]%float;
     Vvdw_ci := 0%float; Vc_ci := (-0.125)%float;
     Vvdw := []; Vc := []; npair := 0 |}.

(** The norm of the force of an evaluated pair. *)
Definition force_norm (t : terms float) : float :=
  PrimFloat.sqrt (fx t * fx t + fy t * fy t + fz t * fz t)%float.

(** Zeroed accumulators for [n] particles in the force buffer. *)
Definition acc_zero (n : nat) : acc float :=
  {| fi := repeat 0%float 12; f := repeat 0%float (3 * n);
     Vvdw_ci := 0%float; Vc_ci := 0%float; Vvdw := []; Vc := []; npair := 0 |}.

(** The same system of two particles in exact arithmetic. *)
Definition env_two_R : env R :=
  {| l_cj := [ {| c := 1; excl := 65535 |} ]; cjind := 0; ci := 0; ci_sh := 0;
     xi := [0; 0; 0;  50; 0; 0;  60; 0; 0;  70; 0; 0]%R;
     x := [0; 0; 0;  50; 0; 0;  60; 0; 0;  70; 0; 0;
           2; 0; 0;  150; 0; 0;  160; 0; 0;  170; 0; 0]%R;
     type := [0; 0; 0; 0; 0; 0; 0; 0]; ntype2 := 2;
     nbfp := [0; 0]%R;
     qi := [1; 0; 0; 0]%R;
     q := [1; 0; 0; 0; -1; 0; 0; 0]%R;
     k_rf2 := (/ 64)%R; k_rf := (/ 128)%R; c_rf := (13 / 32)%R;
     tabq_scale := 1%R; tab_coul_FDV0 := []; halfsp := (/ 2)%R;
     rcut2 := 9%R; energrp := []; egp_sh_i := [] |}.

Definition g_two_R : geom R :=
  {| interact := 1; aj := 4;
     dx := (0 - 2)%R; dy := (0 - 0)%R; dz := (0 - 0)%R;
     rsq := ((0 - 2) * (0 - 2) + (0 - 0) * (0 - 0) + (0 - 0) * (0 - 0))%R |}.

(** The largest finite single precision number. *)
Definition FLT_MAX : R := ((2 - / 2 ^ 23) * 2 ^ 127)%R.

End KernelData.


(** ** Concrete comparison set-ups *)
Module CompareData.
Import Compare.

(** A choice of the three parameter flag bits. *)
Definition SPAR_DYNAMIC : Z := 2.
Definition SPAR_ATOMVAL : Z := 16.
Definition SPAR_SET : Z := 64.

Definition unset : gmx_ana_selparam_t :=
  {| val_nr := -1; val_u_i := None; val_u_r := None; pflags := 0 |}.

(** A dynamic integer parameter with one value per atom, for three atoms. *)
Definition dyn_int : gmx_ana_selparam_t :=
  {| val_nr := 3; val_u_i := Some [1; 2; 3]; val_u_r := None;
     pflags := Z.lor SPAR_SET (Z.lor SPAR_DYNAMIC SPAR_ATOMVAL) |}.

(** A static real parameter with the single value [a]. *)
Definition stat_real (a : Q) : gmx_ana_selparam_t :=
  {| val_nr := 1; val_u_i := None; val_u_r := Some [a]; pflags := SPAR_SET |}.

Definition op_param : gmx_ana_selparam_t :=
  {| val_nr := 1; val_u_i := None; val_u_r := None; pflags := SPAR_SET |}.

(** A dynamic real parameter with the value 3000000000 for each of three
    atoms (a number of either floating point format). *)
Definition dyn_real_big : gmx_ana_selparam_t :=
  {| val_nr := 3; val_u_i := None;
     val_u_r := Some [3000000000 # 1; 3000000000 # 1; 3000000000 # 1];
     pflags := Z.lor SPAR_SET (Z.lor SPAR_DYNAMIC SPAR_ATOMVAL) |}.

(** The method data after the parameter parser has stored the operator. *)
Definition data_for (op : string) : t_methoddata_compare :=
  {| cmpop := Some op; cmpt := cmpt init_data_compare;
     left := left init_data_compare; right := right init_data_compare |}.

(** No tolerance: the equality of [evaluate_compare_real] is exact here. *)
Definition exact_tol (a b : Q) : bool := Qeq_bool a b.

End CompareData.

(** ** Counting and summing over the kernel loops *)
Module KernelSums.
Import Kernel.

(** [c lo + c (lo + 1) + ...], over as many indices as [for_upto] visits. *)
Fixpoint sumZ (fuel : nat) (lo : Z) (c : Z → Z) : Z :=
  match fuel with
  | O => 0
  | S fuel' => c lo + sumZ fuel' (lo + 1) c
  end.

(** The tests of the pair [(i, j)] let it through. *)
Definition passes {real : Type} {RO : RealOps real} (cfg : config)
    (e : env real) (cj i j : Z) : bool :=
  match pair_tests cfg e cj i j with
  | Some (Go _) => true
  | _ => false
  end.

(** The number of pairs of the cluster pair that pass the tests. *)
Definition passing_pairs {real : Type} {RO : RealOps real} (cfg : config)
    (e : env real) (cj : Z) : Z :=
  sumZ (Z.to_nat (UNROLLI cfg)) 0 (λ i,
    sumZ (Z.to_nat (UNROLLJ cfg)) 0 (λ j,
      if passes cfg e cj i j then 1 else 0)).

(** Two states of the accumulators agree in the lengths of the four arrays,
    in [fi] outside the slots [[0, 3*UNROLLI)] and in [f] outside the slots
    of the particles of cluster [cj]. *)
Definition same_outside {real : Type} (cfg : config) (cj : Z)
    (s1 s2 : acc real) : Prop :=
  (length (fi s2) = length (fi s1) ∧ length (f s2) = length (f s1) ∧
   length (Vvdw s2) = length (Vvdw s1) ∧ length (Vc s2) = length (Vc s1)) ∧
  (∀ n, ¬ (0 ≤ n < 3 * UNROLLI cfg) → idx (fi s2) n = idx (fi s1) n) ∧
  (∀ n, ¬ (3 * (cj * UNROLLJ cfg) ≤ n < 3 * (cj * UNROLLJ cfg + UNROLLJ cfg)) →
        idx (f s2) n = idx (f s1) n).

(** The two force arrays hold the particles of the i-cluster and of cluster
    [cj]. *)
Definition room {real : Type} (cfg : config) (cj : Z) (s : acc real) : Prop :=
  3 * UNROLLI cfg ≤ Z.of_nat (length (fi s)) ∧
  3 * ((cj + 1) * UNROLLJ cfg) ≤ Z.of_nat (length (f s)).

(** The Van der Waals energy of a pair as a function of its squared distance
    [u], for the parameters [c6] and [c12] as [nbfp] holds them: the value of
    [Vvdw12/12 - Vvdw6/6]. *)
Definition lj_energy (c6 c12 u : R) : R :=
  (c12 / 12 * / u ^ 6 - c6 / 6 * / u ^ 3)%R.

(** The reaction field energy of a pair of charges of product [qq] as a
    function of its squared distance [u]: the value of [vcoul] when
    [interact] is 1. *)
Definition rf_energy (qq k_rf c_rf u : R) : R :=
  (qq * (1 / R_sqrt.sqrt u + k_rf * u - c_rf))%R.

(** The sum of the entries of a buffer of 3-vectors that hold component [k]
    (0, 1 or 2), the buffer starting at position [pos]. *)
Fixpoint csum (k pos : nat) (l : list R) : R :=
  match l with
  | [] => 0%R
  | v :: l' => ((if (pos mod 3 =? k)%nat then v else 0) + csum k (S pos) l')%R
  end.

(** Component [k] of the total of the two force buffers. *)
Definition total_force (k : nat) (s : acc R) : R :=
  (csum k 0 (fi s) + csum k 0 (f s))%R.

End KernelSums.

(** ** More concrete kernels and inputs *)
Module KernelCases.
Import Kernel KernelData.

(** Exclusions checked, reaction field, forces only, pairs counted. *)
Definition cfg_count : config :=
  {| UNROLLI := 4; UNROLLJ := 4; CHECK_EXCLS := true; CALC_COULOMB := true;
     CALC_COUL_RF := true; CALC_ENERGIES := false; ENERGY_GROUPS := false;
     HALF_LJ := false; COUNT_PAIRS := true |}.

(** The Coulomb table in the place of the reaction field. *)
Definition cfg_tab : config :=
  {| UNROLLI := 4; UNROLLJ := 4; CHECK_EXCLS := false; CALC_COULOMB := true;
     CALC_COUL_RF := false; CALC_ENERGIES := true; ENERGY_GROUPS := false;
     HALF_LJ := false; COUNT_PAIRS := false |}.

(** Exclusions checked, reaction field, with energies. *)
Definition cfg_excl_rf_en : config :=
  {| UNROLLI := 4; UNROLLJ := 4; CHECK_EXCLS := true; CALC_COULOMB := true;
     CALC_COUL_RF := true; CALC_ENERGIES := true; ENERGY_GROUPS := false;
     HALF_LJ := false; COUNT_PAIRS := false |}.

(** Reaction field with energies kept per pair of energy groups. *)
Definition cfg_groups : config :=
  {| UNROLLI := 4; UNROLLJ := 4; CHECK_EXCLS := false; CALC_COULOMB := true;
     CALC_COUL_RF := true; CALC_ENERGIES := true; ENERGY_GROUPS := true;
     HALF_LJ := false; COUNT_PAIRS := false |}.

(** The system of [env_two] with two energy groups: the particles of
    cluster 0 are in group 0, those of cluster 1 in group 1; the energies of
    the i-particles start at slot 0 of the arrays. *)
Definition env_groups : env float :=
  {| l_cj := [ {| c := 1; excl := 65535 |} ]; cjind := 0; ci := 0; ci_sh := 0;
     xi := [0; 0; 0;  50; 0; 0;  60; 0; 0;  70; 0; 0]%float;
     x := [0; 0; 0;  50; 0; 0;  60; 0; 0;  70; 0; 0;
           2; 0; 0;  150; 0; 0;  160; 0; 0;  170; 0; 0]%float;
     type := [0; 0; 0; 0; 0; 0; 0; 0]; ntype2 := 2;
     nbfp := [0; 0]%float;
     qi := [1; 0; 0; 0]%float;
     q := [1; 0; 0; 0; -1; 0; 0; 0]%float;
     k_rf2 := 0.015625%float; k_rf := 0.0078125%float; c_rf := 0.40625%float;
     tabq_scale := 1%float; tab_coul_FDV0 := []; halfsp := 0.5%float;
     rcut2 := 9%float; energrp := [0; 16843009]; egp_sh_i := [0; 0; 0; 0] |}.

(** Zeroed accumulators with energy arrays for two groups. *)
Definition acc_groups : acc float :=
  {| fi := repeat 0%float 12; f := repeat 0%float 24;
     Vvdw_ci := 0%float; Vc_ci := 0%float;
     Vvdw := [0; 0]%float; Vc := [0; 0]%float; npair := 0 |}.

(** The system of [env_two_R] with the exclusion mask [mask], the Van der
    Waals parameters [c6] and [c12] and the Coulomb table [tab]. *)
Definition two_particles_R (mask : Z) (c6 c12 : R) (tab : list R) : env R :=
  {| l_cj := [ {| c := 1; excl := mask |} ]; cjind := 0; ci := 0; ci_sh := 0;
     xi := [0; 0; 0;  50; 0; 0;  60; 0; 0;  70; 0; 0]%R;
     x := [0; 0; 0;  50; 0; 0;  60; 0; 0;  70; 0; 0;
           2; 0; 0;  150; 0; 0;  160; 0; 0;  170; 0; 0]%R;
     type := [0; 0; 0; 0; 0; 0; 0; 0]; ntype2 := 2;
     nbfp := [c6; c12];
     qi := [1; 0; 0; 0]%R;
     q := [1; 0; 0; 0; -1; 0; 0; 0]%R;
     k_rf2 := (/ 64)%R; k_rf := (/ 128)%R; c_rf := (13 / 32)%R;
     tabq_scale := 1%R; tab_coul_FDV0 := tab; halfsp := (/ 2)%R;
     rcut2 := 9%R; energrp := []; egp_sh_i := [] |}.

(** The locals of the pair of particle 0 and particle 4 when it is
    excluded. *)
Definition g_excl_R : geom R :=
  {| interact := 0; aj := 4;
     dx := (0 - 2)%R; dy := (0 - 0)%R; dz := (0 - 0)%R;
     rsq := ((0 - 2) * (0 - 2) + (0 - 0) * (0 - 0) + (0 - 0) * (0 - 0))%R |}.

(** Zeroed accumulators for [n] particles in the force buffer. *)
Definition acc_zero_R (n : nat) : acc R :=
  {| fi := repeat 0%R 12; f := repeat 0%R (3 * n);
     Vvdw_ci := 0%R; Vc_ci := 0%R; Vvdw := []; Vc := []; npair := 0 |}.

(** The system of [env_two] with a coordinate of particle 0 that is not a
    number. *)
Definition env_nan : env float :=
  {| l_cj := [ {| c := 1; excl := 65535 |} ]; cjind := 0; ci := 0; ci_sh := 0;
     xi := [nan; 0; 0;  50; 0; 0;  60; 0; 0;  70; 0; 0]%float;
     x := [nan; 0; 0;  50; 0; 0;  60; 0; 0;  70; 0; 0;
           2; 0; 0;  150; 0; 0;  160; 0; 0;  170; 0; 0]%float;
     type := [0; 0; 0; 0; 0; 0; 0; 0]; ntype2 := 2;
     nbfp := [0; 0]%float;
     qi := [1; 0; 0; 0]%float;
     q := [1; 0; 0; 0; -1; 0; 0; 0]%float;
     k_rf2 := 0.015625%float; k_rf := 0.0078125%float; c_rf := 0.40625%float;
     tabq_scale := 1%float; tab_coul_FDV0 := []; halfsp := 0.5%float;
     rcut2 := 9%float; energrp := []; egp_sh_i := [] |}.

(** Two particles at the distance [2 - 2^-52], just inside the cut-off
    ([rcut2] is [4 - 2^-51]), and a Coulomb table of two points. *)
Definition env_edge : env float :=
  {| l_cj := [ {| c := 1; excl := 65535 |} ]; cjind := 0; ci := 0; ci_sh := 0;
     xi := [0x1.fffffffffffffp+0; 0; 0;  50; 0; 0;  60; 0; 0;  70; 0; 0]%float;
     x := [0; 0; 0;  50; 0; 0;  60; 0; 0;  70; 0; 0;
           0; 0; 0;  150; 0; 0;  160; 0; 0;  170; 0; 0]%float;
     type := [0; 0; 0; 0; 0; 0; 0; 0]; ntype2 := 2;
     nbfp := [0; 0]%float;
     qi := [1; 0; 0; 0]%float;
     q := [1; 0; 0; 0; -1; 0; 0; 0]%float;
     k_rf2 := 0.015625%float; k_rf := 0.0078125%float; c_rf := 0.40625%float;
     tabq_scale := 1%float;
     tab_coul_FDV0 := [4; 1; 0; 0;  3; 1; 0; 0]%float; halfsp := 0.5%float;
     rcut2 := 0x1.fffffffffffffp+1%float; energrp := []; egp_sh_i := [] |}.

End KernelCases.

(** ** What a comparison selects *)
Module CompareSel.

(** The elements of [g] whose values, taken side by side from [la] and [ra],
    are accepted, in the order of [g]. *)
Fixpoint select {A B : Type} (accept : A → B → bool) (g : list Z)
    (la : list A) (ra : list B) : list Z :=
  match g, la, ra with
  | gi :: g', a :: la', b :: ra' =>
      if accept a b then gi :: select accept g' la' ra'
      else select accept g' la' ra'
  | _, _, _ => []
  end.

(** The [n] values that an operand supplies to an evaluation over [n]
    elements: its first value [n] times when it has a single value, its first
    [n] values otherwise; nothing when the array is too short. *)
Definition operand_values {A : Type} (single : bool) (l : list A) (n : nat)
    : option (list A) :=
  if single then replicate n <$> head l
  else if decide (n ≤ length l)%nat then Some (take n l) else None.

(** The operand that [init_comparison_value] reads from the parameter pair
    [(pi, pr)] has no value: the parameter it takes has a value count of 0,
    or neither parameter is set. *)
Definition no_values (SPAR_SET : Z) (pi pr : Compare.gmx_ana_selparam_t)
    : Prop :=
  (Compare.tst (Compare.pflags pi) SPAR_SET = true ∧ Compare.val_nr pi = 0) ∨
  (Compare.tst (Compare.pflags pi) SPAR_SET = false ∧
   Compare.tst (Compare.pflags pr) SPAR_SET = true ∧ Compare.val_nr pr = 0) ∨
  (Compare.tst (Compare.pflags pi) SPAR_SET = false ∧
   Compare.tst (Compare.pflags pr) SPAR_SET = false).

Section kinds.
Variables SPAR_SET SPAR_DYNAMIC SPAR_ATOMVAL : Z.

(** A parameter that is set, dynamic, with a value for each atom. *)
Definition per_atom_dynamic (p : Compare.gmx_ana_selparam_t) : Prop :=
  Compare.tst (Compare.pflags p) SPAR_SET = true ∧
  Compare.tst (Compare.pflags p) SPAR_DYNAMIC = true ∧
  Compare.tst (Compare.pflags p) SPAR_ATOMVAL = true ∧
  Compare.val_nr p ≠ 0.

(** A parameter that is set, static, with a single value. *)
Definition single_static (p : Compare.gmx_ana_selparam_t) : Prop :=
  Compare.tst (Compare.pflags p) SPAR_SET = true ∧
  Compare.tst (Compare.pflags p) SPAR_DYNAMIC = false ∧
  Compare.tst (Compare.pflags p) SPAR_ATOMVAL = false ∧
  Compare.val_nr p = 1.

End kinds.

(** The values of the right operand as [evaluate_compare_real] reads them:
    the real array, or the integer array converted value by value by the
    conversion of the build. *)
Definition right_reals (real_of_int : Z → Q)
    (d : Compare.t_methoddata_compare) : option (list Q) :=
  if Compare.tst (Compare.flags (Compare.right d)) Compare.CMP_REALVAL
  then Compare.r (Compare.right d)
  else map real_of_int <$> Compare.i (Compare.right d).

End CompareSel.

(** Parameters for the set-ups of the evaluation examples: five atoms. *)
Module CompareCases.
Import Compare CompareData.

(** A dynamic integer parameter with one value per atom. *)
Definition atom_ints : gmx_ana_selparam_t :=
  {| val_nr := 5; val_u_i := Some [1; 2; 3; 4; 5]; val_u_r := None;
     pflags := Z.lor SPAR_SET (Z.lor SPAR_DYNAMIC SPAR_ATOMVAL) |}.

(** A dynamic real parameter with one value per atom. *)
Definition atom_reals : gmx_ana_selparam_t :=
  {| val_nr := 5; val_u_i := None;
     val_u_r := Some [1 # 2; 3 # 2; 5 # 2; 7 # 2; 9 # 2];
     pflags := Z.lor SPAR_SET (Z.lor SPAR_DYNAMIC SPAR_ATOMVAL) |}.

(** A static integer parameter with the single value [b]. *)
Definition stat_int (b : Z) : gmx_ana_selparam_t :=
  {| val_nr := 1; val_u_i := Some [b]; val_u_r := None; pflags := SPAR_SET |}.

(** The index group of the five atoms. *)
Definition five_atoms : list Z := [10; 11; 12; 13; 14].

(** Method data with two integer operands: one value per atom on the left,
    the single value [b] on the right. *)
Definition ints_against (ct : e_comparison_t) (b : Z) : t_methoddata_compare :=
  {| cmpop := Some (comparison_type_str ct); cmpt := ct;
     left := {| flags := CMP_DYNAMICVAL; i := Some [1; 2; 3; 4; 5];
                r := None |};
     right := {| flags := CMP_SINGLEVAL; i := Some [b]; r := None |} |}.

(** Method data with a real value per atom on the left and the single real
    [b] on the right. *)
Definition reals_against (ct : e_comparison_t) (b : Q) : t_methoddata_compare :=
  {| cmpop := Some (comparison_type_str ct); cmpt := ct;
     left := {| flags := Z.lor CMP_DYNAMICVAL CMP_REALVAL; i := None;
                r := Some [1 # 2; 3 # 2; 5 # 2; 7 # 2; 9 # 2] |};
     right := {| flags := Z.lor CMP_SINGLEVAL CMP_REALVAL; i := None;
                 r := Some [b] |} |}.

(** One atom, whose real value is [2^24]. *)
Definition atom_real_big : gmx_ana_selparam_t :=
  {| val_nr := 1; val_u_i := None; val_u_r := Some [16777216 # 1];
     pflags := Z.lor SPAR_SET (Z.lor SPAR_DYNAMIC SPAR_ATOMVAL) |}.

(** One atom, whose integer value is [2^24 + 1]. *)
Definition atom_int_big : gmx_ana_selparam_t :=
  {| val_nr := 1; val_u_i := Some [16777217]; val_u_r := None;
     pflags := Z.lor SPAR_SET (Z.lor SPAR_DYNAMIC SPAR_ATOMVAL) |}.

(** Method data as [init_compare] leaves them for a dynamic real on the left
    and a dynamic integer on the right: the real value [2^24] against the
    integer [2^24 + 1]. *)
Definition real_against_int_big (ct : e_comparison_t)
    : t_methoddata_compare :=
  {| cmpop := Some (comparison_type_str ct); cmpt := ct;
     left := {| flags := Z.lor CMP_DYNAMICVAL CMP_REALVAL; i := None;
                r := Some [16777216 # 1] |};
     right := {| flags := CMP_DYNAMICVAL; i := Some [16777217];
                 r := None |} |}.

End CompareCases.

(** * Arrays: reads after writes *)

Lemma idx_Some {A : Type} (a : list A) (k : Z) (v : A) :
  idx a k = Some v ↔ (0 ≤ k)%Z ∧ a !! Z.to_nat k = Some v.
Proof.
  unfold idx. case_decide as Hk.
  - split; [intros Hv; by split | by intros [_ Hv]].
  - split; [discriminate | by intros [Hk' _]].
Qed.

Lemma upd_Some {A : Type} (a a' : list A) (k : Z) (g : A → A) :
  upd a k g = Some a' ↔
  ∃ v, idx a k = Some v ∧ a' = <[Z.to_nat k := g v]> a.
Proof.
  unfold upd. destruct (idx a k) as [v|]; simpl.
  - split; [intros [= <-]; eauto | intros (w & [= <-] & ->); reflexivity].
  - split; [discriminate | intros (w & ? & _); discriminate].
Qed.

Lemma idx_upd_eq {A : Type} (a a' : list A) (k : Z) (g : A → A) (v : A) :
  upd a k g = Some a' → idx a k = Some v → idx a' k = Some (g v).
Proof.
  intros (w & Hw & ->)%upd_Some Hv. rewrite Hw in Hv. injection Hv as ->.
  apply idx_Some in Hw as [Hk Hw]. apply idx_Some. split; [done|].
  apply list_lookup_insert_eq. by eapply lookup_lt_Some.
Qed.

Lemma idx_upd_ne {A : Type} (a a' : list A) (k n : Z) (g : A → A) :
  upd a k g = Some a' → n ≠ k → idx a' n = idx a n.
Proof.
  intros (w & Hw & ->)%upd_Some Hn. apply idx_Some in Hw as [Hk Hw].
  unfold idx. case_decide; [|done].
  apply list_lookup_insert_ne. lia.
Qed.

(** Three writes to three consecutive slots, as for the components of a
    force. *)
Lemma upd3_spec {A : Type} (a a0 a1 a2 : list A) (b : Z) (g0 g1 g2 : A → A) :
  upd a (b + 0) g0 = Some a0 →
  upd a0 (b + 1) g1 = Some a1 →
  upd a1 (b + 2) g2 = Some a2 →
  (∃ v0 v1 v2,
     idx a (b + 0) = Some v0 ∧ idx a (b + 1) = Some v1 ∧
     idx a (b + 2) = Some v2 ∧
     idx a2 (b + 0) = Some (g0 v0) ∧ idx a2 (b + 1) = Some (g1 v1) ∧
     idx a2 (b + 2) = Some (g2 v2)) ∧
  (∀ n, n ≠ (b + 0)%Z → n ≠ (b + 1)%Z → n ≠ (b + 2)%Z → idx a2 n = idx a n).
Proof.
  intros H0 H1 H2.
  destruct (proj1 (upd_Some _ _ _ _) H0) as (v0 & Hv0 & _).
  destruct (proj1 (upd_Some _ _ _ _) H1) as (v1 & Hv1 & _).
  destruct (proj1 (upd_Some _ _ _ _) H2) as (v2 & Hv2 & _).
  split.
  - exists v0, v1, v2.
    assert (E1 : idx a (b + 1) = Some v1).
    { rewrite <- Hv1. symmetry. eapply idx_upd_ne; [exact H0 | lia]. }
    assert (E2 : idx a (b + 2) = Some v2).
    { rewrite <- Hv2.
      rewrite (idx_upd_ne _ _ _ (b + 2) _ H1) by lia.
      symmetry. eapply idx_upd_ne; [exact H0 | lia]. }
    repeat split; try assumption.
    + rewrite (idx_upd_ne _ _ _ (b + 0) _ H2) by lia.
      rewrite (idx_upd_ne _ _ _ (b + 0) _ H1) by lia.
      by eapply idx_upd_eq.
    + rewrite (idx_upd_ne _ _ _ (b + 1) _ H2) by lia.
      by eapply idx_upd_eq.
    + by eapply idx_upd_eq.
  - intros n N0 N1 N2.
    rewrite (idx_upd_ne _ _ _ n _ H2) by done.
    rewrite (idx_upd_ne _ _ _ n _ H1) by done.
    by rewrite (idx_upd_ne _ _ _ n _ H0).
Qed.

(** * Properties of the kernel *)
Module KernelProps.
Import Kernel KernelData.

Section generic.
Context {real : Type} {RO : RealOps real}.
Implicit Types (cfg : config) (e : env real) (s : acc real) (g : geom real)
  (t : terms real).

Lemma body_of_continue cfg e cj egp_cj type_i_off i j s :
  pair_tests cfg e cj i j = Some Continue →
  pair_body cfg e cj egp_cj type_i_off i j s = Some s.
Proof. intros Hg. unfold pair_body. rewrite Hg. reflexivity. Qed.

Lemma body_of_go cfg e cj egp_cj type_i_off i j s g :
  pair_tests cfg e cj i j = Some (Go g) →
  pair_body cfg e cj egp_cj type_i_off i j s =
    t ← pair_terms cfg e type_i_off i g; pair_accum cfg e egp_cj i j g t s.
Proof. intros Hg. unfold pair_body. rewrite Hg. reflexivity. Qed.

(** ** C1 *)

(** C1, cut-off exactness: a candidate pair whose squared distance [rsq]
    satisfies [rsq >= rcut2] is skipped in every build of the kernel; the
    loop body returns the accumulators it was given (both force buffers, both
    energies and the pair counter), so the pair contributes exactly nothing. *)
Theorem cutoff_exact cfg e cj egp_cj type_i_off i j dx dy dz rsq s :
  is_Some (interact_of cfg e i j) →
  pair_dist cfg e cj i j = Some (dx, dy, dz, rsq) →
  rge rsq (rcut2 e) = true →
  pair_tests cfg e cj i j = Some Continue ∧
  pair_body cfg e cj egp_cj type_i_off i j s = Some s.
Proof.
  intros [ia Hia] Hd Hcut.
  assert (Hg : pair_tests cfg e cj i j = Some Continue).
  { unfold pair_tests. rewrite Hia. simpl.
    repeat (case_match; [reflexivity|]).
    rewrite Hd. simpl. rewrite Hcut. reflexivity. }
  split; [exact Hg | by apply body_of_continue].
Qed.

(** ** C3 *)


(** ** C4 *)

(** C4 (amended), the treatment of an excluded pair: in a build that checks
    exclusions, a pair whose mask bit is 0 is skipped before the distance is
    computed when the build computes no Coulomb interaction, and is evaluated
    with [interact = 0] when it does (provided it is off the diagonal, inside
    the cut-off and not at distance zero); [interact] then multiplies the
    direct terms of the reaction field force and energy.  [CALC_ENERGIES]
    plays no part in the choice. *)
Theorem excluded_pair_mode cfg e cj egp_cj type_i_off i j s :
  CHECK_EXCLS cfg = true →
  interact_bit cfg e i j = Some 0%Z →
  (CALC_COULOMB cfg = false →
   pair_tests cfg e cj i j = Some Continue ∧
   pair_body cfg e cj egp_cj type_i_off i j s = Some s) ∧
  (CALC_COULOMB cfg = true →
   ∀ dx dy dz rsq,
     pair_dist cfg e cj i j = Some (dx, dy, dz, rsq) →
     ¬ (cj = ci_sh e ∧ (j ≤ i)%Z) →
     rge rsq (rcut2 e) = false →
     rlt rsq r_1em12 = false →
     let g := {| interact := 0; aj := (cj * UNROLLJ cfg + j)%Z;
                 dx := dx; dy := dy; dz := dz; rsq := rsq |} in
     pair_tests cfg e cj i j = Some (Go g) ∧
     (CALC_COUL_RF cfg = true →
      ∀ qa qb rinv rinvsq,
        idx (qi e) i = Some qa → idx (q e) (aj g) = Some qb →
        coul_block cfg e i g rinv rinvsq =
          Some (qa * qb * (of_int 0 * rinv * rinvsq - k_rf2 e),
                if CALC_ENERGIES cfg
                then Some (qa * qb * (of_int 0 * rinv + k_rf e * rsq - c_rf e))
                else None)))%real.
Proof.
  intros Hc Hbit. split.
  - intros Hq.
    assert (Hg : pair_tests cfg e cj i j = Some Continue).
    { unfold pair_tests, interact_of, EXCL_FORCES. rewrite Hc, Hq, Hbit.
      reflexivity. }
    split; [exact Hg | by apply body_of_continue].
  - intros Hq dx dy dz rsq Hd Hdiag Hcut Hz g. split.
    + unfold pair_tests, interact_of, EXCL_FORCES. rewrite Hc, Hq, Hbit. simpl.
      destruct (Z.eqb_spec cj (ci_sh e)) as [Heq|Hne];
        destruct (Z.leb_spec j i) as [Hle|Hgt]; simpl;
        try (exfalso; apply Hdiag; split; [assumption | lia]);
        rewrite Hd; simpl; rewrite Hcut, Hz; reflexivity.
    + intros Hrf qa qb rinv rinvsq Ha Hb. subst g. simpl in Hb.
      unfold coul_block. simpl. rewrite Ha. simpl. rewrite Hb. simpl.
      rewrite Hrf. reflexivity.
Qed.

(** ** C5 *)

(** The guard against a pair at distance zero, over any arithmetic: with
    [EXCL_FORCES], a pair with [rsq < 1e-12] is skipped, and the pairs that
    reach [gmx_invsqrt] (those for which the tests return [Go]) have
    [rsq < 1e-12] false. *)
Lemma near_zero_skipped cfg e cj egp_cj type_i_off i j s :
  EXCL_FORCES cfg = true →
  (∀ dx dy dz rsq,
     is_Some (interact_of cfg e i j) →
     pair_dist cfg e cj i j = Some (dx, dy, dz, rsq) →
     rlt rsq r_1em12 = true →
     pair_tests cfg e cj i j = Some Continue ∧
     pair_body cfg e cj egp_cj type_i_off i j s = Some s) ∧
  (∀ g, pair_tests cfg e cj i j = Some (Go g) → rlt (rsq g) r_1em12 = false).
Proof.
  intros Hx. split.
  - intros dx dy dz rsq [ia Hia] Hd Hz.
    assert (Hg : pair_tests cfg e cj i j = Some Continue).
    { unfold pair_tests. rewrite Hia. simpl.
      repeat (case_match; [reflexivity|]).
      rewrite Hd. simpl. rewrite Hx, Hz. simpl.
      case_match; reflexivity. }
    split; [exact Hg | by apply body_of_continue].
  - intros g. unfold pair_tests.
    destruct (interact_of cfg e i j) as [ia|]; simpl; [|discriminate].
    repeat (case_match; [discriminate|]).
    destruct (pair_dist cfg e cj i j) as [[[[dx dy] dz] rsq]|]; simpl;
      [|discriminate].
    case_match; [discriminate|]. rewrite Hx. simpl.
    destruct (rlt rsq r_1em12) eqn:Hz; [discriminate|].
    intros [= <-]. exact Hz.
Qed.

(** C5, the guard against a pair at distance zero: in the builds that compute
    exclusion forces, a pair with [rsq < 1e-12] is skipped after the cut-off
    test and before [rinv = gmx_invsqrt(rsq)] (the loop body returns the
    accumulators unchanged), and for every pair that does reach
    [gmx_invsqrt], [rsq < 1e-12] is false: neither the inverse square root
    nor [rinvsix] is ever computed from the distance of a coincident pair. *)
Theorem near_zero_guard cfg e cj egp_cj type_i_off i j s :
  EXCL_FORCES cfg = true →
  (∀ dx dy dz rsq,
     is_Some (interact_of cfg e i j) →
     pair_dist cfg e cj i j = Some (dx, dy, dz, rsq) →
     rlt rsq r_1em12 = true →
     pair_tests cfg e cj i j = Some Continue ∧
     pair_body cfg e cj egp_cj type_i_off i j s = Some s) ∧
  (∀ g, pair_tests cfg e cj i j = Some (Go g) →
        rlt (rsq g) r_1em12 = false ∧
        ∀ t, pair_terms cfg e type_i_off i g = Some t →
             rinv t = gmx_invsqrt (rsq g)).
Proof.
  intros Hx. destruct (near_zero_skipped cfg e cj egp_cj type_i_off i j s Hx)
    as [Hskip Hgo].
  split; [exact Hskip|]. intros g Hg. split; [by apply Hgo|].
  intros t Ht. unfold pair_terms in Ht.
  destruct (lj_block _ _ _ _ _ _) as [[[l v6] v12]|]; simpl in Ht;
    [|discriminate].
  destruct (CALC_COULOMB cfg).
  - destruct (coul_block _ _ _ _ _ _) as [[fc vc]|]; simpl in Ht;
      [|discriminate]. by injection Ht as <-.
  - by injection Ht as <-.
Qed.


(** What the tests return is the distance that [pair_dist] computes and the
    value of [interact]. *)
Lemma tests_go_inv cfg e cj i j g :
  pair_tests cfg e cj i j = Some (Go g) →
  interact_of cfg e i j = Some (interact g) ∧
  aj g = (cj * UNROLLJ cfg + j)%Z ∧
  pair_dist cfg e cj i j = Some (dx g, dy g, dz g, rsq g) ∧
  rge (rsq g) (rcut2 e) = false.
Proof.
  unfold pair_tests.
  destruct (interact_of cfg e i j) as [ia|]; simpl; [|discriminate].
  repeat (case_match; [discriminate|]).
  destruct (pair_dist cfg e cj i j) as [[[[dx dy] dz] rsq]|]; simpl;
    [|discriminate].
  destruct (rge rsq (rcut2 e)) eqn:Hc; [discriminate|].
  case_match; [discriminate|].
  intros [= <-]. simpl. auto.
Qed.

(** [interact] is 0 or 1. *)
Lemma interact_of_01 cfg e i j ia :
  interact_of cfg e i j = Some ia → ia = 0%Z ∨ ia = 1%Z.
Proof.
  unfold interact_of, interact_bit. destruct (CHECK_EXCLS cfg).
  - destruct (idx (l_cj e) (cjind e)) as [cje|]; simpl; [|discriminate].
    case_decide; [|discriminate]. intros [= <-].
    change 1%Z with (Z.ones 1). rewrite Z.land_ones by lia.
    change (2 ^ 1)%Z with 2%Z.
    pose proof (Z.mod_pos_bound
                  (Z.shiftr (excl cje) (i * UNROLLI cfg + j)) 2 eq_refl).
    change (Z.ones 1) with 1%Z. lia.
  - intros [= <-]. by right.
Qed.


(** ** C2 *)

(** The force writes of an evaluated pair. *)
Lemma accum_forces cfg e egp_cj i j g t s s' :
  pair_accum cfg e egp_cj i j g t s = Some s' →
  ∃ fi0 fi1 f0 f1,
    upd (fi s) (i * 3 + 0) (λ o, o + fx t)%real = Some fi0 ∧
    upd fi0 (i * 3 + 1) (λ o, o + fy t)%real = Some fi1 ∧
    upd fi1 (i * 3 + 2) (λ o, o + fz t)%real = Some (fi s') ∧
    upd (f s) (aj g * 3 + 0) (λ o, o - fx t)%real = Some f0 ∧
    upd f0 (aj g * 3 + 1) (λ o, o - fy t)%real = Some f1 ∧
    upd f1 (aj g * 3 + 2) (λ o, o - fz t)%real = Some (f s').
Proof.
  unfold pair_accum. intros H.
  destruct (if lj t && CALC_ENERGIES cfg then _ else _) as [[V1 V1c]|];
    simpl in H; [|discriminate].
  destruct (match vcoul t with Some _ => _ | None => _ end) as [[V2 V2c]|];
    simpl in H; [|discriminate].
  destruct (upd (fi s) _ _) as [fi0|] eqn:I0; simpl in H; [|discriminate].
  destruct (upd fi0 _ _) as [fi1|] eqn:I1; simpl in H; [|discriminate].
  destruct (upd fi1 _ _) as [fi2|] eqn:I2; simpl in H; [|discriminate].
  destruct (upd (f s) _ _) as [f0|] eqn:J0; simpl in H; [|discriminate].
  destruct (upd f0 _ _) as [f1|] eqn:J1; simpl in H; [|discriminate].
  destruct (upd f1 _ _) as [f2|] eqn:J2; simpl in H; [|discriminate].
  injection H as <-. simpl. exists fi0, fi1, f0, f1. done.
Qed.

(** C2, Newton's third law: for a pair that the kernel evaluates, the three
    components [(fx, fy, fz)] that are added to the slots of particle [i] in
    the i-cluster accumulator [fi] are the very values that are subtracted
    from the slots of particle [aj] in the force buffer [f], and no other slot
    of either buffer changes: the change of [f] is the exact opposite of the
    change of [fi]. *)
Theorem newton_third_law cfg e cj egp_cj type_i_off i j s s' g t :
  pair_tests cfg e cj i j = Some (Go g) →
  pair_terms cfg e type_i_off i g = Some t →
  pair_body cfg e cj egp_cj type_i_off i j s = Some s' →
  (∃ a0 a1 a2 b0 b1 b2,
     (idx (fi s) (i * 3 + 0) = Some a0 ∧ idx (fi s) (i * 3 + 1) = Some a1 ∧
      idx (fi s) (i * 3 + 2) = Some a2) ∧
     (idx (f s) (aj g * 3 + 0) = Some b0 ∧ idx (f s) (aj g * 3 + 1) = Some b1 ∧
      idx (f s) (aj g * 3 + 2) = Some b2) ∧
     (idx (fi s') (i * 3 + 0) = Some (a0 + fx t) ∧
      idx (fi s') (i * 3 + 1) = Some (a1 + fy t) ∧
      idx (fi s') (i * 3 + 2) = Some (a2 + fz t)) ∧
     (idx (f s') (aj g * 3 + 0) = Some (b0 - fx t) ∧
      idx (f s') (aj g * 3 + 1) = Some (b1 - fy t) ∧
      idx (f s') (aj g * 3 + 2) = Some (b2 - fz t)))%real ∧
  (∀ n, n ≠ (i * 3 + 0)%Z → n ≠ (i * 3 + 1)%Z → n ≠ (i * 3 + 2)%Z →
        idx (fi s') n = idx (fi s) n) ∧
  (∀ n, n ≠ (aj g * 3 + 0)%Z → n ≠ (aj g * 3 + 1)%Z → n ≠ (aj g * 3 + 2)%Z →
        idx (f s') n = idx (f s) n).
Proof.
  intros Hg Ht Hb. rewrite (body_of_go _ _ _ _ _ _ _ _ _ Hg), Ht in Hb.
  simpl in Hb. apply accum_forces in Hb
    as (fi0 & fi1 & f0 & f1 & I0 & I1 & I2 & J0 & J1 & J2).
  destruct (upd3_spec _ _ _ _ _ _ _ _ I0 I1 I2)
    as [(a0 & a1 & a2 & A0 & A1 & A2 & A0' & A1' & A2') Hfi].
  destruct (upd3_spec _ _ _ _ _ _ _ _ J0 J1 J2)
    as [(b0 & b1 & b2 & B0 & B1 & B2 & B0' & B1' & B2') Hf].
  split; [|split; assumption].
  exists a0, a1, a2, b0, b1, b2. repeat split; assumption.
Qed.

(** ** C8 *)

(** The energy accumulators of an evaluated pair whose Van der Waals block
    did not run. *)
Lemma accum_no_lj cfg e egp_cj i j g t s s' :
  lj t = false →
  pair_accum cfg e egp_cj i j g t s = Some s' →
  Vvdw s' = Vvdw s ∧ Vvdw_ci s' = Vvdw_ci s.
Proof.
  unfold pair_accum. intros -> H. simpl in H.
  destruct (match vcoul t with Some _ => _ | None => _ end) as [[V2 V2c]|];
    simpl in H; [|discriminate].
  repeat (match type of H with
          | context [upd ?a ?k ?g] =>
              destruct (upd a k g); simpl in H; [|discriminate]
          end).
  injection H as <-. simpl. done.
Qed.

(** C8, the half-LJ invariant: in a [HALF_LJ] build the Van der Waals block
    runs exactly for [i < UNROLLI/2].  For an i-particle of the second half,
    [Vvdw6] and [Vvdw12] keep their initial value 0, the force is the Coulomb
    scalar times the distance vector (in a build without Coulomb the force is
    made of the two zero terms only), and the Van der Waals energy
    accumulators are left as they were. *)
Theorem half_lj_invariant cfg e egp_cj type_i_off i j g t s :
  HALF_LJ cfg = true →
  pair_terms cfg e type_i_off i g = Some t →
  lj t = (i <? Z.quot (UNROLLI cfg) 2)%Z ∧
  ((Z.quot (UNROLLI cfg) 2 ≤ i)%Z →
   Vvdw6 t = of_int 0 ∧ Vvdw12 t = of_int 0 ∧
   (CALC_COULOMB cfg = true →
    ∃ fc, fcoul t = Some fc ∧
          fx t = fc * dx g ∧ fy t = fc * dy g ∧ fz t = fc * dz g) ∧
   (CALC_COULOMB cfg = false →
    fcoul t = None ∧
    fx t = (of_int 0 - of_int 0) * rinvsq t * dx g ∧
    fy t = (of_int 0 - of_int 0) * rinvsq t * dy g ∧
    fz t = (of_int 0 - of_int 0) * rinvsq t * dz g) ∧
   (∀ s', pair_accum cfg e egp_cj i j g t s = Some s' →
          Vvdw s' = Vvdw s ∧ Vvdw_ci s' = Vvdw_ci s))%real.
Proof.
  intros Hh Ht. unfold pair_terms, lj_block in Ht. rewrite Hh in Ht.
  simpl in Ht. destruct (Z.ltb_spec i (Z.quot (UNROLLI cfg) 2)) as [Hlt|Hge].
  - split; [|lia]. simpl in Ht.
    repeat (match type of Ht with
            | context [idx ?a ?k] =>
                destruct (idx a k); simpl in Ht; [|discriminate]
            end).
    destruct (CALC_COULOMB cfg).
    + destruct (coul_block _ _ _ _ _ _) as [[fc vc]|]; simpl in Ht;
        [|discriminate]. by injection Ht as <-.
    + by injection Ht as <-.
  - simpl in Ht. split; [by destruct (CALC_COULOMB cfg);
      repeat (match type of Ht with
              | context [coul_block ?a ?b ?c ?d ?x ?y] =>
                  destruct (coul_block a b c d x y) as [[fc vc]|];
                  simpl in Ht; [|discriminate]
              end); injection Ht as <-|].
    intros _. destruct (CALC_COULOMB cfg) eqn:Hq.
    + destruct (coul_block _ _ _ _ _ _) as [[fc vc]|]; simpl in Ht;
        [|discriminate]. injection Ht as <-. simpl.
      split; [done|]. split; [done|]. split; [|split; [done|]].
      * intros _. by exists fc.
      * intros s' Hs'. by eapply accum_no_lj in Hs'.
    + injection Ht as <-. simpl.
      split; [done|]. split; [done|]. split; [done|]. split; [done|].
      intros s' Hs'. by eapply accum_no_lj in Hs'.
Qed.

Lemma dist_rsq cfg e cj i j dx dy dz rsq :
  pair_dist cfg e cj i j = Some (dx, dy, dz, rsq) →
  rsq = (dx * dx + dy * dy + dz * dz)%real.
Proof.
  unfold pair_dist. intros H.
  repeat (match type of H with
          | context [idx ?a ?k] =>
              destruct (idx a k); simpl in H; [|discriminate]
          end).
  by injection H as <- <- <- <-.
Qed.

End generic.

(** ** Exact arithmetic *)
Section exact.
#[local] Open Scope R_scope.
Implicit Types (cfg : config) (e : env R) (g : geom R).

Lemma rlt_R_false (a b : R) : rlt a b = false → b <= a.
Proof. simpl. destruct (Rlt_dec a b); [discriminate | intros _; lra]. Qed.

(** X25, [rinvsix] cannot overflow: with the guard against a pair at distance
    zero, in exact arithmetic [rinvsix] is at most [10^36], which a single
    precision number can hold. *)
Lemma rinvsix_bounded cfg e cj i j g :
  EXCL_FORCES cfg = true →
  pair_tests cfg e cj i j = Some (Go g) →
  let rinvsq := gmx_invsqrt (rsq g) * gmx_invsqrt (rsq g) in
  0 <= IZR (interact g) * rinvsq * rinvsq * rinvsq <= 10 ^ 36 ∧
  10 ^ 36 < FLT_MAX.
Proof.
  intros Hx Hg rinvsq. subst rinvsq.
  change (gmx_invsqrt (rsq g)) with (/ R_sqrt.sqrt (rsq g)).
  pose proof (proj2 (near_zero_skipped cfg e cj 0 0 i j
                       {| fi := []; f := []; Vvdw_ci := 0; Vc_ci := 0;
                          Vvdw := []; Vc := []; npair := 0 |} Hx) g Hg) as Hz.
  apply rlt_R_false in Hz. change r_1em12 with (/ 10 ^ 12) in Hz.
  assert (HT : 0 < 10 ^ 12) by (apply pow_lt; lra).
  set (T := 10 ^ 12) in *.
  assert (H12 : 0 < / T) by (by apply Rinv_0_lt_compat).
  assert (Hpos : 0 < rsq g) by lra.
  assert (Hu : / R_sqrt.sqrt (rsq g) * / R_sqrt.sqrt (rsq g) = / rsq g).
  { rewrite <- Rinv_mult, sqrt_sqrt by lra. reflexivity. }
  rewrite Hu. set (u := / rsq g).
  assert (Hu0 : 0 < u) by (by apply Rinv_0_lt_compat).
  assert (Hu1 : u <= T).
  { unfold u. rewrite <- (Rinv_inv T). by apply Rinv_le_contravar. }
  assert (HT3 : T * T * T = 10 ^ 36) by (unfold T; ring).
  split.
  - destruct (tests_go_inv cfg e cj i j g Hg) as (Hia & _).
    rewrite <- HT3.
    destruct (interact_of_01 cfg e i j _ Hia) as [-> | ->].
    + rewrite !Rmult_0_l. split; [lra|].
      apply Rmult_le_pos; [apply Rmult_le_pos|]; lra.
    + rewrite Rmult_1_l.
      assert (0 <= u * u) by (apply Rmult_le_pos; lra).
      assert (u * u <= T * T) by (apply Rmult_le_compat; lra).
      split; [apply Rmult_le_pos; lra | apply Rmult_le_compat; lra].
  - unfold FLT_MAX.
    replace ((2 - / 2 ^ 23) * 2 ^ 127) with (2 ^ 128 - 2 ^ 104) by field.
    rewrite !pow_IZR, <- minus_IZR. apply IZR_lt. reflexivity.
Qed.

(** X26, the energies of an excluded pair that is evaluated with
    [interact = 0] (reaction field, energies, no energy groups): in exact
    arithmetic the pair adds [qq*(k_rf*rsq - c_rf)] to the Coulomb energy and
    nothing to the Van der Waals energy.  A build that skips the pair adds
    nothing to either. *)
Lemma excluded_pair_energy cfg e cj egp_cj type_i_off i j g qa qb s s' :
  CHECK_EXCLS cfg = true →
  CALC_COULOMB cfg = true →
  CALC_COUL_RF cfg = true →
  CALC_ENERGIES cfg = true →
  ENERGY_GROUPS cfg = false →
  interact_bit cfg e i j = Some 0%Z →
  pair_tests cfg e cj i j = Some (Go g) →
  idx (qi e) i = Some qa →
  idx (q e) (aj g) = Some qb →
  pair_body cfg e cj egp_cj type_i_off i j s = Some s' →
  Vc_ci s' = Vc_ci s + qa * qb * (k_rf e * rsq g - c_rf e) ∧
  Vvdw_ci s' = Vvdw_ci s.
Proof.
  intros Hc Hq Hrf Hen Heg Hbit Hg Ha Hb Hbody.
  destruct (tests_go_inv cfg e cj i j g Hg) as (Hia & _).
  unfold interact_of in Hia. rewrite Hc, Hbit in Hia. injection Hia as Hia.
  rewrite (body_of_go _ _ _ _ _ _ _ _ _ Hg) in Hbody.
  unfold pair_terms, lj_block, coul_block in Hbody.
  rewrite Hq, Hrf, Hen, Ha, Hb, <- Hia in Hbody. simpl in Hbody.
  destruct (HALF_LJ cfg && negb (i <? Z.quot (UNROLLI cfg) 2)%Z);
    simpl in Hbody.
  - unfold pair_accum, add_energy in Hbody. rewrite Heg in Hbody.
    simpl in Hbody.
    repeat (match type of Hbody with
            | context [upd ?a ?k ?h] =>
                destruct (upd a k h); simpl in Hbody; [|discriminate]
            end).
    injection Hbody as <-. simpl. split; [ring | reflexivity].
  - repeat (match type of Hbody with
            | context [idx ?a ?k] =>
                destruct (idx a k); simpl in Hbody; [|discriminate]
            end).
    unfold pair_accum, add_energy in Hbody. rewrite Hen, Heg in Hbody.
    simpl in Hbody.
    repeat (match type of Hbody with
            | context [upd ?a ?k ?h] =>
                destruct (upd a k h); simpl in Hbody; [|discriminate]
            end).
    injection Hbody as <-. simpl. split; [ring | unfold Rdiv; ring].
Qed.

(** ** C6 *)

(** C6 (amended), one pair under reaction field: without exclusions
    ([interact] is 1) and without Van der Waals parameters, the Coulomb force
    scalar is [fcoul = qq*(rinv*rinvsq - k_rf2)], the force vector of the pair
    is [fcoul] times the distance vector, and in exact arithmetic its
    magnitude is [|fcoul|] times the distance [sqrt rsq] (that is, divided
    by [rinv], not multiplied by it). *)
Theorem rf_single_pair_force cfg e cj type_i_off i j g qa qb tj :
  CHECK_EXCLS cfg = false →
  CALC_COULOMB cfg = true →
  CALC_COUL_RF cfg = true →
  HALF_LJ cfg = false →
  pair_tests cfg e cj i j = Some (Go g) →
  idx (qi e) i = Some qa →
  idx (q e) (aj g) = Some qb →
  idx (type e) (aj g) = Some tj →
  idx (nbfp e) (type_i_off + tj * 2) = Some 0 →
  idx (nbfp e) (type_i_off + tj * 2 + 1) = Some 0 →
  let rinv := / R_sqrt.sqrt (rsq g) in
  let rinvsq := rinv * rinv in
  let fc := qa * qb * (rinv * rinvsq - k_rf2 e) in
  ∃ t, pair_terms cfg e type_i_off i g = Some t ∧
       fcoul t = Some (qa * qb * (1 * rinv * rinvsq - k_rf2 e)) ∧
       fx t = fc * dx g ∧ fy t = fc * dy g ∧ fz t = fc * dz g ∧
       R_sqrt.sqrt (fx t * fx t + fy t * fy t + fz t * fz t) =
         Rabs fc * R_sqrt.sqrt (rsq g).
Proof.
  intros Hce Hq Hrf Hh Hg Ha Hb Htj H6 H12 rinv rinvsq fc.
  destruct (tests_go_inv cfg e cj i j g Hg) as (Hia & _ & Hd & _).
  unfold interact_of in Hia. rewrite Hce in Hia. injection Hia as Hia.
  apply dist_rsq in Hd. simpl in Hd.
  unfold pair_terms, lj_block, coul_block.
  rewrite Hh, Hq, Hrf, Ha, Hb, Htj. simpl. rewrite H6. simpl. rewrite H12.
  simpl. rewrite <- Hia. fold rinv. fold rinvsq.
  eexists. split; [reflexivity|]. simpl.
  assert (Hfc : (0 * (1 * rinvsq * rinvsq * rinvsq)
                   * (1 * rinvsq * rinvsq * rinvsq)
                 - 0 * (1 * rinvsq * rinvsq * rinvsq)) * rinvsq
                + qa * qb * (1 * rinv * rinvsq - k_rf2 e) = fc)
    by (unfold fc; ring).
  rewrite Hfc. repeat split; try reflexivity.
  replace (fc * dx g * (fc * dx g) + fc * dy g * (fc * dy g)
           + fc * dz g * (fc * dz g)) with (Rsqr fc * rsq g)
    by (rewrite Hd; unfold Rsqr; ring).
  rewrite sqrt_mult_alt by apply Rle_0_sqr.
  by rewrite sqrt_Rsqr_abs.
Qed.

End exact.

Lemma rf_single_pair_force_witness :
  ∃ t, pair_terms cfg_rf env_two_R 0 0 g_two_R = Some t ∧
       fcoul t = Some (1 * -1 * (1 * / R_sqrt.sqrt (rsq g_two_R)
                         * (/ R_sqrt.sqrt (rsq g_two_R)
                            * / R_sqrt.sqrt (rsq g_two_R)) - / 64))%R ∧
       R_sqrt.sqrt (fx t * fx t + fy t * fy t + fz t * fz t)%R =
         (Rabs (1 * -1 * (/ R_sqrt.sqrt (rsq g_two_R)
                          * (/ R_sqrt.sqrt (rsq g_two_R)
                             * / R_sqrt.sqrt (rsq g_two_R)) - / 64))
          * R_sqrt.sqrt (rsq g_two_R))%R.
Proof.
  assert (Hg : pair_tests cfg_rf env_two_R 1 0 0 = Some (Go g_two_R)).
  { unfold pair_tests. simpl.
    destruct (Rle_dec _ _) as [H|H]; [exfalso; lra | reflexivity]. }
  destruct (rf_single_pair_force cfg_rf env_two_R 1 0 0 0 g_two_R
              1%R (-1)%R 0%Z eq_refl eq_refl eq_refl eq_refl Hg
              eq_refl eq_refl eq_refl eq_refl eq_refl)
    as (t & Ht & Hfc & _ & _ & _ & Hn).
  exists t. split; [exact Ht|]. split; [exact Hfc | exact Hn].
Defined.

Lemma cutoff_exact_witness :
  pair_tests cfg_rf env_two 1 1 0 = Some Continue ∧
  pair_body cfg_rf env_two 1 0 0 1 0 (acc_zero 8) = Some (acc_zero 8).
Proof.
  apply (cutoff_exact cfg_rf env_two 1 0 0 1 0 48 0 0 2304 (acc_zero 8))%float.
  - eexists. reflexivity.
  - reflexivity.
  - reflexivity.
Defined.

Lemma newton_third_law_witness :
  (∃ a0 a1 a2 b0 b1 b2 : float,
     (idx (fi (acc_zero 8)) (0 * 3 + 0) = Some a0 ∧
      idx (fi (acc_zero 8)) (0 * 3 + 1) = Some a1 ∧
      idx (fi (acc_zero 8)) (0 * 3 + 2) = Some a2) ∧
     (idx (f (acc_zero 8)) (aj g_two * 3 + 0) = Some b0 ∧
      idx (f (acc_zero 8)) (aj g_two * 3 + 1) = Some b1 ∧
      idx (f (acc_zero 8)) (aj g_two * 3 + 2) = Some b2) ∧
     (idx (fi acc_two) (0 * 3 + 0) = Some (a0 + fx t_two) ∧
      idx (fi acc_two) (0 * 3 + 1) = Some (a1 + fy t_two) ∧
      idx (fi acc_two) (0 * 3 + 2) = Some (a2 + fz t_two)) ∧
     (idx (f acc_two) (aj g_two * 3 + 0) = Some (b0 - fx t_two) ∧
      idx (f acc_two) (aj g_two * 3 + 1) = Some (b1 - fy t_two) ∧
      idx (f acc_two) (aj g_two * 3 + 2) = Some (b2 - fz t_two)))%real ∧
  (∀ n, n ≠ (0 * 3 + 0)%Z → n ≠ (0 * 3 + 1)%Z → n ≠ (0 * 3 + 2)%Z →
        idx (fi acc_two) n = idx (fi (acc_zero 8)) n) ∧
  (∀ n, n ≠ (aj g_two * 3 + 0)%Z → n ≠ (aj g_two * 3 + 1)%Z →
        n ≠ (aj g_two * 3 + 2)%Z →
        idx (f acc_two) n = idx (f (acc_zero 8)) n).
Proof.
  apply (newton_third_law cfg_rf env_two 1 0 0 0 0 (acc_zero 8) acc_two
           g_two t_two); reflexivity.
Defined.



(** C4, counterexample.  First a build without [CALC_ENERGIES] (forces
    only, reaction field): the pair whose mask bit is 0 is not skipped but
    evaluated with [interact = 0], and both force buffers change.  Then a
    build with [CALC_ENERGIES] (Van der Waals only): the pair whose mask bit
    is 0 is skipped. *)
Lemma excluded_pair_not_skipped_without_energies :
  (CALC_ENERGIES cfg_excl_rf = false ∧
   interact_bit cfg_excl_rf env_excl 0 0 = Some 0%Z ∧
   pair_tests cfg_excl_rf env_excl 1 0 0 =
     Some (Go {| interact := 0; aj := 4;
                 dx := (-2)%float; dy := 0%float; dz := 0%float;
                 rsq := 4%float |}) ∧
   pair_body cfg_excl_rf env_excl 1 0 0 0 0 (acc_zero 8) =
     Some {| fi := [-0.03125; 0; 0;  0; 0; 0;  0; 0; 0;  0; 0; 0]%float;
             f := [0; 0; 0;  0; 0; 0;  0; 0; 0;  0; 0; 0;
                   0.03125; 0; 0;  0; 0; 0;  0; 0; 0;  0; 0; 0]%float;
             Vvdw_ci := 0%float; Vc_ci := 0%float;
             Vvdw := []; Vc := []; npair := 0 |}) ∧
  (CALC_ENERGIES cfg_excl_lj = true ∧
   interact_bit cfg_excl_lj env_excl 0 0 = Some 0%Z ∧
   pair_tests cfg_excl_lj env_excl 1 0 0 = Some Continue).
Proof. repeat split; reflexivity. Qed.

Lemma excluded_pair_mode_witness :
  (pair_tests cfg_excl_lj env_excl 1 0 0 = Some Continue ∧
   pair_body cfg_excl_lj env_excl 1 0 0 0 0 (acc_zero 8) = Some (acc_zero 8)) ∧
  pair_tests cfg_excl_rf env_excl 1 0 0 =
    Some (Go {| interact := 0; aj := 4;
                dx := (-2)%float; dy := 0%float; dz := 0%float;
                rsq := 4%float |}).
Proof.
  split.
  - apply (proj1 (excluded_pair_mode cfg_excl_lj env_excl 1 0 0 0 0
                    (acc_zero 8) eq_refl eq_refl)). reflexivity.
  - apply (proj2 (excluded_pair_mode cfg_excl_rf env_excl 1 0 0 0 0
                    (acc_zero 8) eq_refl eq_refl) eq_refl
             (-2)%float 0%float 0%float 4%float).
    + reflexivity.
    + intros [H _]. discriminate H.
    + reflexivity.
    + reflexivity.
Defined.

Lemma near_zero_guard_witness :
  pair_dist cfg_excl_rf env_self 0 2 3 =
    Some (0%float, 0%float, 0%float, 0%float) ∧
  pair_tests cfg_excl_rf env_self 0 2 3 = Some Continue ∧
  pair_body cfg_excl_rf env_self 0 0 0 2 3 (acc_zero 4) = Some (acc_zero 4).
Proof.
  split; [reflexivity|].
  apply (proj1 (near_zero_guard cfg_excl_rf env_self 0 0 0 2 3 (acc_zero 4)
                  eq_refl) 0%float 0%float 0%float 0%float).
  - eexists. reflexivity.
  - reflexivity.
  - reflexivity.
Defined.

Lemma half_lj_invariant_witness :
  let g := {| interact := 1; aj := 1; dx := 1%float; dy := 0%float;
              dz := 0%float; rsq := 1%float |} in
  let t := {| rinv := 1%float; rinvsq := 1%float; lj := false;
              Vvdw6 := 0%float; Vvdw12 := 0%float;
              fcoul := Some (-0.4921875)%float;
              vcoul := Some (-0.30078125)%float;
              fx := (-0.4921875)%float; fy := (-0)%float;
              fz := (-0)%float |} in
  pair_tests cfg_half env_self 0 2 1 = Some (Go g) ∧
  pair_terms cfg_half env_self 0 2 g = Some t ∧
  Vvdw6 t = 0%float ∧ Vvdw12 t = 0%float ∧
  ∃ fc, fcoul t = Some fc ∧
        fx t = (fc * dx g)%float ∧ fy t = (fc * dy g)%float ∧
        fz t = (fc * dz g)%float.
Proof.
  intros g t.
  assert (Ht : pair_terms cfg_half env_self 0 2 g = Some t) by reflexivity.
  split; [reflexivity|]. split; [exact Ht|].
  destruct (half_lj_invariant cfg_half env_self 0 0 2 1 g t (acc_zero 4)
              eq_refl Ht) as [_ H].
  destruct H as (H6 & H12 & Hc & _); [compute; discriminate|].
  split; [exact H6|]. split; [exact H12|]. exact (Hc eq_refl).
Defined.

(** C6, counterexample: the system of two particles of [env_two] (charges 1
    and -1 at distance 2, no exclusion, no Van der Waals parameters, cut-off
    3), reaction field.  The kernel adds the force (0.21875, 0, 0) to
    particle 0 and subtracts it from particle 4, so the magnitude of the
    force on each is 0.21875, while the specification's
    [qq*(rinv*rinvsq - k_rf2)*rinv] is -0.0546875 (0.0546875 in absolute
    value). *)
Lemma rf_force_differs_from_spec_formula :
  pair_tests cfg_rf env_two 1 0 0 = Some (Go g_two) ∧
  pair_terms cfg_rf env_two 0 0 g_two = Some t_two ∧
  inner cfg_rf env_two (acc_zero 8) = Some acc_two ∧
  force_norm t_two = 0.21875%float ∧
  spec_rf_force_magnitude (1 * -1)%float (rinv t_two) (rinvsq t_two)
    (k_rf2 env_two) = (-0.0546875)%float ∧
  PrimFloat.eqb (force_norm t_two)
    (spec_rf_force_magnitude (1 * -1)%float (rinv t_two) (rinvsq t_two)
       (k_rf2 env_two)) = false ∧
  PrimFloat.eqb (force_norm t_two)
    (PrimFloat.abs
       (spec_rf_force_magnitude (1 * -1)%float (rinv t_two) (rinvsq t_two)
          (k_rf2 env_two))) = false.
Proof. repeat split; reflexivity. Qed.

End KernelProps.

(** * Properties of the comparison method *)
Module CompareProps.
Import Compare CompareData.

(** ** Floor and ceiling against integers *)

Lemma floor_spec (a : Q) (z : Z) : (z ≤ Qfloor a)%Z ↔ (inject_Z z <= a)%Q.
Proof.
  split.
  - intros H. apply Qle_trans with (inject_Z (Qfloor a)).
    + by rewrite <- Zle_Qle.
    + apply Qfloor_le.
  - intros H.
    assert (Hlt : (inject_Z z < inject_Z (Qfloor a + 1))%Q)
      by (eapply Qle_lt_trans; [exact H | apply Qlt_floor]).
    rewrite <- Zlt_Qlt in Hlt. lia.
Qed.

Lemma ceiling_spec (a : Q) (z : Z) : (Qceiling a ≤ z)%Z ↔ (a <= inject_Z z)%Q.
Proof.
  split.
  - intros H. apply Qle_trans with (inject_Z (Qceiling a)).
    + apply Qle_ceiling.
    + by rewrite <- Zle_Qle.
  - intros H.
    assert (Hlt : (inject_Z (Qceiling a - 1) < inject_Z z)%Q)
      by (eapply Qlt_le_trans; [apply Qceiling_lt | exact H]).
    rewrite <- Zlt_Qlt in Hlt. lia.
Qed.

Lemma Qle_bool_floor (a : Q) (z : Z) :
  Qle_bool (inject_Z z) a = (z <=? Qfloor a)%Z.
Proof.
  apply eq_true_iff_eq. rewrite Qle_bool_iff, Z.leb_le. symmetry.
  apply floor_spec.
Qed.

Lemma Qle_bool_ceiling (a : Q) (z : Z) :
  Qle_bool a (inject_Z z) = (Qceiling a <=? z)%Z.
Proof.
  apply eq_true_iff_eq. rewrite Qle_bool_iff, Z.leb_le. symmetry.
  apply ceiling_spec.
Qed.

(** ** The conversion of a static real operand *)

Lemma cast_int_inject (z : Z) :
  cast_int (inject_Z z) = if int_range z then Ok z else Undefined.
Proof.
  unfold cast_int. rewrite Qfloor_Z, Qceiling_Z.
  by destruct (Qle_bool 0 (inject_Z z)).
Qed.

Lemma rd_nat {A : Type} (l : list A) (k : nat) (v : A) :
  l !! k = Some v → rd (Some l) (Z.of_nat k) = Ok v.
Proof.
  intros H. unfold rd, idx. rewrite decide_True by lia.
  by rewrite Nat2Z.id, H.
Qed.

Lemma round_value_order (ct : e_comparison_t) (vals : list Q) (k : nat)
    (a : Q) :
  is_order ct = true →
  vals !! k = Some a →
  round_value (Some vals) (Z.of_nat k) ct =
    if int_range (rounded ct a) then Ok (rounded ct a) else Undefined.
Proof.
  intros Ho Hk. unfold round_value.
  destruct ct; try discriminate; rewrite (rd_nat _ _ _ Hk); simpl;
    unfold ceil, floor; by rewrite cast_int_inject.
Qed.

Lemma round_value_no_throw (ct : e_comparison_t) (vr : option (list Q))
    (k : Z) (e : exn) :
  is_order ct = true → round_value vr k ct ≠ Throw e.
Proof.
  intros Ho. unfold round_value, rd, cast_int.
  destruct ct; try discriminate; destruct vr as [l|]; simpl;
    try discriminate; destruct (idx l k); simpl; try discriminate;
    by repeat case_match.
Qed.

Lemma convert_loop_no_throw (ct : e_comparison_t) (vr : option (list Q))
    (e : exn) (fuel : nat) :
  is_order ct = true →
  ∀ k iv, convert_real_int_loop fuel k vr ct iv ≠ Throw e.
Proof.
  intros Ho. induction fuel as [|fuel IH]; intros k iv; simpl; [done|].
  pose proof (round_value_no_throw ct vr k e Ho) as Hr.
  destruct (round_value vr k ct) as [v|e'|]; simpl.
  - apply IH.
  - intros [= ->]. by apply Hr.
  - discriminate.
Qed.

(** The loop over values that all round into the range of [int]. *)
Lemma convert_loop_order (ct : e_comparison_t) (vals : list Q) :
  is_order ct = true →
  ∀ (fuel k : nat) (iv : list Z),
    (k + fuel ≤ length vals)%nat →
    Forall (λ a, int_range (rounded ct a) = true) (take fuel (drop k vals)) →
    convert_real_int_loop fuel (Z.of_nat k) (Some vals) ct iv =
      Ok (iv ++ map (rounded ct) (take fuel (drop k vals))).
Proof.
  intros Ho. induction fuel as [|fuel IH]; intros k iv Hlen Hall.
  - simpl. by rewrite app_nil_r.
  - destruct (lookup_lt_is_Some_2 vals k) as [a Ha]; [lia|].
    rewrite (drop_S _ _ _ Ha) in Hall |- *. simpl in Hall |- *.
    apply Forall_cons in Hall as [Hr Hall].
    rewrite (round_value_order ct vals k a Ho Ha), Hr. simpl.
    replace (Z.of_nat k + 1)%Z with (Z.of_nat (S k)) by lia.
    rewrite IH by (done || lia). by rewrite <- app_assoc.
Qed.

Section method.
Variables SPAR_SET SPAR_DYNAMIC SPAR_ATOMVAL : Z.
Variable gmx_within_tol : Q → Q → bool.
Variable real_of_int : Z → Q.

(** The rounding chosen for a real on the right keeps the decision of each
    order operator, against every integer on the left. *)
Lemma rounded_right (ct : e_comparison_t) (a : Z) (b : Q) :
  is_order ct = true →
  accept_int ct a (rounded ct b) = accept_real gmx_within_tol ct (inject_Z a) b.
Proof.
  destruct ct; try discriminate; intros _; simpl.
  - rewrite Qle_bool_ceiling. lia.
  - rewrite Qle_bool_floor. reflexivity.
  - rewrite Qle_bool_floor. lia.
  - rewrite Qle_bool_ceiling. lia.
Qed.

(** The same for a real on the left: the rounding is the one of the reversed
    operator, the comparison is the original one. *)
Lemma rounded_left (ct : e_comparison_t) (a : Q) (b : Z) :
  is_order ct = true →
  accept_int ct (rounded (reverse_comparison_type ct) a) b =
  accept_real gmx_within_tol ct a (inject_Z b).
Proof.
  destruct ct; try discriminate; intros _; simpl.
  - rewrite Qle_bool_floor. lia.
  - rewrite Qle_bool_ceiling. reflexivity.
  - rewrite Qle_bool_ceiling. lia.
  - rewrite Qle_bool_floor. lia.
Qed.

(** ** C9 *)

Lemma order_reverse (ct : e_comparison_t) :
  is_order ct = true → is_order (reverse_comparison_type ct) = true.
Proof. by destruct ct. Qed.

Lemma convert_real_int_outcome (n : Z) (val : t_compare_value)
    (ct : e_comparison_t) (bRight : bool) :
  (0 < n)%Z →
  match ct with
  | CMP_EQUAL | CMP_NEQ =>
      convert_real_int n val ct bRight =
        Throw (NotImplementedError msg_not_implemented)
  | CMP_INVALID =>
      convert_real_int n val ct bRight =
        Throw (InternalError "Invalid comparison type")
  | _ => ∀ e, convert_real_int n val ct bRight ≠ Throw e
  end.
Proof.
  intros Hn. unfold convert_real_int.
  destruct (Z.to_nat n) as [|fuel] eqn:Hf; [lia|].
  set (ct' := if bRight then ct else reverse_comparison_type ct).
  destruct (is_order ct) eqn:Ho.
  - assert (Ho' : is_order ct' = true)
      by (subst ct'; destruct bRight; [done | by apply order_reverse]).
    assert (Hno : ∀ e,
      (iv ← convert_real_int_loop (S fuel) 0 (r val) ct' [];
       Ok {| flags := Z.lor (Z.land (flags val) (Z.lnot CMP_REALVAL))
                        CMP_ALLOCINT;
             i := Some iv; r := r val |}) ≠ Throw e).
    { intros e.
      pose proof (convert_loop_no_throw ct' (r val) e (S fuel) Ho' 0 [])
        as Hl.
      destruct (convert_real_int_loop (S fuel) 0 (r val) ct' []);
        [discriminate | intros [= ->]; done | discriminate]. }
    destruct ct; try discriminate; exact Hno.
  - assert (Hct : ct' = ct) by (subst ct'; by destruct ct, bRight).
    rewrite Hct. by destruct ct.
Qed.

(** C9, the comparison method fails fast: when one operand is a dynamic
    integer and the other a static real, [init_compare] throws
    [NotImplementedError], with a message that names the unsupported case,
    for the operators [==] and [!=]; it throws no exception for the four
    order operators.  ([init_compare] is the set-up function of the method:
    the evaluation functions run only after it has returned.) *)
Theorem equality_dynint_statreal_not_implemented
    (int1 real1 op int2 real2 : gmx_ana_selparam_t)
    (d : t_methoddata_compare) (s : string) :
  cmpop d = Some s →
  (dynamic_int_operand SPAR_SET SPAR_DYNAMIC int1 real1 ∧
   static_real_operand SPAR_SET SPAR_DYNAMIC int2 real2) ∨
  (static_real_operand SPAR_SET SPAR_DYNAMIC int1 real1 ∧
   dynamic_int_operand SPAR_SET SPAR_DYNAMIC int2 real2) →
  let res := init_compare SPAR_SET SPAR_DYNAMIC SPAR_ATOMVAL real_of_int
               [int1; real1; op; int2; real2] d in
  match comparison_type s with
  | CMP_EQUAL | CMP_NEQ =>
      res = Throw (NotImplementedError msg_not_implemented)
  | CMP_INVALID => res = Throw (InternalError "Invalid comparison type")
  | _ => ∀ e, res ≠ Throw e
  end.
Proof.
  intros Hop Hkind res. subst res. unfold init_compare, init_comparison_value.
  change (rd (Some [int1; real1; op; int2; real2]) 0) with (Ok int1).
  change (rd (Some [int1; real1; op; int2; real2]) (0 + 1)) with (Ok real1).
  change (rd (Some [int1; real1; op; int2; real2]) 3) with (Ok int2).
  change (rd (Some [int1; real1; op; int2; real2]) (3 + 1)) with (Ok real2).
  rewrite Hop. simpl.
  destruct Hkind as [[(Hs1 & Hd1 & Hn1) (Hs2 & Hs2' & Hd2 & Hn2)]
                    |[(Hs1 & Hs1' & Hd1 & Hn1) (Hs2 & Hd2 & Hn2)]].
  - rewrite Hs1, Hd1, Hs2, Hs2', Hd2. simpl.
    destruct (Z.eqb_spec (val_nr int1) 0) as [|_]; [done|].
    destruct (Z.eqb_spec (val_nr real2) 0) as [|_]; [lia|]. simpl.
    pose proof (convert_real_int_outcome (val_nr real2)
      {| flags := Z.lor (Z.lor (Z.lor 0 0)
                    (if negb (tst (pflags real2) SPAR_ATOMVAL)
                     then CMP_SINGLEVAL else 0)) CMP_REALVAL;
         i := i (right d); r := val_u_r real2 |}
      (comparison_type s) true Hn2) as Hc.
    destruct (tst (pflags int1) SPAR_ATOMVAL),
             (tst (pflags real2) SPAR_ATOMVAL); simpl in *;
      destruct (comparison_type s); try reflexivity; simpl;
      try (rewrite Hc; reflexivity);
      intros e; specialize (Hc e);
      destruct (convert_real_int _ _ _ _); simpl; congruence.
  - rewrite Hs1, Hs1', Hd1, Hs2, Hd2. simpl.
    destruct (Z.eqb_spec (val_nr real1) 0) as [|_]; [lia|].
    destruct (Z.eqb_spec (val_nr int2) 0) as [|_]; [done|]. simpl.
    pose proof (convert_real_int_outcome (val_nr real1)
      {| flags := Z.lor (Z.lor (Z.lor 0 0)
                    (if negb (tst (pflags real1) SPAR_ATOMVAL)
                     then CMP_SINGLEVAL else 0)) CMP_REALVAL;
         i := i (left d); r := val_u_r real1 |}
      (comparison_type s) false Hn1) as Hc.
    destruct (tst (pflags real1) SPAR_ATOMVAL),
             (tst (pflags int2) SPAR_ATOMVAL); simpl in *;
      destruct (comparison_type s); try reflexivity; simpl;
      try (rewrite Hc; reflexivity);
      intros e; specialize (Hc e);
      destruct (convert_real_int _ _ _ _); simpl; congruence.
Qed.

(** The conversion of values that round into the range of [int]. *)
Lemma convert_real_int_ok (ct : e_comparison_t) (bRight : bool) (n : Z)
    (val : t_compare_value) (vals : list Q) :
  is_order ct = true →
  r val = Some vals →
  (0 ≤ n ≤ Z.of_nat (length vals))%Z →
  let ct' := if bRight then ct else reverse_comparison_type ct in
  Forall (λ b, int_range (rounded ct' b) = true) (take (Z.to_nat n) vals) →
  convert_real_int n val ct bRight =
    Ok {| flags := Z.lor (Z.land (flags val) (Z.lnot CMP_REALVAL))
                     CMP_ALLOCINT;
          i := Some (map (rounded ct') (take (Z.to_nat n) vals));
          r := r val |}.
Proof.
  intros Ho Hr Hn ct' Hall.
  assert (Ho' : is_order ct' = true)
    by (subst ct'; destruct bRight; [done | by apply order_reverse]).
  unfold convert_real_int. fold ct'. rewrite Hr.
  change 0%Z with (Z.of_nat 0).
  rewrite (convert_loop_order ct' vals Ho' (Z.to_nat n) 0 [])
    by (rewrite ?drop_0; done || lia).
  by rewrite drop_0.
Qed.

(** With an order operator, a dynamic integer on the left and a static real
    on the right whose values round into the range of [int], [init_compare]
    returns: the real operand is replaced by its rounded values and both
    operands are integers, so that [evaluate_compare] runs the integer
    loop. *)
Lemma init_compare_order_right
    (int1 real1 op int2 real2 : gmx_ana_selparam_t)
    (d : t_methoddata_compare) (s : string) (vals : list Q) :
  cmpop d = Some s →
  is_order (comparison_type s) = true →
  dynamic_int_operand SPAR_SET SPAR_DYNAMIC int1 real1 →
  static_real_operand SPAR_SET SPAR_DYNAMIC int2 real2 →
  val_u_r real2 = Some vals →
  (val_nr real2 ≤ Z.of_nat (length vals))%Z →
  Forall (λ b, int_range (rounded (comparison_type s) b) = true)
    (take (Z.to_nat (val_nr real2)) vals) →
  ∃ l r',
    init_compare SPAR_SET SPAR_DYNAMIC SPAR_ATOMVAL real_of_int
      [int1; real1; op; int2; real2] d =
      Ok {| cmpop := cmpop d; cmpt := comparison_type s;
            left := l; right := r' |} ∧
    i l = val_u_i int1 ∧
    i r' = Some (map (rounded (comparison_type s))
                   (take (Z.to_nat (val_nr real2)) vals)) ∧
    tst (Z.lor (flags l) (flags r')) CMP_REALVAL = false.
Proof.
  intros Hop Ho (Hs1 & Hd1 & Hn1) (Hs2 & Hs2' & Hd2 & Hn2) Hv Hlen Hall.
  unfold init_compare, init_comparison_value.
  change (rd (Some [int1; real1; op; int2; real2]) 0) with (Ok int1).
  change (rd (Some [int1; real1; op; int2; real2]) 3) with (Ok int2).
  change (rd (Some [int1; real1; op; int2; real2]) (3 + 1)) with (Ok real2).
  rewrite Hop. simpl. rewrite Hs1, Hd1, Hs2, Hs2', Hd2. simpl.
  destruct (Z.eqb_spec (val_nr int1) 0) as [|_]; [done|].
  destruct (Z.eqb_spec (val_nr real2) 0) as [|_]; [lia|]. simpl.
  pose proof (convert_real_int_ok (comparison_type s) true (val_nr real2)
    {| flags := Z.lor (Z.lor (Z.lor 0 0)
                  (if negb (tst (pflags real2) SPAR_ATOMVAL)
                   then CMP_SINGLEVAL else 0)) CMP_REALVAL;
       i := i (right d); r := val_u_r real2 |} vals Ho Hv
    ltac:(lia) Hall) as Hc.
  destruct (tst (pflags int1) SPAR_ATOMVAL),
           (tst (pflags real2) SPAR_ATOMVAL); simpl in *;
    destruct (comparison_type s); try discriminate; simpl;
    rewrite Hc; simpl; eexists _, _; (split; [reflexivity|]); simpl; done.
Qed.

(** The same with the static real on the left: its values are rounded for
    the reversed operator. *)
Lemma init_compare_order_left
    (int1 real1 op int2 real2 : gmx_ana_selparam_t)
    (d : t_methoddata_compare) (s : string) (vals : list Q) :
  cmpop d = Some s →
  is_order (comparison_type s) = true →
  static_real_operand SPAR_SET SPAR_DYNAMIC int1 real1 →
  dynamic_int_operand SPAR_SET SPAR_DYNAMIC int2 real2 →
  val_u_r real1 = Some vals →
  (val_nr real1 ≤ Z.of_nat (length vals))%Z →
  Forall (λ b, int_range
                 (rounded (reverse_comparison_type (comparison_type s)) b)
               = true)
    (take (Z.to_nat (val_nr real1)) vals) →
  ∃ l' r,
    init_compare SPAR_SET SPAR_DYNAMIC SPAR_ATOMVAL real_of_int
      [int1; real1; op; int2; real2] d =
      Ok {| cmpop := cmpop d; cmpt := comparison_type s;
            left := l'; right := r |} ∧
    i l' = Some (map (rounded (reverse_comparison_type (comparison_type s)))
                   (take (Z.to_nat (val_nr real1)) vals)) ∧
    i r = val_u_i int2 ∧
    tst (Z.lor (flags l') (flags r)) CMP_REALVAL = false.
Proof.
  intros Hop Ho (Hs1 & Hs1' & Hd1 & Hn1) (Hs2 & Hd2 & Hn2) Hv Hlen Hall.
  unfold init_compare, init_comparison_value.
  change (rd (Some [int1; real1; op; int2; real2]) 0) with (Ok int1).
  change (rd (Some [int1; real1; op; int2; real2]) (0 + 1)) with (Ok real1).
  change (rd (Some [int1; real1; op; int2; real2]) 3) with (Ok int2).
  rewrite Hop. simpl. rewrite Hs1, Hs1', Hd1, Hs2, Hd2. simpl.
  destruct (Z.eqb_spec (val_nr real1) 0) as [|_]; [lia|].
  destruct (Z.eqb_spec (val_nr int2) 0) as [|_]; [done|]. simpl.
  pose proof (convert_real_int_ok (comparison_type s) false (val_nr real1)
    {| flags := Z.lor (Z.lor (Z.lor 0 0)
                  (if negb (tst (pflags real1) SPAR_ATOMVAL)
                   then CMP_SINGLEVAL else 0)) CMP_REALVAL;
       i := i (left d); r := val_u_r real1 |} vals Ho Hv
    ltac:(lia) Hall) as Hc.
  destruct (tst (pflags real1) SPAR_ATOMVAL),
           (tst (pflags int2) SPAR_ATOMVAL); simpl in *;
    destruct (comparison_type s); try discriminate; simpl;
    rewrite Hc; simpl; eexists _, _; (split; [reflexivity|]); simpl; done.
Qed.

(** ** C10 *)

(** The rounding of [convert_real_int] keeps the comparison as long as the
    cast to [int] is defined:
    for an order operator and [n] static real values whose rounded values
    (ceiling for [<] and [>=], floor for [>] and [<=], the operator being
    reversed first when the real is the left operand) are in the range of
    [int], the conversion returns these rounded values, and for every integer
    [a] the integer comparison of [a] with a rounded value decides as the
    comparison of [a] with the real value does, on either side. *)
Theorem convert_real_int_keeps_order (ct : e_comparison_t) (bRight : bool)
    (n : Z) (val : t_compare_value) (vals : list Q) :
  is_order ct = true →
  r val = Some vals →
  (0 ≤ n ≤ Z.of_nat (length vals))%Z →
  let ct' := if bRight then ct else reverse_comparison_type ct in
  Forall (λ b, int_range (rounded ct' b) = true) (take (Z.to_nat n) vals) →
  ∃ ivs,
    convert_real_int n val ct bRight =
      Ok {| flags := Z.lor (Z.land (flags val) (Z.lnot CMP_REALVAL))
                       CMP_ALLOCINT;
            i := Some ivs; r := r val |} ∧
    ivs = map (rounded ct') (take (Z.to_nat n) vals) ∧
    ∀ (k : nat) (b : Q) (z a : Z),
      vals !! k = Some b → ivs !! k = Some z →
      if bRight
      then accept_int ct a z = accept_real gmx_within_tol ct (inject_Z a) b
      else accept_int ct z a = accept_real gmx_within_tol ct b (inject_Z a).
Proof.
  intros Ho Hr Hn ct' Hall.
  exists (map (rounded ct') (take (Z.to_nat n) vals)).
  split; [|split; [reflexivity|]].
  - by apply convert_real_int_ok.
  - intros k b z a Hk Hz.
    apply list_lookup_fmap_Some_1 in Hz as (b' & -> & Hb').
    apply lookup_take_Some in Hb' as [Hb' _].
    rewrite Hk in Hb'. injection Hb' as <-.
    subst ct'. destruct bRight.
    + by apply rounded_right.
    + by apply rounded_left.
Qed.

End method.
Lemma equality_dynint_statreal_witness :
  init_compare SPAR_SET SPAR_DYNAMIC SPAR_ATOMVAL single_of_int
    [dyn_int; unset; op_param; unset; stat_real (5 # 2)] (data_for "==") =
    Throw (NotImplementedError msg_not_implemented) ∧
  init_compare SPAR_SET SPAR_DYNAMIC SPAR_ATOMVAL single_of_int
    [unset; stat_real (5 # 2); op_param; dyn_int; unset] (data_for "!=") =
    Throw (NotImplementedError msg_not_implemented) ∧
  ∀ e, init_compare SPAR_SET SPAR_DYNAMIC SPAR_ATOMVAL single_of_int
         [dyn_int; unset; op_param; unset; stat_real (5 # 2)] (data_for "<=")
       ≠ Throw e.
Proof.
  split; [|split].
  - apply (equality_dynint_statreal_not_implemented
             SPAR_SET SPAR_DYNAMIC SPAR_ATOMVAL single_of_int
             dyn_int unset op_param unset (stat_real (5 # 2))
             (data_for "==") "==" eq_refl).
    left. repeat split; try reflexivity. discriminate.
  - apply (equality_dynint_statreal_not_implemented
             SPAR_SET SPAR_DYNAMIC SPAR_ATOMVAL single_of_int
             unset (stat_real (5 # 2)) op_param dyn_int unset
             (data_for "!=") "!=" eq_refl).
    right. repeat split; try reflexivity. discriminate.
  - apply (equality_dynint_statreal_not_implemented
             SPAR_SET SPAR_DYNAMIC SPAR_ATOMVAL single_of_int
             dyn_int unset op_param unset (stat_real (5 # 2))
             (data_for "<=") "<=" eq_refl).
    left. repeat split; try reflexivity. discriminate.
Defined.

(** C10, the failing input: a dynamic integer against the static real
    3000000000 on the right of [<].  The ceiling of the real is not an [int],
    the cast [(int)ceil(...)] of [convert_real_int] has no defined value, and
    [init_compare] stores no rounded integer at all, while the comparison
    [a < 3000000000] holds for the integers 1, 2 and 3 (and for every
    [int]).  The other path decides the same comparison: with the real
    dynamic as well, no value is rounded, [evaluate_compare] compares on
    reals and selects the three atoms. *)
Lemma convert_real_int_out_of_int_range :
  let val := {| flags := Z.lor CMP_SINGLEVAL CMP_REALVAL; i := None;
                r := Some [3000000000 # 1] |} in
  int_range (rounded CMP_LESS (3000000000 # 1)) = false ∧
  convert_real_int 1 val CMP_LESS true = Undefined ∧
  (¬ ∃ v', convert_real_int 1 val CMP_LESS true = Ok v') ∧
  accept_real exact_tol CMP_LESS (inject_Z 0) (3000000000 # 1) = true ∧
  init_compare SPAR_SET SPAR_DYNAMIC SPAR_ATOMVAL single_of_int
    [dyn_int; unset; op_param; unset; stat_real (3000000000 # 1)]
    (data_for "<") = Undefined ∧
  init_compare SPAR_SET SPAR_DYNAMIC SPAR_ATOMVAL double_of_int
    [dyn_int; unset; op_param; unset; stat_real (3000000000 # 1)]
    (data_for "<") = Undefined ∧
  ∃ d',
    init_compare SPAR_SET SPAR_DYNAMIC SPAR_ATOMVAL single_of_int
      [dyn_int; unset; op_param; unset; dyn_real_big] (data_for "<")
      = Ok d' ∧
    evaluate_compare exact_tol single_of_int [7; 8; 9] d' = Ok [7; 8; 9].
Proof.
  repeat split; try reflexivity.
  - intros [v' Hv']. discriminate Hv'.
  - eexists. split; reflexivity.
Qed.

Lemma convert_real_int_keeps_order_witness :
  ∃ ivs,
    convert_real_int 1
      {| flags := Z.lor CMP_SINGLEVAL CMP_REALVAL; i := None;
         r := Some [5 # 2] |} CMP_LESS true =
      Ok {| flags := Z.lor (Z.land (Z.lor CMP_SINGLEVAL CMP_REALVAL)
                              (Z.lnot CMP_REALVAL)) CMP_ALLOCINT;
            i := Some ivs; r := Some [5 # 2] |} ∧
    ivs = [3%Z] ∧
    accept_int CMP_LESS 2 3 = accept_real exact_tol CMP_LESS (inject_Z 2) (5 # 2).
Proof.
  destruct (convert_real_int_keeps_order exact_tol CMP_LESS true 1
              {| flags := Z.lor CMP_SINGLEVAL CMP_REALVAL; i := None;
                 r := Some [5 # 2] |} [5 # 2] eq_refl eq_refl)
    as (ivs & Hc & Hi & Ha).
  - simpl. lia.
  - repeat constructor.
  - exists ivs. split; [exact Hc|]. split; [exact Hi|].
    apply (Ha 0%nat (5 # 2) 3%Z 2%Z eq_refl). by rewrite Hi.
Defined.

End CompareProps.

(** * More about the comparison method *)
Module CompareMore.
Import Compare CompareData CompareSel CompareCases CompareProps.

(** ** The operator *)

(** X1, the two operator tables are inverse to each other: the string that
    [comparison_type_str] gives for an operator is read back as that operator
    by [comparison_type] (and the string of [CMP_INVALID] is not an
    operator). *)
Theorem comparison_type_of_str (ct : e_comparison_t) :
  comparison_type (comparison_type_str ct) = ct.
Proof. by destruct ct. Qed.

Lemma comparison_type_cases (s : string) :
  match comparison_type s with
  | CMP_LESS => ∃ rest, s = String "<" rest ∧ String.get 0 rest ≠ Some "="%char
  | CMP_LEQ => ∃ rest, s = String "<" (String "=" rest)
  | CMP_GTR => ∃ rest, s = String ">" rest ∧ String.get 0 rest ≠ Some "="%char
  | CMP_GEQ => ∃ rest, s = String ">" (String "=" rest)
  | CMP_EQUAL => ∃ rest, s = String "=" (String "=" rest)
  | CMP_NEQ => ∃ rest, s = String "!" (String "=" rest)
  | CMP_INVALID => True
  end.
Proof.
  destruct s as [|a rest]; [exact I|].
  assert (Hone : ∀ c : ascii,
    (match String.get 1 (String a rest) with
     | Some c' => Ascii.eqb c' c
     | None => false
     end) = match String.get 0 rest with
            | Some c' => Ascii.eqb c' c
            | None => false
            end) by (by destruct rest).
  unfold comparison_type. rewrite Hone.
  change (String.get 0 (String a rest)) with (Some a).
  destruct rest as [|b rest']; simpl.
  - destruct a as [[] [] [] [] [] [] [] []]; simpl; try exact I;
      (eexists; split; [reflexivity | discriminate]).
  - destruct (Ascii.eqb_spec b "=") as [-> | Hb];
      destruct a as [[] [] [] [] [] [] [] []]; simpl; try exact I;
      try (eexists; reflexivity);
      (eexists; split; [reflexivity | by intros [= ->]]).
Qed.

(** X2, the operators that [comparison_type] recognises: the result is
    other than [CMP_INVALID] exactly for the strings that begin with [<],
    [>], [==] or [!=]; in particular the empty string, [=] and [!] alone, and
    [=<] are invalid. *)
Theorem comparison_type_valid_iff (s : string) :
  comparison_type s ≠ CMP_INVALID ↔
  ∃ rest, s = String "<" rest ∨ s = String ">" rest ∨
          s = String "=" (String "=" rest) ∨ s = String "!" (String "=" rest).
Proof.
  split.
  - intros Hv. pose proof (comparison_type_cases s) as Hc.
    destruct (comparison_type s); [done|..].
    + destruct Hc as (rest & -> & _). eauto.
    + destruct Hc as (rest & ->). eauto.
    + destruct Hc as (rest & -> & _). eauto.
    + destruct Hc as (rest & ->). eauto.
    + destruct Hc as (rest & ->). eauto.
    + destruct Hc as (rest & ->). eauto.
  - intros (rest & [-> | [-> | [-> | ->]]]); unfold comparison_type; simpl;
      try discriminate;
      destruct rest as [|b rest']; simpl; try discriminate;
      by destruct (Ascii.eqb b "=").
Qed.

(** In single precision an [int] below [2^24] in absolute value is
    converted exactly. *)
Lemma single_of_int_small (z : Z) :
  Z.abs z < 2 ^ 24 → single_of_int z = inject_Z z.
Proof.
  intros Hz. unfold single_of_int.
  destruct (Z.leb_spec (Z.log2 (Z.abs z) - 23) 0) as [|He]; [done|].
  exfalso. destruct (Z.eq_dec (Z.abs z) 0) as [E|Hn].
  - rewrite E in He. simpl in He. lia.
  - assert (Z.log2 (Z.abs z) < 24) by (apply Z.log2_lt_pow2; lia). lia.
Qed.

Lemma Qeq_bool_sym (a b : Q) : Qeq_bool a b = Qeq_bool b a.
Proof.
  apply eq_true_iff_eq. rewrite !Qeq_bool_iff. split; apply Qeq_sym.
Qed.

Section method.
Variables SPAR_SET SPAR_DYNAMIC SPAR_ATOMVAL : Z.
Variable gmx_within_tol : Q → Q → bool.
Variable real_of_int : Z → Q.

(** X3, reversing an operator interchanges the sides: with a symmetric
    tolerant equality, the reversed operator accepts [(b, a)] exactly when
    the operator accepts [(a, b)], on integers and on reals; reversing twice
    gives the operator back. *)
Theorem reverse_comparison_type_swaps (ct : e_comparison_t) :
  (∀ p q, gmx_within_tol p q = gmx_within_tol q p) →
  reverse_comparison_type (reverse_comparison_type ct) = ct ∧
  (∀ a b : Z,
     accept_int (reverse_comparison_type ct) b a = accept_int ct a b) ∧
  (∀ a b : Q,
     accept_real gmx_within_tol (reverse_comparison_type ct) b a =
     accept_real gmx_within_tol ct a b).
Proof.
  intros Hsym. split; [by destruct ct|]. split.
  - intros a b. destruct ct; simpl; try reflexivity.
    + by rewrite Z.gtb_ltb.
    + by rewrite Z.geb_leb.
    + by rewrite Z.gtb_ltb.
    + by rewrite Z.geb_leb.
    + apply Z.eqb_sym.
    + by rewrite Z.eqb_sym.
  - intros a b. destruct ct; simpl; try reflexivity.
    + apply Hsym.
    + by rewrite Hsym.
Qed.

(** ** Errors of [init_compare] *)

Lemma init_comparison_value_count (val : t_compare_value)
    (p0 p1 : gmx_ana_selparam_t) (before after : list gmx_ana_selparam_t) :
  no_values SPAR_SET p0 p1 →
  ∃ v, init_comparison_value SPAR_SET SPAR_DYNAMIC SPAR_ATOMVAL val
         (before ++ p0 :: p1 :: after) (Z.of_nat (length before)) = Ok (0, v).
Proof.
  intros Hno. unfold init_comparison_value.
  rewrite (rd_nat (before ++ p0 :: p1 :: after) (length before) p0)
    by (by rewrite lookup_app_r, Nat.sub_diag by lia).
  assert (H1 : rd (Some (before ++ p0 :: p1 :: after))
                 (Z.of_nat (length before) + 1) = Ok p1).
  { replace (Z.of_nat (length before) + 1)
      with (Z.of_nat (S (length before))) by lia.
    apply rd_nat. rewrite lookup_app_r by lia.
    by replace (S (length before) - length before)%nat with 1%nat by lia. }
  cbn -[rd].
  destruct Hno as [[H0 Hn] | [(H0 & H2 & Hn) | [H0 H2]]]; rewrite H0;
    cbn -[rd]; rewrite ?H1; cbn -[rd]; rewrite ?H2; cbn -[rd]; rewrite ?Hn;
    eexists; reflexivity.
Qed.

Lemma init_comparison_value_defined (val : t_compare_value)
    (p0 p1 p2 p3 p4 : gmx_ana_selparam_t) (k : Z) :
  k = 0 ∨ k = 3 →
  ∃ n v, init_comparison_value SPAR_SET SPAR_DYNAMIC SPAR_ATOMVAL val
           [p0; p1; p2; p3; p4] k = Ok (n, v).
Proof.
  intros [-> | ->]; unfold init_comparison_value.
  - change (rd (Some [p0; p1; p2; p3; p4]) 0) with (Ok p0).
    change (rd (Some [p0; p1; p2; p3; p4]) (0 + 1)) with (Ok p1).
    cbn [mbind result_bind]. repeat case_match; eauto.
  - change (rd (Some [p0; p1; p2; p3; p4]) 3) with (Ok p3).
    change (rd (Some [p0; p1; p2; p3; p4]) (3 + 1)) with (Ok p4).
    cbn [mbind result_bind]. repeat case_match; eauto.
Qed.

(** X4, a comparison with a missing operand: when one of the two operands
    has no value (its parameter has a value count of 0, or neither its
    integer nor its real parameter is set), [init_compare] throws
    [InternalError], whatever the operator and the other operand are. *)
Theorem init_compare_missing_value
    (int1 real1 op int2 real2 : gmx_ana_selparam_t)
    (d : t_methoddata_compare) :
  no_values SPAR_SET int1 real1 ∨ no_values SPAR_SET int2 real2 →
  init_compare SPAR_SET SPAR_DYNAMIC SPAR_ATOMVAL real_of_int
    [int1; real1; op; int2; real2] d =
    Throw (InternalError "One of the values for comparison missing").
Proof.
  intros Hno. unfold init_compare.
  destruct (init_comparison_value_defined (left d) int1 real1 op int2 real2 0)
    as (n1 & l & Hl); [by left|].
  destruct (init_comparison_value_defined (right d) int1 real1 op int2 real2 3)
    as (n2 & r & Hr); [by right|].
  rewrite Hl, Hr. cbn [mbind result_bind].
  destruct Hno as [Hno | Hno].
  - destruct (init_comparison_value_count (left d) int1 real1 []
                [op; int2; real2] Hno) as [v Hv].
    change (Z.of_nat (length [])) with 0 in Hv.
    change ([] ++ [int1; real1; op; int2; real2])
      with [int1; real1; op; int2; real2] in Hv.
    rewrite Hv in Hl. by injection Hl as <- <-.
  - destruct (init_comparison_value_count (right d) int2 real2
                [int1; real1; op] [] Hno) as [v Hv].
    change (Z.of_nat (length [int1; real1; op])) with 3 in Hv.
    change ([int1; real1; op] ++ [int2; real2])
      with [int1; real1; op; int2; real2] in Hv.
    rewrite Hv in Hr. injection Hr as <- <-. by rewrite orb_true_r.
Qed.

Lemma count_zero_no_values (val : t_compare_value)
    (p0 p1 p2 p3 p4 : gmx_ana_selparam_t) (v : t_compare_value) :
  (init_comparison_value SPAR_SET SPAR_DYNAMIC SPAR_ATOMVAL val
     [p0; p1; p2; p3; p4] 0 = Ok (0, v) → no_values SPAR_SET p0 p1) ∧
  (init_comparison_value SPAR_SET SPAR_DYNAMIC SPAR_ATOMVAL val
     [p0; p1; p2; p3; p4] 3 = Ok (0, v) → no_values SPAR_SET p3 p4).
Proof.
  unfold init_comparison_value, no_values. split.
  - change (rd (Some [p0; p1; p2; p3; p4]) 0) with (Ok p0).
    change (rd (Some [p0; p1; p2; p3; p4]) (0 + 1)) with (Ok p1).
    cbn [mbind result_bind].
    destruct (tst (pflags p0) SPAR_SET); [intros [= -> _]; by left|].
    destruct (tst (pflags p1) SPAR_SET); [intros [= -> _]|]; eauto.
  - change (rd (Some [p0; p1; p2; p3; p4]) 3) with (Ok p3).
    change (rd (Some [p0; p1; p2; p3; p4]) (3 + 1)) with (Ok p4).
    cbn [mbind result_bind].
    destruct (tst (pflags p3) SPAR_SET); [intros [= -> _]; by left|].
    destruct (tst (pflags p4) SPAR_SET); [intros [= -> _]|]; eauto.
Qed.

(** X5, an operator that is not one: when both operands have values and the
    operator string is not recognised by [comparison_type], [init_compare]
    throws [InternalError]. *)
Theorem init_compare_invalid_operator
    (int1 real1 op int2 real2 : gmx_ana_selparam_t)
    (d : t_methoddata_compare) (s : string) :
  ¬ no_values SPAR_SET int1 real1 →
  ¬ no_values SPAR_SET int2 real2 →
  cmpop d = Some s →
  comparison_type s = CMP_INVALID →
  init_compare SPAR_SET SPAR_DYNAMIC SPAR_ATOMVAL real_of_int
    [int1; real1; op; int2; real2] d =
    Throw (InternalError "Invalid comparison type").
Proof.
  intros H1 H2 Hop Hct. unfold init_compare.
  destruct (init_comparison_value_defined (left d) int1 real1 op int2 real2 0)
    as (n1 & l & Hl); [by left|].
  destruct (init_comparison_value_defined (right d) int1 real1 op int2 real2 3)
    as (n2 & r & Hr); [by right|].
  rewrite Hl, Hr. cbn [mbind result_bind].
  destruct (Z.eqb_spec n1 0) as [-> | _].
  { exfalso. apply H1.
    by apply (proj1 (count_zero_no_values _ _ _ _ _ _ _) Hl). }
  destruct (Z.eqb_spec n2 0) as [-> | _].
  { exfalso. apply H2.
    by apply (proj2 (count_zero_no_values _ _ _ _ _ _ _) Hr). }
  rewrite Hop. cbn [mbind result_bind orb]. by rewrite Hct.
Qed.

(** ** What [init_compare] leaves behind *)





(** ** The evaluation loops *)

Lemma operand_values_lookup {A : Type} (single : bool) (l la : list A)
    (n : nat) :
  operand_values single l n = Some la →
  length la = n ∧
  ∀ m a, la !! m = Some a → l !! (if single then 0 else m)%nat = Some a.
Proof.
  unfold operand_values. destruct single.
  - destruct l as [|a0 l']; simpl; [discriminate|]. intros [= <-].
    split; [apply length_replicate|].
    intros m a [-> _]%lookup_replicate. reflexivity.
  - case_decide; [|discriminate]. intros [= <-].
    split; [rewrite length_take; lia|].
    by intros m a [Hm _]%lookup_take_Some.
Qed.

Lemma int_loop_select (d : t_methoddata_compare) (ls rs : list Z) :
  i (left d) = Some ls →
  i (right d) = Some rs →
  ∀ (g : list Z) (k : nat) (la ra : list Z) (out : list Z),
    length la = length g →
    length ra = length g →
    (∀ m a, la !! m = Some a →
       ls !! (if tst (flags (left d)) CMP_SINGLEVAL then 0 else k + m)%nat
       = Some a) →
    (∀ m b, ra !! m = Some b →
       rs !! (if tst (flags (right d)) CMP_SINGLEVAL then 0 else k + m)%nat
       = Some b) →
    evaluate_compare_int_loop g
      (Z.of_nat (if tst (flags (left d)) CMP_SINGLEVAL then 0 else k))
      (Z.of_nat (if tst (flags (right d)) CMP_SINGLEVAL then 0 else k))
      d out =
      Ok (out ++ select (accept_int (cmpt d)) g la ra).
Proof.
  intros Hl Hr. induction g as [|gi g IH]; intros k la ra out Hla Hra Ha Hb.
  - simpl. by rewrite app_nil_r.
  - destruct la as [|a la]; [discriminate|].
    destruct ra as [|b ra]; [discriminate|].
    simpl in Hla, Hra. cbn [evaluate_compare_int_loop select].
    rewrite Hl, Hr.
    pose proof (Ha 0%nat a eq_refl) as Ha0.
    pose proof (Hb 0%nat b eq_refl) as Hb0.
    rewrite Nat.add_0_r in Ha0, Hb0.
    rewrite (rd_nat _ _ _ Ha0), (rd_nat _ _ _ Hb0). cbn [mbind result_bind].
    replace (if tst (flags (left d)) CMP_SINGLEVAL
             then Z.of_nat (if tst (flags (left d)) CMP_SINGLEVAL
                            then 0 else k)
             else Z.of_nat (if tst (flags (left d)) CMP_SINGLEVAL
                            then 0 else k) + 1)
      with (Z.of_nat (if tst (flags (left d)) CMP_SINGLEVAL then 0 else S k))
      by (destruct (tst (flags (left d)) CMP_SINGLEVAL); lia).
    replace (if tst (flags (right d)) CMP_SINGLEVAL
             then Z.of_nat (if tst (flags (right d)) CMP_SINGLEVAL
                            then 0 else k)
             else Z.of_nat (if tst (flags (right d)) CMP_SINGLEVAL
                            then 0 else k) + 1)
      with (Z.of_nat (if tst (flags (right d)) CMP_SINGLEVAL then 0 else S k))
      by (destruct (tst (flags (right d)) CMP_SINGLEVAL); lia).
    assert (Ha' : ∀ m c, la !! m = Some c →
      ls !! (if tst (flags (left d)) CMP_SINGLEVAL then 0 else S k + m)%nat
      = Some c).
    { intros m c Hc. specialize (Ha (S m) c Hc).
      by rewrite Nat.add_succ_r in Ha. }
    assert (Hb' : ∀ m c, ra !! m = Some c →
      rs !! (if tst (flags (right d)) CMP_SINGLEVAL then 0 else S k + m)%nat
      = Some c).
    { intros m c Hc. specialize (Hb (S m) c Hc).
      by rewrite Nat.add_succ_r in Hb. }
    rewrite (IH (S k) la ra _ ltac:(lia) ltac:(lia) Ha' Hb').
    destruct (accept_int (cmpt d) a b); [by rewrite <- app_assoc | done].
Qed.

Lemma right_reals_read (d : t_methoddata_compare) (rs : list Q) (n : nat)
    (b : Q) :
  right_reals real_of_int d = Some rs →
  rs !! n = Some b →
  (if tst (flags (right d)) CMP_REALVAL then rd (r (right d)) (Z.of_nat n)
   else bi ← rd (i (right d)) (Z.of_nat n); Ok (real_of_int bi)) = Ok b.
Proof.
  unfold right_reals. destruct (tst (flags (right d)) CMP_REALVAL).
  - intros -> Hb. by apply rd_nat.
  - destruct (i (right d)) as [ri|]; [|discriminate]. intros [= <-] Hb.
    rewrite list_lookup_fmap in Hb.
    destruct (ri !! n) as [bi|] eqn:Hbi; [|discriminate].
    injection Hb as <-. by rewrite (rd_nat _ _ _ Hbi).
Qed.

Lemma real_loop_select (d : t_methoddata_compare) (ls rs : list Q) :
  r (left d) = Some ls →
  right_reals real_of_int d = Some rs →
  ∀ (g : list Z) (k : nat) (la ra : list Q) (out : list Z),
    length la = length g →
    length ra = length g →
    (∀ m a, la !! m = Some a →
       ls !! (if tst (flags (left d)) CMP_SINGLEVAL then 0 else k + m)%nat
       = Some a) →
    (∀ m b, ra !! m = Some b →
       rs !! (if tst (flags (right d)) CMP_SINGLEVAL then 0 else k + m)%nat
       = Some b) →
    evaluate_compare_real_loop gmx_within_tol real_of_int g
      (Z.of_nat (if tst (flags (left d)) CMP_SINGLEVAL then 0 else k))
      (Z.of_nat (if tst (flags (right d)) CMP_SINGLEVAL then 0 else k))
      d out =
      Ok (out ++ select (accept_real gmx_within_tol (cmpt d)) g la ra).
Proof.
  intros Hl Hr. induction g as [|gi g IH]; intros k la ra out Hla Hra Ha Hb.
  - simpl. by rewrite app_nil_r.
  - destruct la as [|a la]; [discriminate|].
    destruct ra as [|b ra]; [discriminate|].
    simpl in Hla, Hra. cbn [evaluate_compare_real_loop select].
    rewrite Hl.
    pose proof (Ha 0%nat a eq_refl) as Ha0.
    pose proof (Hb 0%nat b eq_refl) as Hb0.
    rewrite Nat.add_0_r in Ha0, Hb0.
    rewrite (rd_nat _ _ _ Ha0). cbn [mbind result_bind].
    rewrite (right_reals_read d rs _ b Hr Hb0). cbn [mbind result_bind].
    replace (if tst (flags (left d)) CMP_SINGLEVAL
             then Z.of_nat (if tst (flags (left d)) CMP_SINGLEVAL
                            then 0 else k)
             else Z.of_nat (if tst (flags (left d)) CMP_SINGLEVAL
                            then 0 else k) + 1)
      with (Z.of_nat (if tst (flags (left d)) CMP_SINGLEVAL then 0 else S k))
      by (destruct (tst (flags (left d)) CMP_SINGLEVAL); lia).
    replace (if tst (flags (right d)) CMP_SINGLEVAL
             then Z.of_nat (if tst (flags (right d)) CMP_SINGLEVAL
                            then 0 else k)
             else Z.of_nat (if tst (flags (right d)) CMP_SINGLEVAL
                            then 0 else k) + 1)
      with (Z.of_nat (if tst (flags (right d)) CMP_SINGLEVAL then 0 else S k))
      by (destruct (tst (flags (right d)) CMP_SINGLEVAL); lia).
    assert (Ha' : ∀ m c, la !! m = Some c →
      ls !! (if tst (flags (left d)) CMP_SINGLEVAL then 0 else S k + m)%nat
      = Some c).
    { intros m c Hc. specialize (Ha (S m) c Hc).
      by rewrite Nat.add_succ_r in Ha. }
    assert (Hb' : ∀ m c, ra !! m = Some c →
      rs !! (if tst (flags (right d)) CMP_SINGLEVAL then 0 else S k + m)%nat
      = Some c).
    { intros m c Hc. specialize (Hb (S m) c Hc).
      by rewrite Nat.add_succ_r in Hb. }
    rewrite (IH (S k) la ra _ ltac:(lia) ltac:(lia) Ha' Hb').
    destruct (accept_real gmx_within_tol (cmpt d) a b);
      [by rewrite <- app_assoc | done].
Qed.

Lemma loop_start (single : bool) : Z.of_nat (if single then 0 else 0) = 0.
Proof. by destruct single. Qed.

(** The evaluation of two integer operands, as a selection. *)
Lemma evaluate_int_select (g : list Z) (d : t_methoddata_compare)
    (ls rs la ra : list Z) :
  i (left d) = Some ls →
  i (right d) = Some rs →
  operand_values (tst (flags (left d)) CMP_SINGLEVAL) ls (length g) = Some la →
  operand_values (tst (flags (right d)) CMP_SINGLEVAL) rs (length g) = Some ra →
  evaluate_compare_int g d = Ok (select (accept_int (cmpt d)) g la ra).
Proof.
  intros Hl Hr [Hla Ha]%operand_values_lookup [Hra Hb]%operand_values_lookup.
  unfold evaluate_compare_int.
  pose proof (int_loop_select d ls rs Hl Hr g 0 la ra [] Hla Hra Ha Hb) as H.
  by rewrite !loop_start in H.
Qed.

(** The evaluation with a real operand on the left, as a selection. *)
Lemma evaluate_real_select (g : list Z) (d : t_methoddata_compare)
    (ls rs la ra : list Q) :
  r (left d) = Some ls →
  right_reals real_of_int d = Some rs →
  operand_values (tst (flags (left d)) CMP_SINGLEVAL) ls (length g) = Some la →
  operand_values (tst (flags (right d)) CMP_SINGLEVAL) rs (length g) = Some ra →
  evaluate_compare_real gmx_within_tol real_of_int g d =
    Ok (select (accept_real gmx_within_tol (cmpt d)) g la ra).
Proof.
  intros Hl Hr [Hla Ha]%operand_values_lookup [Hra Hb]%operand_values_lookup.
  unfold evaluate_compare_real.
  pose proof (real_loop_select d ls rs Hl Hr g 0 la ra [] Hla Hra Ha Hb) as H.
  by rewrite !loop_start in H.
Qed.

Lemma int_loop_sublist (d : t_methoddata_compare) (g : list Z) :
  ∀ i1 i2 out0 out,
    evaluate_compare_int_loop g i1 i2 d out0 = Ok out →
    ∃ out', out = out0 ++ out' ∧ sublist out' g.
Proof.
  induction g as [|gi g IH]; intros i1 i2 out0 out; simpl.
  - intros [= <-]. exists []. by rewrite app_nil_r.
  - destruct (rd (i (left d)) i1) as [a| |]; cbn [mbind result_bind];
      [|discriminate..].
    destruct (rd (i (right d)) i2) as [b| |]; cbn [mbind result_bind];
      [|discriminate..].
    intros (out' & -> & Hs)%IH. destruct (accept_int (cmpt d) a b).
    + exists (gi :: out'). rewrite <- app_assoc. split; [done|].
      by apply sublist_skip.
    + exists out'. split; [done|]. by apply sublist_cons.
Qed.

Lemma real_loop_sublist (d : t_methoddata_compare) (g : list Z) :
  ∀ i1 i2 out0 out,
    evaluate_compare_real_loop gmx_within_tol real_of_int g i1 i2 d out0 = Ok out →
    ∃ out', out = out0 ++ out' ∧ sublist out' g.
Proof.
  induction g as [|gi g IH]; intros i1 i2 out0 out; simpl.
  - intros [= <-]. exists []. by rewrite app_nil_r.
  - destruct (rd (r (left d)) i1) as [a| |]; cbn [mbind result_bind];
      [|discriminate..].
    destruct (if tst (flags (right d)) CMP_REALVAL then _ else _) as [b| |];
      cbn [mbind result_bind]; [|discriminate..].
    intros (out' & -> & Hs)%IH.
    destruct (accept_real gmx_within_tol (cmpt d) a b).
    + exists (gi :: out'). rewrite <- app_assoc. split; [done|].
      by apply sublist_skip.
    + exists out'. split; [done|]. by apply sublist_cons.
Qed.

(** X7, the output group is part of the input group: whatever the operands
    and the operator are, what [evaluate_compare] returns is a sublist of the
    index group it was given (the indices that pass, in their order), so it
    is never longer and never holds an index that was not in the group. *)
Theorem evaluate_compare_sublist (g out : list Z) (d : t_methoddata_compare) :
  evaluate_compare gmx_within_tol real_of_int g d = Ok out →
  sublist out g ∧ (length out ≤ length g)%nat ∧ ∀ a, a ∈ out → a ∈ g.
Proof.
  intros H.
  assert (Hs : sublist out g).
  { unfold evaluate_compare in H.
    destruct (negb (tst _ CMP_REALVAL)).
    - by apply int_loop_sublist in H as (out' & -> & Hs).
    - by apply real_loop_sublist in H as (out' & -> & Hs). }
  split; [done|]. split; [by apply sublist_length|].
  intros a Ha. by eapply elem_of_sublist.
Qed.

(** X8, the evaluation of two integer operands: when neither operand is
    real, the arrays hold the values that an evaluation over [g] needs (one
    value for a single-valued operand, a value for each element of [g]
    otherwise), [evaluate_compare] returns exactly the elements of [g] whose
    left and right values satisfy the operator, in the order of [g]; a
    single value is compared with every element. *)
Theorem evaluate_compare_integers (g : list Z) (d : t_methoddata_compare)
    (ls rs la ra : list Z) :
  tst (Z.lor (flags (left d)) (flags (right d))) CMP_REALVAL = false →
  i (left d) = Some ls →
  i (right d) = Some rs →
  operand_values (tst (flags (left d)) CMP_SINGLEVAL) ls (length g) = Some la →
  operand_values (tst (flags (right d)) CMP_SINGLEVAL) rs (length g) = Some ra →
  evaluate_compare gmx_within_tol real_of_int g d =
    Ok (select (accept_int (cmpt d)) g la ra).
Proof.
  intros Hf Hl Hr Hla Hra. unfold evaluate_compare. rewrite Hf. simpl.
  by apply (evaluate_int_select g d ls rs).
Qed.

(** X9, the evaluation with a real operand: when an operand is real and the
    left one holds real values (the right one real values or integers), with
    the values that an evaluation over [g] needs, [evaluate_compare] returns
    exactly the elements of [g] whose values satisfy the operator on reals,
    an integer on the right being converted first by the conversion [(real)]
    of the build ([right_reals]): exactly in double precision, with a
    rounding beyond [2^24] in single precision. *)
Theorem evaluate_compare_reals (g : list Z) (d : t_methoddata_compare)
    (ls rs la ra : list Q) :
  tst (Z.lor (flags (left d)) (flags (right d))) CMP_REALVAL = true →
  r (left d) = Some ls →
  right_reals real_of_int d = Some rs →
  operand_values (tst (flags (left d)) CMP_SINGLEVAL) ls (length g) = Some la →
  operand_values (tst (flags (right d)) CMP_SINGLEVAL) rs (length g) = Some ra →
  evaluate_compare gmx_within_tol real_of_int g d =
    Ok (select (accept_real gmx_within_tol (cmpt d)) g la ra).
Proof.
  intros Hf Hl Hr Hla Hra. unfold evaluate_compare. rewrite Hf. simpl.
  by apply (evaluate_real_select g d ls rs).
Qed.

(** ** From the set-up to the selection *)

Lemma select_ext {A B : Type} (acc acc' : A → B → bool) (g : list Z)
    (la : list A) (ra : list B) :
  (∀ a b, acc a b = acc' a b) →
  select acc g la ra = select acc' g la ra.
Proof.
  intros He. revert la ra.
  induction g as [|gi g IH]; intros [|a la] [|b ra]; simpl; try done.
  by rewrite He, IH.
Qed.

Lemma select_map_r {A B C : Type} (acc : A → C → bool) (h : B → C)
    (g : list Z) (la : list A) (ra : list B) :
  select acc g la (map h ra) = select (λ a b, acc a (h b)) g la ra.
Proof.
  revert la ra.
  induction g as [|gi g IH]; intros [|a la] [|b ra]; simpl; try done.
  by rewrite IH.
Qed.

Lemma select_swap {A B : Type} (acc : A → B → bool) (g : list Z)
    (la : list A) (ra : list B) :
  select (λ b a, acc a b) g ra la = select acc g la ra.
Proof.
  revert la ra.
  induction g as [|gi g IH]; intros [|a la] [|b ra]; simpl; try done.
  by rewrite IH.
Qed.

Lemma convert_int_real_loop_ok (vals : list Z) :
  ∀ (fuel k : nat) (rv : list Q),
    (k + fuel ≤ length vals)%nat →
    convert_int_real_loop real_of_int fuel (Z.of_nat k) (Some vals) rv =
      Ok (rv ++ map real_of_int (take fuel (drop k vals))).
Proof.
  induction fuel as [|fuel IH]; intros k rv Hlen.
  - simpl. by rewrite app_nil_r.
  - destruct (lookup_lt_is_Some_2 vals k) as [a Ha]; [lia|].
    rewrite (drop_S _ _ _ Ha). cbn [convert_int_real_loop take map].
    rewrite (rd_nat _ _ _ Ha). cbn [mbind result_bind].
    replace (Z.of_nat k + 1)%Z with (Z.of_nat (S k)) by lia.
    rewrite IH by lia. by rewrite <- app_assoc.
Qed.

Lemma convert_int_real_ok (n : Z) (val : t_compare_value) (vals : list Z) :
  i val = Some vals →
  (0 ≤ n ≤ Z.of_nat (length vals))%Z →
  convert_int_real real_of_int n val =
    Ok {| flags := Z.lor (flags val) (Z.lor CMP_REALVAL CMP_ALLOCREAL);
          i := i val;
          r := Some (map real_of_int (take (Z.to_nat n) vals)) |}.
Proof.
  intros Hi Hn. unfold convert_int_real. rewrite Hi.
  change 0%Z with (Z.of_nat 0).
  rewrite (convert_int_real_loop_ok vals (Z.to_nat n) 0 []) by (simpl; lia).
  by rewrite drop_0.
Qed.

(** X10, a real value per atom against a static integer (as in [x < 3]):
    [init_compare] converts the integer to a real by the conversion [(real)]
    of the build, and [evaluate_compare] then returns exactly the elements of
    [g] whose real value satisfies the operator against the converted
    integer, for each of the six operators.  The converted integer is the
    integer itself in double precision, and in single precision up to
    [2^24]; beyond, it is the integer rounded to 24 bits. *)
Theorem reals_against_static_int
    (int1 real1 op int2 real2 : gmx_ana_selparam_t)
    (d : t_methoddata_compare) (s : string) (ls : list Q) (b : Z)
    (g : list Z) :
  cmpop d = Some s →
  comparison_type s ≠ CMP_INVALID →
  tst (pflags int1) SPAR_SET = false →
  per_atom_dynamic SPAR_SET SPAR_DYNAMIC SPAR_ATOMVAL real1 →
  val_u_r real1 = Some ls →
  single_static SPAR_SET SPAR_DYNAMIC SPAR_ATOMVAL int2 →
  val_u_i int2 = Some [b] →
  (length g ≤ length ls)%nat →
  ∃ d',
    init_compare SPAR_SET SPAR_DYNAMIC SPAR_ATOMVAL real_of_int
      [int1; real1; op; int2; real2] d = Ok d' ∧
    evaluate_compare gmx_within_tol real_of_int g d' =
      Ok (select (accept_real gmx_within_tol (comparison_type s)) g
            (take (length g) ls) (replicate (length g) (real_of_int b))).
Proof.
  intros Hop Hct Hu (Hs1 & Hd1 & Ha1 & Hn1) Hls (Hs2 & Hd2 & Ha2 & Hn2) Hb Hg.
  unfold init_compare, init_comparison_value.
  change (rd (Some [int1; real1; op; int2; real2]) 0) with (Ok int1).
  change (rd (Some [int1; real1; op; int2; real2]) (0 + 1)) with (Ok real1).
  change (rd (Some [int1; real1; op; int2; real2]) 3) with (Ok int2).
  cbn [mbind result_bind].
  rewrite Hu, Hs1, Hd1, Ha1, Hs2, Hd2, Ha2, Hop, Hn2, Hls, Hb.
  cbn [mbind result_bind negb].
  destruct (Z.eqb_spec (val_nr real1) 0) as [|_]; [done|].
  cbn [orb Z.eqb Pos.eqb].
  rewrite (convert_int_real_ok 1 _ [b]) by (done || (simpl; lia)).
  assert (He : ∀ ct d0,
    cmpt d0 = ct →
    left d0 = {| flags := Z.lor (Z.lor (Z.lor 0 CMP_DYNAMICVAL) 0)
                            CMP_REALVAL;
                 i := i (left d); r := Some ls |} →
    right d0 = {| flags := Z.lor (Z.lor (Z.lor 0 0) CMP_SINGLEVAL)
                             (Z.lor CMP_REALVAL CMP_ALLOCREAL);
                  i := Some [b];
                  r := Some (map real_of_int (take (Z.to_nat 1) [b])) |} →
    evaluate_compare gmx_within_tol real_of_int g d0 =
      Ok (select (accept_real gmx_within_tol ct) g
            (take (length g) ls) (replicate (length g) (real_of_int b)))).
  { intros ct d0 <- Hl0 Hr0.
    assert (Hf : tst (Z.lor (flags (left d0)) (flags (right d0)))
                   CMP_REALVAL = true) by (by rewrite Hl0, Hr0).
    unfold evaluate_compare. rewrite Hf. cbn [negb].
    apply (evaluate_real_select g d0 ls [real_of_int b]).
    - by rewrite Hl0.
    - unfold right_reals. by rewrite Hr0.
    - rewrite Hl0. unfold operand_values. simpl.
      by rewrite decide_True by lia.
    - by rewrite Hr0. }
  destruct (comparison_type s); [done|..];
    (eexists; split; [reflexivity | by apply He]).
Qed.

Lemma accept_real_reverse (ct : e_comparison_t) (a b : Q) :
  (∀ p q, gmx_within_tol p q = gmx_within_tol q p) →
  accept_real gmx_within_tol (reverse_comparison_type ct) b a =
  accept_real gmx_within_tol ct a b.
Proof.
  intros Hsym. destruct ct; simpl; try reflexivity.
  - apply Hsym.
  - by rewrite Hsym.
Qed.

(** X11, an integer value per atom against a static real, with an order
    operator: [init_compare] rounds the real to an integer (which is to be
    in the range of [int]) and [evaluate_compare] runs the integer loop; the
    result is exactly the elements of [g] whose integer value, read as a
    real, satisfies the operator against the real value itself. *)
Theorem ints_against_static_real
    (int1 real1 op int2 real2 : gmx_ana_selparam_t)
    (d : t_methoddata_compare) (s : string) (ls : list Z) (b : Q)
    (g : list Z) :
  cmpop d = Some s →
  is_order (comparison_type s) = true →
  per_atom_dynamic SPAR_SET SPAR_DYNAMIC SPAR_ATOMVAL int1 →
  val_u_i int1 = Some ls →
  tst (pflags int2) SPAR_SET = false →
  single_static SPAR_SET SPAR_DYNAMIC SPAR_ATOMVAL real2 →
  val_u_r real2 = Some [b] →
  int_range (rounded (comparison_type s) b) = true →
  (length g ≤ length ls)%nat →
  ∃ d',
    init_compare SPAR_SET SPAR_DYNAMIC SPAR_ATOMVAL real_of_int
      [int1; real1; op; int2; real2] d = Ok d' ∧
    evaluate_compare gmx_within_tol real_of_int g d' =
      Ok (select (λ a q, accept_real gmx_within_tol (comparison_type s)
                           (inject_Z a) q) g
            (take (length g) ls) (replicate (length g) b)).
Proof.
  intros Hop Ho (Hs1 & Hd1 & Ha1 & Hn1) Hls Hu (Hs2 & Hd2 & Ha2 & Hn2) Hb
    Hr Hg.
  unfold init_compare, init_comparison_value.
  change (rd (Some [int1; real1; op; int2; real2]) 0) with (Ok int1).
  change (rd (Some [int1; real1; op; int2; real2]) 3) with (Ok int2).
  change (rd (Some [int1; real1; op; int2; real2]) (3 + 1)) with (Ok real2).
  cbn [mbind result_bind].
  rewrite Hu, Hs1, Hd1, Ha1, Hs2, Hd2, Ha2, Hop, Hn2, Hls, Hb.
  cbn [mbind result_bind negb].
  destruct (Z.eqb_spec (val_nr int1) 0) as [|_]; [done|].
  cbn [orb Z.eqb Pos.eqb].
  pose proof (convert_real_int_ok (comparison_type s) true 1
    {| flags := Z.lor (Z.lor (Z.lor 0 0) CMP_SINGLEVAL) CMP_REALVAL;
       i := i (right d); r := Some [b] |} [b] Ho eq_refl
    ltac:(simpl; lia) ltac:(by repeat constructor)) as Hc.
  assert (He : ∀ d0,
    cmpt d0 = comparison_type s →
    left d0 = {| flags := Z.lor (Z.lor 0 CMP_DYNAMICVAL) 0;
                 i := Some ls; r := r (left d) |} →
    right d0 = {| flags := Z.lor (Z.land (Z.lor (Z.lor (Z.lor 0 0)
                                             CMP_SINGLEVAL) CMP_REALVAL)
                                    (Z.lnot CMP_REALVAL)) CMP_ALLOCINT;
                  i := Some (map (rounded (comparison_type s))
                               (take (Z.to_nat 1) [b]));
                  r := Some [b] |} →
    evaluate_compare gmx_within_tol real_of_int g d0 =
      Ok (select (λ a q, accept_real gmx_within_tol (comparison_type s)
                           (inject_Z a) q) g
            (take (length g) ls) (replicate (length g) b))).
  { intros d0 Hc0 Hl0 Hr0.
    assert (Hf : tst (Z.lor (flags (left d0)) (flags (right d0)))
                   CMP_REALVAL = false) by (by rewrite Hl0, Hr0).
    unfold evaluate_compare. rewrite Hf. cbn [negb].
    rewrite (evaluate_int_select g d0 ls [rounded (comparison_type s) b]
               (take (length g) ls)
               (replicate (length g) (rounded (comparison_type s) b))).
    - rewrite Hc0. f_equal.
      rewrite <- (fmap_replicate (rounded (comparison_type s))).
      change (rounded (comparison_type s) <$> replicate (length g) b)
        with (map (rounded (comparison_type s)) (replicate (length g) b)).
      rewrite select_map_r. apply select_ext. intros a q.
      by apply rounded_right.
    - by rewrite Hl0.
    - by rewrite Hr0.
    - rewrite Hl0. unfold operand_values. simpl.
      by rewrite decide_True by lia.
    - by rewrite Hr0. }
  destruct (comparison_type s); try discriminate;
    cbn in Hc |- *; rewrite Hc; cbn [mbind result_bind];
    (eexists; split; [reflexivity | by apply He]).
Qed.

(** X12, a static real against an integer value per atom, with an order
    operator: the mirror image of the previous set-up.  The real, on the
    left, is rounded for the reversed operator, and the result is exactly
    the elements of [g] for which the real value satisfies the operator
    against the integer value read as a real. *)
Theorem static_real_against_ints
    (int1 real1 op int2 real2 : gmx_ana_selparam_t)
    (d : t_methoddata_compare) (s : string) (ls : list Z) (b : Q)
    (g : list Z) :
  cmpop d = Some s →
  is_order (comparison_type s) = true →
  tst (pflags int1) SPAR_SET = false →
  single_static SPAR_SET SPAR_DYNAMIC SPAR_ATOMVAL real1 →
  val_u_r real1 = Some [b] →
  per_atom_dynamic SPAR_SET SPAR_DYNAMIC SPAR_ATOMVAL int2 →
  val_u_i int2 = Some ls →
  int_range (rounded (reverse_comparison_type (comparison_type s)) b) = true →
  (length g ≤ length ls)%nat →
  ∃ d',
    init_compare SPAR_SET SPAR_DYNAMIC SPAR_ATOMVAL real_of_int
      [int1; real1; op; int2; real2] d = Ok d' ∧
    evaluate_compare gmx_within_tol real_of_int g d' =
      Ok (select (λ q a, accept_real gmx_within_tol (comparison_type s)
                           q (inject_Z a)) g
            (replicate (length g) b) (take (length g) ls)).
Proof.
  intros Hop Ho Hu (Hs1 & Hd1 & Ha1 & Hn1) Hb (Hs2 & Hd2 & Ha2 & Hn2) Hls
    Hr Hg.
  unfold init_compare, init_comparison_value.
  change (rd (Some [int1; real1; op; int2; real2]) 0) with (Ok int1).
  change (rd (Some [int1; real1; op; int2; real2]) (0 + 1)) with (Ok real1).
  change (rd (Some [int1; real1; op; int2; real2]) 3) with (Ok int2).
  cbn [mbind result_bind].
  rewrite Hu, Hs1, Hd1, Ha1, Hs2, Hd2, Ha2, Hop, Hn1, Hls, Hb.
  cbn [mbind result_bind negb].
  destruct (Z.eqb_spec (val_nr int2) 0) as [|_]; [done|].
  cbn [orb Z.eqb Pos.eqb].
  set (ct' := reverse_comparison_type (comparison_type s)) in *.
  pose proof (convert_real_int_ok (comparison_type s) false 1
    {| flags := Z.lor (Z.lor (Z.lor 0 0) CMP_SINGLEVAL) CMP_REALVAL;
       i := i (left d); r := Some [b] |} [b] Ho eq_refl
    ltac:(simpl; lia) ltac:(by repeat constructor)) as Hc.
  fold ct' in Hc.
  assert (He : ∀ d0,
    cmpt d0 = comparison_type s →
    left d0 = {| flags := Z.lor (Z.land (Z.lor (Z.lor (Z.lor 0 0)
                                            CMP_SINGLEVAL) CMP_REALVAL)
                                   (Z.lnot CMP_REALVAL)) CMP_ALLOCINT;
                 i := Some (map (rounded ct') (take (Z.to_nat 1) [b]));
                 r := Some [b] |} →
    right d0 = {| flags := Z.lor (Z.lor 0 CMP_DYNAMICVAL) 0;
                  i := Some ls; r := r (right d) |} →
    evaluate_compare gmx_within_tol real_of_int g d0 =
      Ok (select (λ q a, accept_real gmx_within_tol (comparison_type s)
                           q (inject_Z a)) g
            (replicate (length g) b) (take (length g) ls))).
  { intros d0 Hc0 Hl0 Hr0.
    assert (Hf : tst (Z.lor (flags (left d0)) (flags (right d0)))
                   CMP_REALVAL = false) by (by rewrite Hl0, Hr0).
    unfold evaluate_compare. rewrite Hf. cbn [negb].
    rewrite (evaluate_int_select g d0 [rounded ct' b] ls
               (replicate (length g) (rounded ct' b))
               (take (length g) ls)).
    - rewrite Hc0. f_equal.
      rewrite <- (select_swap
        (λ q a, accept_real gmx_within_tol (comparison_type s) q (inject_Z a))).
      rewrite <- (select_swap (accept_int (comparison_type s))).
      rewrite <- (fmap_replicate (rounded ct')).
      change (rounded ct' <$> replicate (length g) b)
        with (map (rounded ct') (replicate (length g) b)).
      rewrite select_map_r. apply select_ext. intros a q.
      by apply rounded_left.
    - by rewrite Hl0.
    - by rewrite Hr0.
    - by rewrite Hl0.
    - rewrite Hr0. unfold operand_values. simpl.
      by rewrite decide_True by lia. }
  clearbody ct'.
  destruct (comparison_type s); try discriminate;
    cbn in Hc |- *; rewrite Hc; cbn [mbind result_bind];
    (eexists; split; [reflexivity | by apply He]).
Qed.

(** X13, an integer value per atom against a real value per atom, both
    dynamic: [init_compare] interchanges the operands and reverses the
    operator, and with a symmetric tolerant equality [evaluate_compare]
    still returns exactly the elements of [g] whose integer value, converted
    by the conversion [(real)] of the build, satisfies the original operator
    against the real value.  The converted value is the integer itself in
    double precision, and in single precision up to [2^24]. *)
Theorem ints_against_reals
    (int1 real1 op int2 real2 : gmx_ana_selparam_t)
    (d : t_methoddata_compare) (s : string) (ls : list Z) (bs : list Q)
    (g : list Z) :
  (∀ p q, gmx_within_tol p q = gmx_within_tol q p) →
  cmpop d = Some s →
  comparison_type s ≠ CMP_INVALID →
  per_atom_dynamic SPAR_SET SPAR_DYNAMIC SPAR_ATOMVAL int1 →
  val_u_i int1 = Some ls →
  tst (pflags int2) SPAR_SET = false →
  per_atom_dynamic SPAR_SET SPAR_DYNAMIC SPAR_ATOMVAL real2 →
  val_u_r real2 = Some bs →
  (length g ≤ length ls)%nat →
  (length g ≤ length bs)%nat →
  ∃ d',
    init_compare SPAR_SET SPAR_DYNAMIC SPAR_ATOMVAL real_of_int
      [int1; real1; op; int2; real2] d = Ok d' ∧
    evaluate_compare gmx_within_tol real_of_int g d' =
      Ok (select (λ a q, accept_real gmx_within_tol (comparison_type s)
                           (real_of_int a) q) g
            (take (length g) ls) (take (length g) bs)).
Proof.
  intros Hsym Hop Hct (Hs1 & Hd1 & Ha1 & Hn1) Hls Hu (Hs2 & Hd2 & Ha2 & Hn2)
    Hbs Hg1 Hg2.
  unfold init_compare, init_comparison_value.
  change (rd (Some [int1; real1; op; int2; real2]) 0) with (Ok int1).
  change (rd (Some [int1; real1; op; int2; real2]) 3) with (Ok int2).
  change (rd (Some [int1; real1; op; int2; real2]) (3 + 1)) with (Ok real2).
  cbn [mbind result_bind].
  rewrite Hu, Hs1, Hd1, Ha1, Hs2, Hd2, Ha2, Hop, Hls, Hbs.
  cbn [mbind result_bind negb].
  destruct (Z.eqb_spec (val_nr int1) 0) as [|_]; [done|].
  destruct (Z.eqb_spec (val_nr real2) 0) as [|_]; [done|].
  cbn [orb].
  assert (He : ∀ d0,
    cmpt d0 = reverse_comparison_type (comparison_type s) →
    left d0 = {| flags := Z.lor (Z.lor (Z.lor 0 CMP_DYNAMICVAL) 0)
                            CMP_REALVAL;
                 i := None; r := Some bs |} →
    right d0 = {| flags := Z.lor (Z.lor 0 CMP_DYNAMICVAL) 0;
                  i := Some ls; r := None |} →
    evaluate_compare gmx_within_tol real_of_int g d0 =
      Ok (select (λ a q, accept_real gmx_within_tol (comparison_type s)
                           (real_of_int a) q) g
            (take (length g) ls) (take (length g) bs))).
  { intros d0 Hc0 Hl0 Hr0.
    assert (Hf : tst (Z.lor (flags (left d0)) (flags (right d0)))
                   CMP_REALVAL = true) by (by rewrite Hl0, Hr0).
    unfold evaluate_compare. rewrite Hf. cbn [negb].
    rewrite (evaluate_real_select g d0 bs (map real_of_int ls)
               (take (length g) bs)
               (map real_of_int (take (length g) ls))).
    - rewrite Hc0. f_equal. rewrite select_map_r.
      rewrite <- (select_swap
        (λ a q, accept_real gmx_within_tol (comparison_type s) (real_of_int a) q)).
      apply select_ext. intros q a. by apply accept_real_reverse.
    - by rewrite Hl0.
    - unfold right_reals. by rewrite Hr0.
    - rewrite Hl0. unfold operand_values. simpl.
      by rewrite decide_True by lia.
    - rewrite Hr0. unfold operand_values. simpl.
      rewrite decide_True by (rewrite length_map; lia).
      f_equal. symmetry. apply fmap_take. }
  destruct (comparison_type s); [done|..];
    (eexists; split; [reflexivity | by apply He]).
Qed.

End method.
Lemma reverse_comparison_type_swaps_witness :
  accept_int (reverse_comparison_type CMP_LESS) 3 2 = accept_int CMP_LESS 2 3 ∧
  accept_real exact_tol (reverse_comparison_type CMP_EQUAL) (1 # 2) (2 # 4) =
  accept_real exact_tol CMP_EQUAL (2 # 4) (1 # 2).
Proof.
  split.
  - apply (proj1 (proj2 (reverse_comparison_type_swaps exact_tol CMP_LESS
                           Qeq_bool_sym))).
  - apply (proj2 (proj2 (reverse_comparison_type_swaps exact_tol CMP_EQUAL
                           Qeq_bool_sym))).
Defined.

Lemma init_compare_missing_value_witness :
  init_compare SPAR_SET SPAR_DYNAMIC SPAR_ATOMVAL single_of_int
    [unset; unset; op_param; atom_ints; unset] (data_for "<") =
    Throw (InternalError "One of the values for comparison missing").
Proof.
  apply (init_compare_missing_value SPAR_SET SPAR_DYNAMIC SPAR_ATOMVAL
           single_of_int).
  left. right. right. split; reflexivity.
Defined.

Lemma init_compare_invalid_operator_witness :
  init_compare SPAR_SET SPAR_DYNAMIC SPAR_ATOMVAL single_of_int
    [atom_ints; unset; op_param; stat_int 3; unset] (data_for "=<") =
    Throw (InternalError "Invalid comparison type").
Proof.
  apply (init_compare_invalid_operator SPAR_SET SPAR_DYNAMIC SPAR_ATOMVAL
           single_of_int
           atom_ints unset op_param (stat_int 3) unset (data_for "=<") "=<").
  - intros [[_ H] | [(H & _) | [H _]]]; discriminate H.
  - intros [[_ H] | [(H & _) | [H _]]]; discriminate H.
  - reflexivity.
  - reflexivity.
Defined.


Lemma evaluate_compare_sublist_witness :
  sublist [12; 13; 14] five_atoms ∧
  (length [12; 13; 14] ≤ length five_atoms)%nat ∧
  ∀ a, a ∈ [12; 13; 14] → a ∈ five_atoms.
Proof.
  apply (evaluate_compare_sublist exact_tol single_of_int
           five_atoms [12; 13; 14]
           (ints_against CMP_GEQ 3)).
  reflexivity.
Defined.

Lemma evaluate_compare_integers_witness :
  evaluate_compare exact_tol single_of_int five_atoms (ints_against CMP_GEQ 3) =
    Ok [12; 13; 14].
Proof.
  apply (evaluate_compare_integers exact_tol single_of_int five_atoms
           (ints_against CMP_GEQ 3) [1; 2; 3; 4; 5] [3]
           [1; 2; 3; 4; 5] [3; 3; 3; 3; 3]); reflexivity.
Defined.

Lemma evaluate_compare_reals_witness :
  evaluate_compare exact_tol single_of_int [10]
    (real_against_int_big CMP_LESS) = Ok [] ∧
  evaluate_compare exact_tol double_of_int [10]
    (real_against_int_big CMP_LESS) = Ok [10].
Proof.
  split.
  - apply (evaluate_compare_reals exact_tol single_of_int [10]
             (real_against_int_big CMP_LESS)
             [16777216 # 1] [16777216 # 1] [16777216 # 1] [16777216 # 1]);
      reflexivity.
  - apply (evaluate_compare_reals exact_tol double_of_int [10]
             (real_against_int_big CMP_LESS)
             [16777216 # 1] [16777217 # 1] [16777216 # 1] [16777217 # 1]);
      reflexivity.
Defined.

Lemma reals_against_static_int_witness :
  (∃ d',
     init_compare SPAR_SET SPAR_DYNAMIC SPAR_ATOMVAL single_of_int
       [unset; atom_real_big; op_param; stat_int 16777217; unset]
       (data_for "<") = Ok d' ∧
     evaluate_compare exact_tol single_of_int [10] d' = Ok []) ∧
  (∃ d',
     init_compare SPAR_SET SPAR_DYNAMIC SPAR_ATOMVAL double_of_int
       [unset; atom_real_big; op_param; stat_int 16777217; unset]
       (data_for "<") = Ok d' ∧
     evaluate_compare exact_tol double_of_int [10] d' = Ok [10]).
Proof.
  split.
  - apply (reals_against_static_int SPAR_SET SPAR_DYNAMIC SPAR_ATOMVAL
             exact_tol single_of_int unset atom_real_big op_param
             (stat_int 16777217) unset (data_for "<") "<"
             [16777216 # 1] 16777217 [10]);
      first [ reflexivity | discriminate | (simpl; lia)
            | (repeat split; first [reflexivity | discriminate]) ].
  - apply (reals_against_static_int SPAR_SET SPAR_DYNAMIC SPAR_ATOMVAL
             exact_tol double_of_int unset atom_real_big op_param
             (stat_int 16777217) unset (data_for "<") "<"
             [16777216 # 1] 16777217 [10]);
      first [ reflexivity | discriminate | (simpl; lia)
            | (repeat split; first [reflexivity | discriminate]) ].
Defined.

Lemma ints_against_static_real_witness :
  ∃ d',
    init_compare SPAR_SET SPAR_DYNAMIC SPAR_ATOMVAL single_of_int
      [atom_ints; unset; op_param; unset; stat_real (5 # 2)] (data_for "<") =
      Ok d' ∧
    evaluate_compare exact_tol single_of_int five_atoms d' = Ok [10; 11].
Proof.
  apply (ints_against_static_real SPAR_SET SPAR_DYNAMIC SPAR_ATOMVAL
           exact_tol single_of_int
           atom_ints unset op_param unset (stat_real (5 # 2))
           (data_for "<") "<" [1; 2; 3; 4; 5] (5 # 2) five_atoms);
    first [ reflexivity | discriminate | apply Qeq_bool_sym | (simpl; lia)
          | (repeat split; first [reflexivity | discriminate]) ].
Defined.

Lemma static_real_against_ints_witness :
  ∃ d',
    init_compare SPAR_SET SPAR_DYNAMIC SPAR_ATOMVAL single_of_int
      [unset; stat_real (5 # 2); op_param; atom_ints; unset] (data_for "<") =
      Ok d' ∧
    evaluate_compare exact_tol single_of_int five_atoms d' = Ok [12; 13; 14].
Proof.
  apply (static_real_against_ints SPAR_SET SPAR_DYNAMIC SPAR_ATOMVAL
           exact_tol single_of_int
           unset (stat_real (5 # 2)) op_param atom_ints unset
           (data_for "<") "<" [1; 2; 3; 4; 5] (5 # 2) five_atoms);
    first [ reflexivity | discriminate | apply Qeq_bool_sym | (simpl; lia)
          | (repeat split; first [reflexivity | discriminate]) ].
Defined.

Lemma ints_against_reals_witness :
  (∃ d',
     init_compare SPAR_SET SPAR_DYNAMIC SPAR_ATOMVAL single_of_int
       [atom_int_big; unset; op_param; unset; atom_real_big]
       (data_for ">") = Ok d' ∧
     evaluate_compare exact_tol single_of_int [10] d' = Ok []) ∧
  (∃ d',
     init_compare SPAR_SET SPAR_DYNAMIC SPAR_ATOMVAL double_of_int
       [atom_int_big; unset; op_param; unset; atom_real_big]
       (data_for ">") = Ok d' ∧
     evaluate_compare exact_tol double_of_int [10] d' = Ok [10]).
Proof.
  split.
  - apply (ints_against_reals SPAR_SET SPAR_DYNAMIC SPAR_ATOMVAL
             exact_tol single_of_int atom_int_big unset op_param unset
             atom_real_big (data_for ">") ">" [16777217] [16777216 # 1]
             [10]);
      first [ reflexivity | discriminate | apply Qeq_bool_sym | (simpl; lia)
            | (repeat split; first [reflexivity | discriminate]) ].
  - apply (ints_against_reals SPAR_SET SPAR_DYNAMIC SPAR_ATOMVAL
             exact_tol double_of_int atom_int_big unset op_param unset
             atom_real_big (data_for ">") ">" [16777217] [16777216 # 1]
             [10]);
      first [ reflexivity | discriminate | apply Qeq_bool_sym | (simpl; lia)
            | (repeat split; first [reflexivity | discriminate]) ].
Defined.

End CompareMore.

(** * The kernel over a whole cluster pair *)
Module KernelLoops.
Import Kernel KernelData KernelSums KernelCases KernelProps.

(** ** Loops *)

(** A relation that every round of a loop keeps holds over the loop. *)
Lemma for_upto_rel {S : Type} (Rel : S → S → Prop) (body : Z → S → option S) :
  (∀ s, Rel s s) →
  (∀ s1 s2 s3, Rel s1 s2 → Rel s2 s3 → Rel s1 s3) →
  ∀ (fuel : nat) (lo : Z) (s s' : S),
    (∀ k s1 s2, lo ≤ k < lo + Z.of_nat fuel →
                body k s1 = Some s2 → Rel s1 s2) →
    for_upto fuel lo body s = Some s' →
    Rel s s'.
Proof.
  intros Hrefl Htrans. induction fuel as [|fuel IH]; intros lo s s' Hb.
  - intros [= <-]. apply Hrefl.
  - simpl. destruct (body lo s) as [s1|] eqn:E; simpl; [|discriminate].
    intros H. apply Htrans with s1.
    + apply (Hb lo); [lia | done].
    + apply (IH (lo + 1) s1 s'); [|done].
      intros k s2 s3 Hk. apply Hb. lia.
Qed.

(** A counter that round [k] raises by [c k] is raised by the sum. *)
Lemma for_upto_count {S : Type} (m : S → Z) (c : Z → Z)
    (body : Z → S → option S) :
  ∀ (fuel : nat) (lo : Z) (s s' : S),
    (∀ k s1 s2, lo ≤ k < lo + Z.of_nat fuel →
                body k s1 = Some s2 → m s2 = m s1 + c k) →
    for_upto fuel lo body s = Some s' →
    m s' = m s + sumZ fuel lo c.
Proof.
  induction fuel as [|fuel IH]; intros lo s s' Hb.
  - intros [= <-]. simpl. lia.
  - simpl. destruct (body lo s) as [s1|] eqn:E; simpl; [|discriminate].
    intros H. rewrite (IH (lo + 1) s1 s'); [| |done].
    + rewrite (Hb lo s s1) by (lia || done). lia.
    + intros k s2 s3 Hk. apply Hb. lia.
Qed.

(** A loop whose rounds are all defined is defined, and keeps an
    invariant that the rounds keep. *)
Lemma for_upto_defined {S : Type} (Inv : S → Prop) (body : Z → S → option S) :
  ∀ (fuel : nat) (lo : Z) (s : S),
    Inv s →
    (∀ k s1, lo ≤ k < lo + Z.of_nat fuel → Inv s1 →
             ∃ s2, body k s1 = Some s2 ∧ Inv s2) →
    ∃ s', for_upto fuel lo body s = Some s' ∧ Inv s'.
Proof.
  induction fuel as [|fuel IH]; intros lo s Hs Hb.
  - by exists s.
  - destruct (Hb lo s) as (s1 & E & H1); [lia | done |].
    simpl. rewrite E. simpl. apply IH; [done|].
    intros k s2 Hk. apply Hb. lia.
Qed.

Lemma sumZ_zero (fuel : nat) (lo : Z) : sumZ fuel lo (λ _, 0) = 0.
Proof.
  revert lo. induction fuel as [|fuel IH]; intros lo; simpl; [done|].
  by rewrite IH.
Qed.

Lemma sumZ_ext (c c' : Z → Z) (fuel : nat) (lo : Z) :
  (∀ k, c k = c' k) → sumZ fuel lo c = sumZ fuel lo c'.
Proof.
  intros He. revert lo. induction fuel as [|fuel IH]; intros lo; simpl;
    [done|]. by rewrite He, IH.
Qed.

Lemma sumZ_bounds (c : Z → Z) (hi : Z) :
  ∀ (fuel : nat) (lo : Z),
    (∀ k, 0 ≤ c k ≤ hi) → 0 ≤ sumZ fuel lo c ≤ Z.of_nat fuel * hi.
Proof.
  induction fuel as [|fuel IH]; intros lo Hc; simpl; [lia|].
  specialize (IH (lo + 1) Hc). specialize (Hc lo). nia.
Qed.

Section generic.
Context {real : Type} {RO : RealOps real}.
Implicit Types (cfg : config) (e : env real) (s : acc real) (g : geom real)
  (t : terms real).

(** ** One pair *)

Lemma add_energy_off cfg e egp_cj i j (V V' : list real) (Vs Vs' v : real) :
  add_energy cfg e egp_cj i j V Vs v = Some (V', Vs') →
  length V' = length V.
Proof.
  unfold add_energy. destruct (ENERGY_GROUPS cfg).
  - destruct (idx (egp_sh_i e) i) as [sh|]; simpl; [|discriminate].
    destruct (upd V _ _) as [V1|] eqn:E; simpl; [|discriminate].
    intros [= <- <-]. apply upd_Some in E as (v0 & _ & ->).
    apply length_insert.
  - by intros [= <- <-].
Qed.

(** What the writes of an evaluated pair do to the counter and to the
    energies. *)
Lemma accum_scalars cfg e egp_cj i j g t s s' :
  pair_accum cfg e egp_cj i j g t s = Some s' →
  npair s' = (if COUNT_PAIRS cfg then npair s + 1 else npair s) ∧
  (lj t && CALC_ENERGIES cfg = false →
   Vvdw s' = Vvdw s ∧ Vvdw_ci s' = Vvdw_ci s) ∧
  (vcoul t = None → Vc s' = Vc s ∧ Vc_ci s' = Vc_ci s).
Proof.
  unfold pair_accum. intros H.
  destruct (if lj t && CALC_ENERGIES cfg then _ else _) as [[V1 V1c]|] eqn:E1;
    simpl in H; [|discriminate].
  destruct (match vcoul t with Some _ => _ | None => _ end)
    as [[V2 V2c]|] eqn:E2; simpl in H; [|discriminate].
  repeat (match type of H with
          | context [upd ?a ?k ?h] =>
              destruct (upd a k h); simpl in H; [|discriminate]
          end).
  injection H as <-. simpl. split; [done|]. split.
  - intros Hoff. rewrite Hoff in E1. by injection E1 as <- <-.
  - intros Hv. rewrite Hv in E2. by injection E2 as <- <-.
Qed.

Lemma terms_no_energy cfg e type_i_off i g t :
  CALC_ENERGIES cfg = false →
  pair_terms cfg e type_i_off i g = Some t →
  vcoul t = None.
Proof.
  intros Hen H. unfold pair_terms, coul_block in H. rewrite Hen in H.
  destruct (lj_block _ _ _ _ _ _) as [[[l v6] v12]|]; simpl in H;
    [|discriminate].
  destruct (CALC_COULOMB cfg); [|by injection H as <-].
  destruct (idx (qi e) i); simpl in H; [|discriminate].
  destruct (idx (q e) (aj g)); simpl in H; [|discriminate].
  destruct (CALC_COUL_RF cfg); simpl in H; [by injection H as <-|].
  destruct (to_int _); simpl in H; [|discriminate].
  repeat (match type of H with
          | context [idx ?a ?k] =>
              destruct (idx a k); simpl in H; [|discriminate]
          end).
  by injection H as <-.
Qed.

Lemma body_cases cfg e cj egp_cj type_i_off i j s s' :
  pair_body cfg e cj egp_cj type_i_off i j s = Some s' →
  (passes cfg e cj i j = false ∧ s' = s) ∨
  (passes cfg e cj i j = true ∧
   ∃ g t, pair_tests cfg e cj i j = Some (Go g) ∧
          pair_terms cfg e type_i_off i g = Some t ∧
          pair_accum cfg e egp_cj i j g t s = Some s').
Proof.
  unfold pair_body, passes.
  destruct (pair_tests cfg e cj i j) as [[|g]|]; simpl; [|..|discriminate].
  - intros [= <-]. by left.
  - destruct (pair_terms cfg e type_i_off i g) as [t|] eqn:Et; simpl;
      [|discriminate].
    intros H. right. split; [done|]. by exists g, t.
Qed.

(** ** X14 *)

(** X14, a build without [CALC_ENERGIES] never touches the energy
    accumulators: over a whole cluster pair, the two energy scalars and the
    two energy-group arrays are returned as they were given. *)
Theorem force_only_keeps_energies cfg e s s' :
  CALC_ENERGIES cfg = false →
  inner cfg e s = Some s' →
  Vvdw s' = Vvdw s ∧ Vvdw_ci s' = Vvdw_ci s ∧
  Vc s' = Vc s ∧ Vc_ci s' = Vc_ci s.
Proof.
  intros Hen. set (Rel := λ s1 s2 : acc real,
    Vvdw s2 = Vvdw s1 ∧ Vvdw_ci s2 = Vvdw_ci s1 ∧
    Vc s2 = Vc s1 ∧ Vc_ci s2 = Vc_ci s1).
  assert (Hrefl : ∀ s1, Rel s1 s1) by (by intros s1).
  assert (Htrans : ∀ s1 s2 s3, Rel s1 s2 → Rel s2 s3 → Rel s1 s3).
  { intros s1 s2 s3 (A1 & A2 & A3 & A4) (B1 & B2 & B3 & B4).
    unfold Rel. by rewrite B1, B2, B3, B4. }
  assert (Hpair : ∀ cj egp_cj type_i_off i j s1 s2,
    pair_body cfg e cj egp_cj type_i_off i j s1 = Some s2 → Rel s1 s2).
  { intros cj egp_cj type_i_off i j s1 s2 Hb.
    apply body_cases in Hb as [[_ ->] | [_ (g & t & _ & Ht & Ha)]];
      [apply Hrefl|].
    apply accum_scalars in Ha as (_ & Hv & Hc).
    destruct Hv as [? ?]; [by rewrite Hen, andb_false_r|].
    destruct Hc as [? ?]; [by eapply terms_no_energy|]. done. }
  unfold inner.
  destruct (idx (l_cj e) (cjind e)) as [cje|]; simpl; [|discriminate].
  destruct (if ENERGY_GROUPS cfg then _ else _) as [egp_cj|]; simpl;
    [|discriminate].
  apply (for_upto_rel Rel _ Hrefl Htrans). intros i s1 s2 _.
  unfold i_body. destruct (idx (type e) _) as [ty|]; simpl; [|discriminate].
  apply (for_upto_rel Rel _ Hrefl Htrans). intros j s3 s4 _. apply Hpair.
Qed.

(** ** X15 *)

Lemma passing_bounds cfg e cj :
  0 ≤ passing_pairs cfg e cj ≤
    Z.of_nat (Z.to_nat (UNROLLI cfg)) * Z.of_nat (Z.to_nat (UNROLLJ cfg)).
Proof.
  unfold passing_pairs. apply sumZ_bounds. intros i.
  pose proof (sumZ_bounds (λ j, if passes cfg e cj i j then 1 else 0) 1
                (Z.to_nat (UNROLLJ cfg)) 0) as H.
  rewrite Z.mul_1_r in H. apply H. intros k. by destruct (passes _ _ _ _ _).
Qed.

(** X15, the pair counter counts the pairs that pass the tests: in a build
    with [COUNT_PAIRS], a call adds to [npair] exactly the number of pairs
    of the cluster pair that are neither skipped as excluded or on the
    diagonal, nor outside the cut-off, nor at distance zero, which is at
    most [UNROLLI * UNROLLJ]; a build without it leaves [npair] alone. *)
Theorem pair_counter_counts cfg e s s' cje :
  idx (l_cj e) (cjind e) = Some cje →
  inner cfg e s = Some s' →
  npair s' =
    npair s + (if COUNT_PAIRS cfg then passing_pairs cfg e (c cje) else 0) ∧
  0 ≤ passing_pairs cfg e (c cje) ≤
    Z.of_nat (Z.to_nat (UNROLLI cfg)) * Z.of_nat (Z.to_nat (UNROLLJ cfg)).
Proof.
  intros Hcj Hin. split; [|apply passing_bounds].
  unfold inner in Hin. rewrite Hcj in Hin. simpl in Hin.
  destruct (if ENERGY_GROUPS cfg then _ else _) as [egp_cj|]; simpl in Hin;
    [|discriminate].
  set (cp := λ i j : Z,
    if COUNT_PAIRS cfg then (if passes cfg e (c cje) i j then 1 else 0)
    else 0).
  assert (Hpair : ∀ type_i_off i j s3 s4,
    pair_body cfg e (c cje) egp_cj type_i_off i j s3 = Some s4 →
    npair s4 = npair s3 + cp i j).
  { intros type_i_off i j s3 s4 Hj. unfold cp.
    apply body_cases in Hj as [[-> ->] | [-> (g & t & _ & _ & Ha)]].
    - destruct (COUNT_PAIRS cfg); lia.
    - apply accum_scalars in Ha as (-> & _). destruct (COUNT_PAIRS cfg); lia. }
  assert (Hrow : ∀ i s1 s2,
    i_body cfg e (c cje) egp_cj i s1 = Some s2 →
    npair s2 = npair s1 + sumZ (Z.to_nat (UNROLLJ cfg)) 0 (cp i)).
  { intros i s1 s2 Hi. unfold i_body in Hi.
    destruct (idx (type e) _) as [ty|]; simpl in Hi; [|discriminate].
    apply (for_upto_count npair (cp i) _ _ _ _ _
             (λ j s3 s4 _, Hpair _ i j s3 s4) Hi). }
  assert (Hsum : npair s' = npair s +
    sumZ (Z.to_nat (UNROLLI cfg)) 0
      (λ i, sumZ (Z.to_nat (UNROLLJ cfg)) 0 (cp i))).
  { apply (for_upto_count npair _ _ _ _ _ _
             (λ i s1 s2 _, Hrow i s1 s2) Hin). }
  rewrite Hsum. unfold cp, passing_pairs. destruct (COUNT_PAIRS cfg); [done|].
  rewrite (sumZ_ext _ (λ _, 0)) by (intros k; apply sumZ_zero).
  by rewrite sumZ_zero.
Qed.

(** ** X16 *)

Lemma upd_length {A : Type} (a a' : list A) (k : Z) (h : A → A) :
  upd a k h = Some a' → length a' = length a.
Proof. intros (v & _ & ->)%upd_Some. apply length_insert. Qed.

Lemma accum_energy_lengths cfg e egp_cj i j g t s s' :
  pair_accum cfg e egp_cj i j g t s = Some s' →
  length (Vvdw s') = length (Vvdw s) ∧ length (Vc s') = length (Vc s).
Proof.
  unfold pair_accum. intros H.
  destruct (if lj t && CALC_ENERGIES cfg then _ else _) as [[V1 V1c]|] eqn:E1;
    simpl in H; [|discriminate].
  destruct (match vcoul t with Some _ => _ | None => _ end)
    as [[V2 V2c]|] eqn:E2; simpl in H; [|discriminate].
  repeat (match type of H with
          | context [upd ?a ?k ?h] =>
              destruct (upd a k h); simpl in H; [|discriminate]
          end).
  injection H as <-. simpl. split.
  - destruct (lj t && CALC_ENERGIES cfg).
    + by eapply add_energy_off.
    + by injection E1 as <- <-.
  - destruct (vcoul t).
    + by eapply add_energy_off.
    + by injection E2 as <- <-.
Qed.

Lemma same_outside_refl cfg cj s : same_outside cfg cj s s.
Proof. by unfold same_outside. Qed.

Lemma same_outside_trans cfg cj s1 s2 s3 :
  same_outside cfg cj s1 s2 → same_outside cfg cj s2 s3 →
  same_outside cfg cj s1 s3.
Proof.
  intros ((A1 & A2 & A3 & A4) & A5 & A6) ((B1 & B2 & B3 & B4) & B5 & B6).
  split; [|split].
  - rewrite B1, B2, B3, B4. done.
  - intros n Hn. by rewrite B5, A5.
  - intros n Hn. by rewrite B6, A6.
Qed.

Lemma body_same_outside cfg e cj egp_cj type_i_off i j s s' :
  0 ≤ i < UNROLLI cfg → 0 ≤ j < UNROLLJ cfg →
  pair_body cfg e cj egp_cj type_i_off i j s = Some s' →
  same_outside cfg cj s s'.
Proof.
  intros Hi Hj Hb.
  apply body_cases in Hb as [[_ ->] | [_ (g & t & Hg & _ & Ha)]];
    [apply same_outside_refl|].
  apply tests_go_inv in Hg as (_ & Haj & _).
  destruct (accum_energy_lengths _ _ _ _ _ _ _ _ _ Ha) as [L3 L4].
  apply accum_forces in Ha
    as (fi0 & fi1 & f0 & f1 & I0 & I1 & I2 & J0 & J1 & J2).
  destruct (upd3_spec _ _ _ _ _ _ _ _ I0 I1 I2) as [_ Hfi].
  destruct (upd3_spec _ _ _ _ _ _ _ _ J0 J1 J2) as [_ Hf].
  split; [|split].
  - rewrite (upd_length _ _ _ _ I2), (upd_length _ _ _ _ I1),
      (upd_length _ _ _ _ I0), (upd_length _ _ _ _ J2),
      (upd_length _ _ _ _ J1), (upd_length _ _ _ _ J0). done.
  - intros n Hn. apply Hfi; lia.
  - intros n Hn. rewrite Haj in Hf. apply Hf; lia.
Qed.

(** X16, the writes of a call are confined to the two clusters: the lengths
    of the four arrays are kept, [fi] is changed in the slots
    [[0, 3*UNROLLI)] only, and the force buffer [f] in the slots of the
    [UNROLLJ] particles of cluster [cj] only; the force of every other
    particle is returned as it was given. *)
Theorem inner_writes_confined cfg e s s' cje :
  idx (l_cj e) (cjind e) = Some cje →
  inner cfg e s = Some s' →
  (length (fi s') = length (fi s) ∧ length (f s') = length (f s) ∧
   length (Vvdw s') = length (Vvdw s) ∧ length (Vc s') = length (Vc s)) ∧
  (∀ n, ¬ (0 ≤ n < 3 * UNROLLI cfg) → idx (fi s') n = idx (fi s) n) ∧
  (∀ n, ¬ (3 * (c cje * UNROLLJ cfg) ≤ n
           < 3 * (c cje * UNROLLJ cfg + UNROLLJ cfg)) →
        idx (f s') n = idx (f s) n).
Proof.
  intros Hcj Hin. unfold inner in Hin. rewrite Hcj in Hin. simpl in Hin.
  destruct (if ENERGY_GROUPS cfg then _ else _) as [egp_cj|]; simpl in Hin;
    [|discriminate].
  change (same_outside cfg (c cje) s s').
  revert Hin. apply (for_upto_rel (same_outside cfg (c cje)) _
                       (same_outside_refl cfg (c cje))
                       (same_outside_trans cfg (c cje))).
  intros i s1 s2 Hi. unfold i_body.
  destruct (idx (type e) _) as [ty|]; simpl; [|discriminate].
  apply (for_upto_rel (same_outside cfg (c cje)) _
           (same_outside_refl cfg (c cje))
           (same_outside_trans cfg (c cje))).
  intros j s3 s4 Hj. apply body_same_outside; lia.
Qed.

(** ** X17 *)

(** X17, a cluster pair none of whose pairs passes the tests (all excluded,
    on the diagonal, outside the cut-off or at distance zero) changes
    nothing: the call returns the accumulators it was given. *)
Theorem no_pair_no_change cfg e s s' cje :
  idx (l_cj e) (cjind e) = Some cje →
  (∀ i j, 0 ≤ i < UNROLLI cfg → 0 ≤ j < UNROLLJ cfg →
          passes cfg e (c cje) i j = false) →
  inner cfg e s = Some s' →
  s' = s.
Proof.
  intros Hcj Hno Hin. unfold inner in Hin. rewrite Hcj in Hin. simpl in Hin.
  destruct (if ENERGY_GROUPS cfg then _ else _) as [egp_cj|]; simpl in Hin;
    [|discriminate].
  symmetry. revert Hin.
  apply (for_upto_rel eq _ (λ s1, eq_refl)
           (λ s1 s2 s3 (H1 : s1 = s2) (H2 : s2 = s3), eq_trans H1 H2)).
  intros i s1 s2 Hi. unfold i_body.
  destruct (idx (type e) _) as [ty|]; simpl; [|discriminate].
  apply (for_upto_rel eq _ (λ s1, eq_refl)
           (λ s1 s2 s3 (H1 : s1 = s2) (H2 : s2 = s3), eq_trans H1 H2)).
  intros j s3 s4 Hj Hb.
  apply body_cases in Hb as [[_ ->] | [Hp _]]; [done|].
  rewrite Hno in Hp by lia. discriminate.
Qed.

(** ** X18 *)

Lemma add_energy_cases cfg e egp_cj i j (V V' : list real) (Vs Vs' v : real) :
  add_energy cfg e egp_cj i j V Vs v = Some (V', Vs') →
  (ENERGY_GROUPS cfg = true → Vs' = Vs) ∧
  (ENERGY_GROUPS cfg = false → V' = V).
Proof.
  unfold add_energy. destruct (ENERGY_GROUPS cfg).
  - destruct (idx (egp_sh_i e) i) as [sh|]; simpl; [|discriminate].
    destruct (upd V _ _) as [V1|]; simpl; [|discriminate].
    intros [= <- <-]. by split.
  - intros [= <- <-]. by split.
Qed.

Lemma accum_energy_cases cfg e egp_cj i j g t s s' :
  pair_accum cfg e egp_cj i j g t s = Some s' →
  (ENERGY_GROUPS cfg = true →
   Vvdw_ci s' = Vvdw_ci s ∧ Vc_ci s' = Vc_ci s) ∧
  (ENERGY_GROUPS cfg = false → Vvdw s' = Vvdw s ∧ Vc s' = Vc s).
Proof.
  unfold pair_accum. intros H.
  destruct (if lj t && CALC_ENERGIES cfg then _ else _) as [[V1 V1c]|] eqn:E1;
    simpl in H; [|discriminate].
  destruct (match vcoul t with Some _ => _ | None => _ end)
    as [[V2 V2c]|] eqn:E2; simpl in H; [|discriminate].
  repeat (match type of H with
          | context [upd ?a ?k ?h] =>
              destruct (upd a k h); simpl in H; [|discriminate]
          end).
  injection H as <-. simpl.
  assert (H1 : (ENERGY_GROUPS cfg = true → V1c = Vvdw_ci s) ∧
               (ENERGY_GROUPS cfg = false → V1 = Vvdw s)).
  { destruct (lj t && CALC_ENERGIES cfg).
    - by eapply add_energy_cases.
    - by injection E1 as <- <-. }
  assert (H2 : (ENERGY_GROUPS cfg = true → V2c = Vc_ci s) ∧
               (ENERGY_GROUPS cfg = false → V2 = Vc s)).
  { destruct (vcoul t).
    - by eapply add_energy_cases.
    - by injection E2 as <- <-. }
  destruct H1 as [A1 B1], H2 as [A2 B2]. split; intros Hg; split; auto.
Qed.

(** X18, the two ways of keeping the energies exclude each other: a build
    with [ENERGY_GROUPS] never writes the scalars [Vvdw_ci] and [Vc_ci], and
    a build without it never writes the arrays [Vvdw] and [Vc]. *)
Theorem energy_groups_exclusive cfg e s s' :
  inner cfg e s = Some s' →
  (ENERGY_GROUPS cfg = true →
   Vvdw_ci s' = Vvdw_ci s ∧ Vc_ci s' = Vc_ci s) ∧
  (ENERGY_GROUPS cfg = false → Vvdw s' = Vvdw s ∧ Vc s' = Vc s).
Proof.
  set (Rel := λ s1 s2 : acc real,
    (ENERGY_GROUPS cfg = true →
     Vvdw_ci s2 = Vvdw_ci s1 ∧ Vc_ci s2 = Vc_ci s1) ∧
    (ENERGY_GROUPS cfg = false → Vvdw s2 = Vvdw s1 ∧ Vc s2 = Vc s1)).
  assert (Hrefl : ∀ s1, Rel s1 s1) by (by intros s1).
  assert (Htrans : ∀ s1 s2 s3, Rel s1 s2 → Rel s2 s3 → Rel s1 s3).
  { intros s1 s2 s3 [A1 A2] [B1 B2]. split; intros Hg.
    - destruct (A1 Hg) as [<- <-]. by apply B1.
    - destruct (A2 Hg) as [<- <-]. by apply B2. }
  unfold inner.
  destruct (idx (l_cj e) (cjind e)) as [cje|]; simpl; [|discriminate].
  destruct (if ENERGY_GROUPS cfg then _ else _) as [egp_cj|]; simpl;
    [|discriminate].
  apply (for_upto_rel Rel _ Hrefl Htrans). intros i s1 s2 _.
  unfold i_body. destruct (idx (type e) _) as [ty|]; simpl; [|discriminate].
  apply (for_upto_rel Rel _ Hrefl Htrans). intros j s3 s4 _ Hb.
  apply body_cases in Hb as [[_ ->] | [_ (g & t & _ & _ & Ha)]];
    [apply Hrefl|].
  by eapply accum_energy_cases.
Qed.

End generic.

(** ** X19 *)

Lemma idx_defined {A : Type} (a : list A) (k : Z) :
  0 ≤ k < Z.of_nat (length a) → ∃ v, idx a k = Some v.
Proof.
  intros Hk. destruct (lookup_lt_is_Some_2 a (Z.to_nat k)) as [v Hv]; [lia|].
  exists v. apply idx_Some. split; [lia | done].
Qed.

Lemma upd_defined {A : Type} (a : list A) (k : Z) (h : A → A) :
  0 ≤ k < Z.of_nat (length a) →
  ∃ a', upd a k h = Some a' ∧ length a' = length a.
Proof.
  intros Hk. destruct (idx_defined a k Hk) as [v Hv].
  exists (<[Z.to_nat k := h v]> a). split; [|apply length_insert].
  apply upd_Some. by exists v.
Qed.

Lemma idx_elem {A : Type} (a : list A) (k : Z) (v : A) :
  idx a k = Some v → v ∈ a.
Proof. intros [_ H]%idx_Some. by eapply list_elem_of_lookup_2. Qed.

(** The sizes of the arrays that a call for the cluster pair [(ci, cj)]
    relies on, in a build without energy groups and without the Coulomb
    table. *)
Section sizes.
Context {real : Type} {RO : RealOps real}.
Variables (cfg : config) (e : env real) (cje : nbnxn_cj_t).
Hypothesis no_groups : ENERGY_GROUPS cfg = false.
Hypothesis no_table : CALC_COULOMB cfg = true → CALC_COUL_RF cfg = true.
Hypothesis mask_bits :
  CHECK_EXCLS cfg = true → (UNROLLI cfg - 1) * UNROLLI cfg + UNROLLJ cfg ≤ 32.
Hypothesis entry : idx (l_cj e) (cjind e) = Some cje.
Hypothesis ci_pos : 0 ≤ ci e.
Hypothesis cj_pos : 0 ≤ c cje.
Hypothesis size_xi : 3 * UNROLLI cfg ≤ Z.of_nat (length (xi e)).
Hypothesis size_x :
  3 * ((c cje + 1) * UNROLLJ cfg) ≤ Z.of_nat (length (x e)).
Hypothesis size_type_i :
  (ci e + 1) * UNROLLI cfg ≤ Z.of_nat (length (type e)).
Hypothesis size_type_j :
  (c cje + 1) * UNROLLJ cfg ≤ Z.of_nat (length (type e)).
Hypothesis size_nbfp :
  ∀ ti tj, ti ∈ type e → tj ∈ type e →
    0 ≤ ti * ntype2 e + tj * 2 ∧
    ti * ntype2 e + tj * 2 + 1 < Z.of_nat (length (nbfp e)).
Hypothesis size_q :
  CALC_COULOMB cfg = true →
  UNROLLI cfg ≤ Z.of_nat (length (qi e)) ∧
  (c cje + 1) * UNROLLJ cfg ≤ Z.of_nat (length (q e)).

Lemma tests_defined i j :
  0 ≤ i < UNROLLI cfg → 0 ≤ j < UNROLLJ cfg →
  ∃ k, pair_tests cfg e (c cje) i j = Some k.
Proof using All.
  intros Hi Hj.
  assert (Hia : ∃ ia, interact_of cfg e i j = Some ia).
  { unfold interact_of, interact_bit.
    destruct (CHECK_EXCLS cfg) eqn:Hc; [|by eexists].
    rewrite entry. simpl. specialize (mask_bits eq_refl).
    case_decide as Hsh; [by eexists|]. exfalso. apply Hsh. nia. }
  destruct Hia as [ia Hia]. unfold pair_tests. rewrite Hia. simpl.
  repeat (case_match; [by eexists|]).
  unfold pair_dist.
  destruct (idx_defined (xi e) (i * 3 + 0)) as [a0 ->]; [lia|].
  destruct (idx_defined (x e) ((c cje * UNROLLJ cfg + j) * 3 + 0))
    as [b0 ->]; [nia|].
  destruct (idx_defined (xi e) (i * 3 + 1)) as [a1 ->]; [lia|].
  destruct (idx_defined (x e) ((c cje * UNROLLJ cfg + j) * 3 + 1))
    as [b1 ->]; [nia|].
  destruct (idx_defined (xi e) (i * 3 + 2)) as [a2 ->]; [lia|].
  destruct (idx_defined (x e) ((c cje * UNROLLJ cfg + j) * 3 + 2))
    as [b2 ->]; [nia|].
  simpl. repeat (case_match; [by eexists|]). by eexists.
Qed.

Lemma terms_defined i j ty g :
  0 ≤ i < UNROLLI cfg → 0 ≤ j < UNROLLJ cfg →
  ty ∈ type e →
  aj g = c cje * UNROLLJ cfg + j →
  ∃ t, pair_terms cfg e (ty * ntype2 e) i g = Some t.
Proof using All.
  intros Hi Hj Hty Haj.
  assert (Hlj : ∃ r, lj_block cfg e (ty * ntype2 e) i g
                       (gmx_invsqrt (rsq g) * gmx_invsqrt (rsq g))%real
                     = Some r).
  { unfold lj_block. case_match; [by eexists|].
    destruct (idx_defined (type e) (aj g)) as [tj Htj]; [rewrite Haj; nia|].
    rewrite Htj. simpl.
    destruct (size_nbfp ty tj Hty (idx_elem _ _ _ Htj)) as [Hlo Hhi].
    destruct (idx_defined (nbfp e) (ty * ntype2 e + tj * 2)) as [c6 ->];
      [lia|].
    destruct (idx_defined (nbfp e) (ty * ntype2 e + tj * 2 + 1)) as [c12 ->];
      [lia|].
    by eexists. }
  destruct Hlj as [[[l v6] v12] Hlj]. unfold pair_terms. rewrite Hlj. simpl.
  destruct (CALC_COULOMB cfg) eqn:Hq; [|by eexists].
  destruct (size_q eq_refl) as [Hqi Hqj].
  unfold coul_block. rewrite (no_table eq_refl).
  destruct (idx_defined (qi e) i) as [qa ->]; [lia|].
  destruct (idx_defined (q e) (aj g)) as [qb ->]; [rewrite Haj; nia|].
  simpl. by eexists.
Qed.

Lemma accum_defined egp_cj i j g t s :
  0 ≤ i < UNROLLI cfg → 0 ≤ j < UNROLLJ cfg →
  aj g = c cje * UNROLLJ cfg + j →
  room cfg (c cje) s →
  ∃ s', pair_accum cfg e egp_cj i j g t s = Some s' ∧ room cfg (c cje) s'.
Proof using All.
  intros Hi Hj Haj [Hfi Hf]. unfold pair_accum, add_energy.
  rewrite no_groups.
  destruct (upd_defined (fi s) (i * 3 + 0) (λ o, o + fx t)%real)
    as (fi0 & I0 & L0); [lia|].
  destruct (upd_defined fi0 (i * 3 + 1) (λ o, o + fy t)%real)
    as (fi1 & I1 & L1); [lia|].
  destruct (upd_defined fi1 (i * 3 + 2) (λ o, o + fz t)%real)
    as (fi2 & I2 & L2); [lia|].
  destruct (upd_defined (f s) (aj g * 3 + 0) (λ o, o - fx t)%real)
    as (f0 & J0 & M0); [rewrite Haj; nia|].
  destruct (upd_defined f0 (aj g * 3 + 1) (λ o, o - fy t)%real)
    as (f1 & J1 & M1); [rewrite Haj; nia|].
  destruct (upd_defined f1 (aj g * 3 + 2) (λ o, o - fz t)%real)
    as (f2 & J2 & M2); [rewrite Haj; nia|].
  destruct (lj t && CALC_ENERGIES cfg); destruct (vcoul t); simpl;
    rewrite I0; simpl; rewrite I1; simpl; rewrite I2; simpl;
    rewrite J0; simpl; rewrite J1; simpl; rewrite J2; simpl;
    (eexists; split; [reflexivity|]); unfold room; simpl; lia.
Qed.

Lemma body_defined egp_cj i j ty s :
  0 ≤ i < UNROLLI cfg → 0 ≤ j < UNROLLJ cfg →
  ty ∈ type e →
  room cfg (c cje) s →
  ∃ s', pair_body cfg e (c cje) egp_cj (ty * ntype2 e) i j s = Some s' ∧
        room cfg (c cje) s'.
Proof using All.
  intros Hi Hj Hty Hs. unfold pair_body.
  destruct (tests_defined i j Hi Hj) as [[|g] Hk]; rewrite Hk; simpl.
  - by exists s.
  - apply tests_go_inv in Hk as (_ & Haj & _).
    destruct (terms_defined i j ty g Hi Hj Hty Haj) as [t ->]. simpl.
    by apply accum_defined.
Qed.

(** X19, no access out of bounds: in a build without energy groups and
    without the Coulomb table, when the coordinate, type, charge and force
    arrays hold the particles of the two clusters, the parameter array holds
    the two parameters of every pair of types and (with [CHECK_EXCLS]) the
    shifts of the mask stay below 32, every read and every write of a call
    is inside its array and the call returns. *)
Theorem inner_defined (s : acc real) :
  3 * UNROLLI cfg ≤ Z.of_nat (length (fi s)) →
  3 * ((c cje + 1) * UNROLLJ cfg) ≤ Z.of_nat (length (f s)) →
  ∃ s', inner cfg e s = Some s'.
Proof using All.
  intros Hfi Hf. unfold inner. rewrite entry, no_groups. simpl.
  destruct (for_upto_defined (room cfg (c cje)) (i_body cfg e (c cje) 0)
              (Z.to_nat (UNROLLI cfg)) 0 s) as (s' & Hs' & _).
  - by split.
  - intros i s1 Hi Hs1. unfold i_body.
    destruct (idx_defined (type e) (ci e * UNROLLI cfg + i)) as [ty Hty];
      [nia|].
    rewrite Hty. simpl.
    apply (for_upto_defined (room cfg (c cje))); [done|].
    intros j s2 Hj Hs2. apply body_defined; [lia | lia | | done].
    by eapply idx_elem.
  - by exists s'.
Qed.

End sizes.

(** ** Exact arithmetic *)
Section exact.
#[local] Open Scope R_scope.
Implicit Types (cfg : config) (e : env R) (s : acc R) (g : geom R)
  (t : terms R).

(** ** X20 *)

Lemma csum_insert (k : nat) (l : list R) :
  ∀ (pos n : nat) (v w : R),
    l !! n = Some v →
    csum k pos (<[n := w]> l) =
      csum k pos l + (if ((pos + n) mod 3 =? k)%nat then w - v else 0).
Proof.
  induction l as [|a l IH]; intros pos n v w Hn; [done|].
  destruct n as [|n].
  - injection Hn as ->. change (<[0%nat := w]> (v :: l)) with (w :: l).
    cbn [csum]. rewrite Nat.add_0_r. destruct (_ =? _)%nat; ring.
  - change (<[S n := w]> (a :: l)) with (a :: <[n := w]> l).
    cbn [csum]. rewrite (IH (S pos) n v w Hn).
    replace (S pos + n)%nat with (pos + S n)%nat by lia. ring.
Qed.

Lemma slot_mod (b c : Z) :
  (0 ≤ b * 3 + c)%Z → (0 ≤ c < 3)%Z →
  (Z.to_nat (b * 3 + c) mod 3 = Z.to_nat c)%nat.
Proof.
  intros Hk Hc.
  replace (Z.to_nat (b * 3 + c)) with (Z.to_nat c + Z.to_nat b * 3)%nat
    by lia.
  rewrite Nat.Div0.mod_add. apply Nat.mod_small. lia.
Qed.

Lemma csum_upd (k : nat) (a a' : list R) (b c : Z) (h : R → R) (d : R) :
  (0 ≤ c < 3)%Z → (∀ v, h v - v = d) →
  upd a (b * 3 + c) h = Some a' →
  csum k 0 a' = csum k 0 a + (if (Z.to_nat c =? k)%nat then d else 0).
Proof.
  intros Hc Hh (v & Hv & ->)%upd_Some. apply idx_Some in Hv as [Hk Hv].
  rewrite (csum_insert k a 0 _ v _ Hv). rewrite Nat.add_0_l.
  rewrite slot_mod by done. by rewrite Hh.
Qed.

Lemma csum_add (k : nat) (a a' : list R) (b c : Z) (d : R) :
  (0 ≤ c < 3)%Z →
  upd a (b * 3 + c) (λ o, o + d) = Some a' →
  csum k 0 a' = csum k 0 a + (if (Z.to_nat c =? k)%nat then d else 0).
Proof. intros Hc. apply csum_upd; [done|]. intros v. ring. Qed.

Lemma csum_sub (k : nat) (a a' : list R) (b c : Z) (d : R) :
  (0 ≤ c < 3)%Z →
  upd a (b * 3 + c) (λ o, o - d) = Some a' →
  csum k 0 a' = csum k 0 a + (if (Z.to_nat c =? k)%nat then - d else 0).
Proof. intros Hc. apply csum_upd; [done|]. intros v. ring. Qed.

Lemma accum_conserves cfg e egp_cj i j g t s s' (k : nat) :
  pair_accum cfg e egp_cj i j g t s = Some s' →
  total_force k s' = total_force k s.
Proof.
  intros Ha. apply accum_forces in Ha
    as (fi0 & fi1 & f0 & f1 & I0 & I1 & I2 & J0 & J1 & J2).
  unfold total_force.
  rewrite (csum_add k _ _ _ 2 _ ltac:(lia) I2).
  rewrite (csum_add k _ _ _ 1 _ ltac:(lia) I1).
  rewrite (csum_add k _ _ _ 0 _ ltac:(lia) I0).
  rewrite (csum_sub k _ _ _ 2 _ ltac:(lia) J2).
  rewrite (csum_sub k _ _ _ 1 _ ltac:(lia) J1).
  rewrite (csum_sub k _ _ _ 0 _ ltac:(lia) J0).
  destruct k as [|[|[|k]]]; simpl; ring.
Qed.

(** X20, conservation of the total force: in exact arithmetic a call leaves
    each of the three components of the sum of all the entries of [fi] and
    [f] as it was; what the pairs add to the particles of the i-cluster they
    take from the particles of the j-cluster. *)
Theorem total_force_conserved cfg e s s' (k : nat) :
  inner cfg e s = Some s' →
  total_force k s' = total_force k s.
Proof.
  set (Rel := λ s1 s2 : acc R, total_force k s2 = total_force k s1).
  assert (Hrefl : ∀ s1, Rel s1 s1) by done.
  assert (Htrans : ∀ s1 s2 s3, Rel s1 s2 → Rel s2 s3 → Rel s1 s3).
  { unfold Rel. intros s1 s2 s3 H1 H2. by rewrite H2. }
  unfold inner.
  destruct (idx (l_cj e) (cjind e)) as [cje|]; simpl; [|discriminate].
  destruct (if ENERGY_GROUPS cfg then _ else _) as [egp_cj|]; simpl;
    [|discriminate].
  apply (for_upto_rel Rel _ Hrefl Htrans). intros i s1 s2 _.
  unfold i_body. destruct (idx (type e) _) as [ty|]; simpl; [|discriminate].
  apply (for_upto_rel Rel _ Hrefl Htrans). intros j s3 s4 _ Hb.
  apply body_cases in Hb as [[_ ->] | [_ (g & t & _ & _ & Ha)]];
    [apply Hrefl|].
  by eapply accum_conserves.
Qed.

(** ** X21 *)

(** X21, the force of an excluded pair under reaction field: in exact
    arithmetic, a pair whose mask bit is 0 and that is evaluated (off the
    diagonal, inside the cut-off, not at distance zero) has no Van der Waals
    term and no direct Coulomb term; its force is the reaction field term
    alone, [-qq*k_rf2] times the distance vector. *)
Theorem excluded_pair_force cfg e cj type_i_off i j g t :
  CHECK_EXCLS cfg = true →
  CALC_COULOMB cfg = true →
  CALC_COUL_RF cfg = true →
  interact_bit cfg e i j = Some 0%Z →
  pair_tests cfg e cj i j = Some (Go g) →
  pair_terms cfg e type_i_off i g = Some t →
  ∃ qa qb,
    idx (qi e) i = Some qa ∧ idx (q e) (aj g) = Some qb ∧
    Vvdw6 t = 0 ∧ Vvdw12 t = 0 ∧
    fx t = - (qa * qb * k_rf2 e) * dx g ∧
    fy t = - (qa * qb * k_rf2 e) * dy g ∧
    fz t = - (qa * qb * k_rf2 e) * dz g.
Proof.
  intros Hc Hq Hrf Hbit Hg Ht.
  destruct (tests_go_inv cfg e cj i j g Hg) as (Hia & _).
  unfold interact_of in Hia. rewrite Hc, Hbit in Hia. injection Hia as Hia.
  unfold pair_terms, lj_block, coul_block in Ht.
  rewrite Hq, Hrf, <- Hia in Ht.
  destruct (HALF_LJ cfg && negb (i <? Z.quot (UNROLLI cfg) 2)%Z);
    simpl in Ht.
  - destruct (idx (qi e) i) as [qa|]; simpl in Ht; [|discriminate].
    destruct (idx (q e) (aj g)) as [qb|]; simpl in Ht; [|discriminate].
    injection Ht as <-. exists qa, qb. simpl.
    repeat split; try reflexivity; ring.
  - destruct (idx (type e) (aj g)) as [tj|]; simpl in Ht; [|discriminate].
    repeat (match type of Ht with
            | context [idx (nbfp e) ?k] =>
                destruct (idx (nbfp e) k); simpl in Ht; [|discriminate]
            end).
    destruct (idx (qi e) i) as [qa|]; simpl in Ht; [|discriminate].
    destruct (idx (q e) (aj g)) as [qb|]; simpl in Ht; [|discriminate].
    injection Ht as <-. exists qa, qb. simpl.
    repeat split; try reflexivity; ring.
Qed.

(** ** X22 *)

(** In a build without Coulomb interactions every pair that passes the tests
    has [interact = 1]. *)
Lemma no_coulomb_interact {real : Type} {RO : RealOps real} cfg
    (e : env real) cj i j (g : geom real) :
  CALC_COULOMB cfg = false →
  pair_tests cfg e cj i j = Some (Go g) →
  interact g = 1%Z.
Proof.
  intros Hq Hg. pose proof (tests_go_inv cfg e cj i j g Hg) as (Hia & _).
  pose proof (interact_of_01 cfg e i j _ Hia) as [H0 | H1]; [|done].
  exfalso. destruct (CHECK_EXCLS cfg) eqn:Hc.
  - revert Hg. unfold pair_tests, EXCL_FORCES. rewrite Hia, Hc, Hq, H0.
    simpl. discriminate.
  - unfold interact_of in Hia. rewrite Hc in Hia. injection Hia as Hia. lia.
Qed.

Lemma lj_energy_derivative (c6 c12 u : R) :
  0 < u →
  derivable_pt_lim (lj_energy c6 c12) u (- (c12 / u ^ 7 - c6 / u ^ 4) / 2).
Proof.
  intros Hu.
  assert (H6 : u ^ 6 ≠ 0) by (apply pow_nonzero; lra).
  assert (H3 : u ^ 3 ≠ 0) by (apply pow_nonzero; lra).
  pose proof (derivable_pt_lim_minus _ _ u _ _
    (derivable_pt_lim_div _ _ u _ _
       (derivable_pt_lim_const (c12 / 12) u) (derivable_pt_lim_pow u 6) H6)
    (derivable_pt_lim_div _ _ u _ _
       (derivable_pt_lim_const (c6 / 6) u) (derivable_pt_lim_pow u 3) H3))
    as H.
  replace (- (c12 / u ^ 7 - c6 / u ^ 4) / 2)
    with ((0 * u ^ 6 - INR 6 * u ^ Init.Nat.pred 6 * fct_cte (c12 / 12) u)
            / (u ^ 6)²
          - (0 * u ^ 3 - INR 3 * u ^ Init.Nat.pred 3 * fct_cte (c6 / 6) u)
            / (u ^ 3)²).
  - exact H.
  - unfold Rsqr, fct_cte. simpl. field. lra.
Qed.

(** X22, the Van der Waals pair in closed form: in exact arithmetic, in a
    build without Coulomb interactions and without [HALF_LJ], a pair at
    squared distance [u > 0] that passes the tests has the energy
    [Vvdw12/12 - Vvdw6/6 = c12/(12 u^6) - c6/(6 u^3)] and the force
    [(c12/u^7 - c6/u^4)] times the distance vector, which is minus the
    gradient of that energy: the derivative of the energy in [u] times
    [-2 (dx, dy, dz)]. *)
Theorem lj_force_is_energy_gradient cfg e cj type_i_off i j g tj c6 c12 :
  CALC_COULOMB cfg = false →
  HALF_LJ cfg = false →
  pair_tests cfg e cj i j = Some (Go g) →
  idx (type e) (aj g) = Some tj →
  idx (nbfp e) (type_i_off + tj * 2) = Some c6 →
  idx (nbfp e) (type_i_off + tj * 2 + 1) = Some c12 →
  0 < rsq g →
  ∃ t dV,
    pair_terms cfg e type_i_off i g = Some t ∧
    Vvdw12 t / 12 - Vvdw6 t / 6 = lj_energy c6 c12 (rsq g) ∧
    derivable_pt_lim (lj_energy c6 c12) (rsq g) dV ∧
    dV = - (c12 / rsq g ^ 7 - c6 / rsq g ^ 4) / 2 ∧
    fx t = - 2 * dV * dx g ∧ fy t = - 2 * dV * dy g ∧
    fz t = - 2 * dV * dz g.
Proof.
  intros Hq Hh Hg Htj H6 H12 Hu.
  pose proof (no_coulomb_interact cfg e cj i j g Hq Hg) as Hia.
  unfold pair_terms, lj_block. rewrite Hh, Hq, Htj. simpl.
  rewrite H6. simpl. rewrite H12. simpl. rewrite Hia.
  eexists. exists (- (c12 / rsq g ^ 7 - c6 / rsq g ^ 4) / 2).
  split; [reflexivity|]. simpl.
  assert (Hs : 0 < R_sqrt.sqrt (rsq g)) by (by apply sqrt_lt_R0).
  assert (Hinv : / R_sqrt.sqrt (rsq g) * / R_sqrt.sqrt (rsq g) = / rsq g).
  { rewrite <- Rinv_mult, sqrt_sqrt by lra. reflexivity. }
  rewrite Hinv.
  split; [unfold lj_energy; field; lra|].
  split; [by apply lj_energy_derivative|].
  split; [reflexivity|].
  repeat split; field; lra.
Qed.

(** ** X23 *)

Lemma rf_energy_derivative (qq k c u : R) :
  0 < u →
  derivable_pt_lim (rf_energy qq k c) u
    (qq * (- / (2 * (u * R_sqrt.sqrt u)) + k)).
Proof.
  intros Hu.
  assert (Hs : 0 < R_sqrt.sqrt u) by (by apply sqrt_lt_R0).
  assert (Hs0 : R_sqrt.sqrt u ≠ 0) by lra.
  assert (Hss : R_sqrt.sqrt u * R_sqrt.sqrt u = u) by (apply sqrt_sqrt; lra).
  pose proof (derivable_pt_lim_scal _ qq u _
    (derivable_pt_lim_minus _ _ u _ _
       (derivable_pt_lim_plus _ _ u _ _
          (derivable_pt_lim_div _ _ u _ _
             (derivable_pt_lim_const 1 u) (derivable_pt_lim_sqrt u Hu) Hs0)
          (derivable_pt_lim_scal _ k u _ (derivable_pt_lim_id u)))
       (derivable_pt_lim_const c u))) as H.
  replace (qq * (- / (2 * (u * R_sqrt.sqrt u)) + k))
    with (qq * ((0 * R_sqrt.sqrt u - / (2 * R_sqrt.sqrt u) * fct_cte 1 u)
                  / (R_sqrt.sqrt u)² + k * 1 - 0)).
  - exact H.
  - unfold Rsqr, fct_cte. rewrite Hss. field. lra.
Qed.

(** X23, forces and energies agree under reaction field: in exact
    arithmetic, in a build with reaction field, energies and no [HALF_LJ], a
    pair with [interact = 1] at squared distance [u > 0] adds the energies
    [lj_energy c6 c12 u] and [rf_energy qq k_rf c_rf u], and, when the
    caller's [k_rf2] is [2*k_rf], its force is minus the gradient of their
    sum: the derivative of the energy in [u] times [-2 (dx, dy, dz)]. *)
Theorem rf_force_is_energy_gradient
    cfg e cj type_i_off i j g tj c6 c12 qa qb :
  CALC_COULOMB cfg = true →
  CALC_COUL_RF cfg = true →
  CALC_ENERGIES cfg = true →
  HALF_LJ cfg = false →
  pair_tests cfg e cj i j = Some (Go g) →
  interact g = 1%Z →
  idx (type e) (aj g) = Some tj →
  idx (nbfp e) (type_i_off + tj * 2) = Some c6 →
  idx (nbfp e) (type_i_off + tj * 2 + 1) = Some c12 →
  idx (qi e) i = Some qa →
  idx (q e) (aj g) = Some qb →
  0 < rsq g →
  k_rf2 e = 2 * k_rf e →
  ∃ t vc dVv dVc,
    pair_terms cfg e type_i_off i g = Some t ∧
    Vvdw12 t / 12 - Vvdw6 t / 6 = lj_energy c6 c12 (rsq g) ∧
    vcoul t = Some vc ∧
    vc = rf_energy (qa * qb) (k_rf e) (c_rf e) (rsq g) ∧
    derivable_pt_lim (lj_energy c6 c12) (rsq g) dVv ∧
    derivable_pt_lim (rf_energy (qa * qb) (k_rf e) (c_rf e)) (rsq g) dVc ∧
    fx t = - 2 * (dVv + dVc) * dx g ∧
    fy t = - 2 * (dVv + dVc) * dy g ∧
    fz t = - 2 * (dVv + dVc) * dz g.
Proof.
  intros Hq Hrf Hen Hh Hg Hia Htj H6 H12 Ha Hb Hu Hk.
  unfold pair_terms, lj_block, coul_block.
  rewrite Hh, Hq, Hrf, Hen, Htj. simpl. rewrite H6. simpl. rewrite H12.
  simpl. rewrite Ha. simpl. rewrite Hb. simpl. rewrite Hia, Hk.
  assert (Hs : 0 < R_sqrt.sqrt (rsq g)) by (by apply sqrt_lt_R0).
  assert (Hss : R_sqrt.sqrt (rsq g) * R_sqrt.sqrt (rsq g) = rsq g)
    by (apply sqrt_sqrt; lra).
  assert (Hinv : / R_sqrt.sqrt (rsq g) * / R_sqrt.sqrt (rsq g) = / rsq g).
  { rewrite <- Rinv_mult, Hss. reflexivity. }
  eexists. eexists.
  exists (- (c12 / rsq g ^ 7 - c6 / rsq g ^ 4) / 2).
  exists (qa * qb * (- / (2 * (rsq g * R_sqrt.sqrt (rsq g))) + k_rf e)).
  split; [reflexivity|]. simpl. rewrite !Hinv.
  split; [unfold lj_energy; field; lra|].
  split; [reflexivity|].
  split; [unfold rf_energy; field; lra|].
  split; [by apply lj_energy_derivative|].
  split; [by apply rf_energy_derivative|].
  repeat split; field; lra.
Qed.

(** ** X24 *)

Lemma Int_part_mono (a b : R) : a <= b → (Int_part a ≤ Int_part b)%Z.
Proof.
  intros H. destruct (base_Int_part a) as [A1 A2].
  destruct (base_Int_part b) as [B1 B2].
  assert (H1 : IZR (Int_part a) < IZR (Int_part b + 1))
    by (rewrite plus_IZR; lra).
  apply lt_IZR in H1. lia.
Qed.

Lemma Int_part_nonneg (a : R) : 0 <= a → (0 ≤ Int_part a)%Z.
Proof.
  intros H. destruct (base_Int_part a) as [A1 A2].
  assert (H1 : IZR (-1) < IZR (Int_part a)) by lra.
  apply lt_IZR in H1. lia.
Qed.

(** [rsq*rinv] is the distance. *)
Lemma rsq_rinv (u : R) : 0 <= u → u * / R_sqrt.sqrt u = R_sqrt.sqrt u.
Proof.
  intros [Hu | <-].
  - assert (Hs : 0 < R_sqrt.sqrt u) by (by apply sqrt_lt_R0).
    rewrite <- (sqrt_sqrt u) at 1 by lra. field. lra.
  - rewrite sqrt_0. ring.
Qed.

(** X24, the index of the Coulomb table, in exact arithmetic and in double
    precision.  In exact arithmetic, in a build with the table, for a pair
    that passes the tests the index [ri] is the integer part of the distance
    times [tabq_scale], it is at most the integer part [n] of the cut-off
    distance times [tabq_scale], [frac] is in [[0, 1)], and with a table of
    [4*(n + 1)] entries the Coulomb block is defined, its force being the
    interpolation [F[ri] + frac*D[ri]] of the table.  The compiled kernel
    does not inherit the bound: in double precision, with the cut-off
    [rcut2 = 4 - 2^-51] and [tabq_scale = 1] (so that [n = 1]), the pair at
    distance [2 - 2^-52] passes the cut-off test ([rsq] is [4 - 2^-50]), but
    [rsq*rinv] rounds to 2, [ri] is 2, and the read of entry 8 of a table of
    [4*(n + 1) = 8] entries is out of bounds. *)
Theorem table_index_exact_not_double :
  (∀ cfg e cj i j g qa qb,
     CALC_COUL_RF cfg = false →
     pair_tests cfg e cj i j = Some (Go g) →
     idx (qi e) i = Some qa →
     idx (q e) (aj g) = Some qb →
     0 <= tabq_scale e →
     let rinv := / R_sqrt.sqrt (rsq g) in
     let rs := R_sqrt.sqrt (rsq g) * tabq_scale e in
     let n := Int_part (R_sqrt.sqrt (rcut2 e) * tabq_scale e) in
     (n ≤ INT_MAX)%Z →
     (4 * (n + 1) ≤ Z.of_nat (length (tab_coul_FDV0 e)))%Z →
     ∃ ri tabF tabD fc vc,
       coul_block cfg e i g rinv (rinv * rinv) = Some (fc, vc) ∧
       ri = Int_part rs ∧ (0 ≤ ri ≤ n)%Z ∧
       0 <= rs - IZR ri < 1 ∧
       idx (tab_coul_FDV0 e) (ri * 4) = Some tabF ∧
       idx (tab_coul_FDV0 e) (ri * 4 + 1) = Some tabD ∧
       fc = (IZR (interact g) * (rinv * rinv) - (tabF + (rs - IZR ri) * tabD))
            * (qa * qb * rinv)) ∧
  (∃ (gd : geom float) (u c : Q),
     pair_tests cfg_tab env_edge 1 0 0 = Some (Go gd) ∧
     float_value (rsq gd) = Some u ∧ (u == 4 - (1 # 2 ^ 50))%Q ∧
     float_value (rcut2 env_edge) = Some c ∧ (c == 4 - (1 # 2 ^ 51))%Q ∧
     tabq_scale env_edge = 1%float ∧
     Int_part (R_sqrt.sqrt (4 - / 2 ^ 51) * 1) = 1%Z ∧
     length (tab_coul_FDV0 env_edge) = 8%nat ∧
     to_int (rsq gd * gmx_invsqrt (rsq gd) * tabq_scale env_edge)%real
       = Some 2%Z ∧
     idx (tab_coul_FDV0 env_edge) (2 * 4) = None ∧
     pair_body cfg_tab env_edge 1 0 0 0 0 (acc_zero 8) = None ∧
     inner cfg_tab env_edge (acc_zero 8) = None).
Proof.
  split.
  - intros cfg e cj i j g qa qb Hrf Hg Ha Hb Hsc rinv rs n Hn Hlen.
    destruct (tests_go_inv cfg e cj i j g Hg) as (_ & _ & Hd & Hcut).
    apply dist_rsq in Hd. simpl in Hd.
    assert (Hu : 0 <= rsq g) by (rewrite Hd; nra).
    assert (Hlt : rsq g <= rcut2 e).
    { simpl in Hcut. destruct (Rle_dec (rcut2 e) (rsq g)); [discriminate|lra]. }
    assert (Hrs : (rsq g * rinv * tabq_scale e)%real = rs).
    { unfold rs, rinv. simpl. by rewrite rsq_rinv. }
    assert (Hrs0 : 0 <= rs).
    { unfold rs. apply Rmult_le_pos; [apply sqrt_pos | done]. }
    assert (Hri0 : (0 ≤ Int_part rs)%Z) by (by apply Int_part_nonneg).
    assert (Hrin : (Int_part rs ≤ n)%Z).
    { apply Int_part_mono. unfold rs.
      apply Rmult_le_compat_r; [done|]. by apply sqrt_le_1_alt. }
    assert (Hto : to_int rs = Some (Int_part rs)).
    { simpl. unfold R_to_int. destruct (Rle_dec 0 rs); [|lra].
      unfold int_range, INT_MIN, INT_MAX in *.
      destruct (Z.leb_spec (- 2 ^ 31) (Int_part rs)); [|lia].
      destruct (Z.leb_spec (Int_part rs) (2 ^ 31 - 1)); [done | lia]. }
    destruct (idx_defined (tab_coul_FDV0 e) (Int_part rs * 4)) as [tabF H0];
      [lia|].
    destruct (idx_defined (tab_coul_FDV0 e) (Int_part rs * 4 + 1)) as [tabD H1];
      [lia|].
    destruct (idx_defined (tab_coul_FDV0 e) (Int_part rs * 4 + 2)) as [tabV H2];
      [lia|].
    destruct (base_Int_part rs) as [B1 B2].
    unfold coul_block. rewrite Ha. simpl. rewrite Hb, Hrf. simpl.
    fold rinv. change (rsq g * rinv * tabq_scale e) with
      (rsq g * rinv * tabq_scale e)%real. rewrite Hrs.
    change (R_to_int rs) with (to_int rs). rewrite Hto. simpl.
    rewrite H0. simpl. rewrite H1. simpl.
    destruct (CALC_ENERGIES cfg); [rewrite H2|]; simpl;
      (eexists (Int_part rs), tabF, tabD, _, _; split; [reflexivity|]);
      (split; [done|]); (split; [lia|]); (split; [lra|]); done.
  - eexists _, _, _. split; [vm_compute; reflexivity|].
    split; [vm_compute; reflexivity|]. split; [reflexivity|].
    split; [vm_compute; reflexivity|]. split; [reflexivity|].
    split; [reflexivity|]. split; [|by vm_compute].
    symmetry. apply Int_part_spec.
    assert (Hp : 0 < / 2 ^ 51) by (apply Rinv_0_lt_compat, pow_lt; lra).
    assert (Hq : / 2 ^ 51 <= 1).
    { rewrite <- Rinv_1. apply Rinv_le_contravar; [lra|].
      apply pow_R1_Rle. lra. }
    set (p := / 2 ^ 51) in *.
    assert (H1 : 1 <= R_sqrt.sqrt (4 - p)).
    { rewrite <- sqrt_1 at 1. apply sqrt_le_1_alt. lra. }
    assert (H2 : R_sqrt.sqrt (4 - p) < 2).
    { assert (H4 : R_sqrt.sqrt 4 = 2)
        by (replace 4 with (2 * 2) by lra; apply sqrt_square; lra).
      rewrite <- H4. apply sqrt_lt_1_alt. lra. }
    lra.
Qed.

End exact.

(** ** Double precision *)
Section double.
Implicit Types (cfg : config) (e : env float) (s : acc float) (g : geom float)
  (t : terms float) (a b : float).

Lemma SFcompare_refl (v : spec_float) :
  v ≠ S754_nan → SFcompare v v = Some Eq.
Proof.
  destruct v as [[]|[]| |[] m ex]; try done; intros _; simpl;
    by rewrite Z.compare_refl, Pos.compare_cont_refl.
Qed.

Lemma is_nan_SF a : PrimFloat.is_nan a = true ↔ Prim2SF a = S754_nan.
Proof.
  unfold PrimFloat.is_nan. rewrite FloatAxioms.eqb_spec. unfold SFeqb. split.
  - intros H. destruct (Prim2SF a) as [sg|sg| |sg m ex] eqn:E; [..|done|];
      rewrite SFcompare_refl in H by done; discriminate.
  - by intros ->.
Qed.

Lemma nan_add a b :
  PrimFloat.is_nan a = true ∨ PrimFloat.is_nan b = true →
  PrimFloat.is_nan (a + b) = true.
Proof.
  rewrite !is_nan_SF, FloatAxioms.add_spec. unfold SF64add.
  intros [-> | ->]; [done|]. by destruct (Prim2SF a).
Qed.

Lemma nan_sub a b :
  PrimFloat.is_nan a = true ∨ PrimFloat.is_nan b = true →
  PrimFloat.is_nan (a - b) = true.
Proof.
  rewrite !is_nan_SF, FloatAxioms.sub_spec. unfold SF64sub, SFsub.
  intros [-> | ->]; [done|]. by destruct (Prim2SF a).
Qed.

Lemma nan_mul a b :
  PrimFloat.is_nan a = true ∨ PrimFloat.is_nan b = true →
  PrimFloat.is_nan (a * b) = true.
Proof.
  rewrite !is_nan_SF, FloatAxioms.mul_spec. unfold SF64mul.
  intros [-> | ->]; [done|]. by destruct (Prim2SF a).
Qed.

Lemma nan_invsqrt a :
  PrimFloat.is_nan a = true →
  PrimFloat.is_nan (1 / PrimFloat.sqrt a) = true.
Proof.
  rewrite !is_nan_SF, FloatAxioms.div_spec, FloatAxioms.sqrt_spec. intros ->.
  unfold SF64div, SF64sqrt. simpl. by destruct (Prim2SF 1).
Qed.

Lemma nan_leb a b : PrimFloat.is_nan a = true → PrimFloat.leb b a = false.
Proof.
  rewrite is_nan_SF, FloatAxioms.leb_spec. intros ->. unfold SFleb.
  by destruct (Prim2SF b).
Qed.

Lemma nan_ltb a b : PrimFloat.is_nan a = true → PrimFloat.ltb a b = false.
Proof. rewrite is_nan_SF, FloatAxioms.ltb_spec. by intros ->. Qed.

Lemma nan_to_int a : PrimFloat.is_nan a = true → float_to_int a = None.
Proof. rewrite is_nan_SF. unfold float_to_int. by intros ->. Qed.

Ltac nan_prop :=
  first [ assumption
        | apply nan_invsqrt; nan_prop
        | apply nan_add; first [left; nan_prop | right; nan_prop]
        | apply nan_sub; first [left; nan_prop | right; nan_prop]
        | apply nan_mul; first [left; nan_prop | right; nan_prop] ].

Lemma terms_nan cfg e type_i_off i g t :
  (CALC_COULOMB cfg = true → CALC_COUL_RF cfg = true) →
  PrimFloat.is_nan (rsq g) = true →
  pair_terms cfg e type_i_off i g = Some t →
  PrimFloat.is_nan (fx t) = true ∧ PrimFloat.is_nan (fy t) = true ∧
  PrimFloat.is_nan (fz t) = true.
Proof.
  intros Hrf Hn H. unfold pair_terms, coul_block in H.
  destruct (lj_block _ _ _ _ _ _) as [[[l v6] v12]|]; simpl in H;
    [|discriminate].
  destruct (CALC_COULOMB cfg).
  - rewrite (Hrf eq_refl) in H.
    destruct (idx (qi e) i) as [qa|]; simpl in H; [|discriminate].
    destruct (idx (q e) (aj g)) as [qb|]; simpl in H; [|discriminate].
    injection H as <-.
    destruct (HALF_LJ cfg && negb (i <? Z.quot (UNROLLI cfg) 2)%Z); simpl;
      repeat split; nan_prop.
  - injection H as <-. simpl. repeat split; nan_prop.
Qed.

(** X27, a distance that is not a number passes the cut-off test: in double
    precision, when [rsq] is a NaN (as it is when a coordinate is), both
    [rsq >= rcut2] and [rsq < 1e-12] are false, so a pair that is not
    skipped as excluded or on the diagonal is evaluated.  In a build with the
    Coulomb table the cast [(int)rs] is then undefined; in the other
    builds the three force components are NaN, and so are the force entries
    of both particles after the pair. *)
Theorem nan_distance_not_filtered
    cfg e cj egp_cj type_i_off i j ia dx dy dz rsq s :
  interact_of cfg e i j = Some ia →
  ¬ (CHECK_EXCLS cfg = true ∧ CALC_COULOMB cfg = false ∧ ia = 0) →
  ¬ (EXCL_FORCES cfg = true ∧ cj = ci_sh e ∧ j ≤ i) →
  pair_dist cfg e cj i j = Some (dx, dy, dz, rsq) →
  PrimFloat.is_nan rsq = true →
  let g := {| interact := ia; aj := cj * UNROLLJ cfg + j;
              dx := dx; dy := dy; dz := dz; rsq := rsq |} in
  pair_tests cfg e cj i j = Some (Go g) ∧
  (CALC_COULOMB cfg = true → CALC_COUL_RF cfg = false →
   pair_body cfg e cj egp_cj type_i_off i j s = None) ∧
  ((CALC_COULOMB cfg = true → CALC_COUL_RF cfg = true) →
   ∀ s', pair_body cfg e cj egp_cj type_i_off i j s = Some s' →
     ∀ k, 0 ≤ k < 3 →
       ∃ u v, idx (fi s') (i * 3 + k) = Some u ∧
              PrimFloat.is_nan u = true ∧
              idx (f s') (aj g * 3 + k) = Some v ∧
              PrimFloat.is_nan v = true).
Proof.
  intros Hia Hex Hdiag Hd Hn g.
  assert (Hg : pair_tests cfg e cj i j = Some (Go g)).
  { unfold pair_tests. rewrite Hia. simpl.
    assert (H1 : CHECK_EXCLS cfg && negb (EXCL_FORCES cfg) && (ia =? 0)
                 = false).
    { unfold EXCL_FORCES. destruct (CHECK_EXCLS cfg); [|done].
      destruct (CALC_COULOMB cfg); [done|].
      destruct (Z.eqb_spec ia 0); [|done]. exfalso. by apply Hex. }
    assert (H2 : CHECK_EXCLS cfg && EXCL_FORCES cfg && (cj =? ci_sh e)
                 && (j <=? i) = false).
    { unfold EXCL_FORCES in *. destruct (CHECK_EXCLS cfg); [|done].
      destruct (CALC_COULOMB cfg); [|done].
      destruct (Z.eqb_spec cj (ci_sh e)); [|done].
      destruct (Z.leb_spec j i); [|done]. exfalso. by apply Hdiag. }
    rewrite H1, H2, Hd. simpl. rewrite (nan_leb _ _ Hn), (nan_ltb _ _ Hn).
    by rewrite andb_false_r. }
  split; [exact Hg|]. split.
  - intros Hq Hrf. unfold pair_body. rewrite Hg. simpl.
    unfold pair_terms, coul_block. rewrite Hq, Hrf.
    destruct (lj_block _ _ _ _ _ _) as [[[l v6] v12]|]; simpl; [|done].
    destruct (idx (qi e) i) as [qa|]; simpl; [|done].
    destruct (idx (q e) _) as [qb|]; simpl; [|done].
    rewrite nan_to_int; [done|]. nan_prop.
  - intros Hrf s' Hb k Hk. unfold pair_body in Hb. rewrite Hg in Hb.
    simpl in Hb.
    destruct (pair_terms cfg e type_i_off i g) as [t|] eqn:Ht;
      simpl in Hb; [|discriminate].
    destruct (terms_nan cfg e type_i_off i g t Hrf Hn Ht) as (Nx & Ny & Nz).
    apply accum_forces in Hb
      as (fi0 & fi1 & f0 & f1 & I0 & I1 & I2 & J0 & J1 & J2).
    destruct (upd3_spec _ _ _ _ _ _ _ _ I0 I1 I2)
      as [(a0 & a1 & a2 & _ & _ & _ & A0 & A1 & A2) _].
    destruct (upd3_spec _ _ _ _ _ _ _ _ J0 J1 J2)
      as [(b0 & b1 & b2 & _ & _ & _ & B0 & B1 & B2) _].
    assert (Hk' : k = 0 ∨ k = 1 ∨ k = 2) by lia.
    destruct Hk' as [-> | [-> | ->]]; eexists _, _;
      (split; [eassumption|]); (split; [simpl; nan_prop|]);
      (split; [eassumption|]); simpl; nan_prop.
Qed.

End double.

(** ** The theorems on the concrete systems *)

(** Decides the comparisons of real constants that a computation in exact
    arithmetic is stuck on. *)
Ltac decide_R :=
  match goal with
  | |- context [Rle_dec ?a ?b] =>
      destruct (Rle_dec a b); [try (exfalso; lra) | try (exfalso; lra)]
  | |- context [Rlt_dec ?a ?b] =>
      destruct (Rlt_dec a b); [try (exfalso; lra) | try (exfalso; lra)]
  end.

Lemma force_only_keeps_energies_witness :
  ∃ s', inner cfg_excl_rf env_two (acc_zero 8) = Some s' ∧
        Vvdw s' = [] ∧ Vvdw_ci s' = 0%float ∧
        Vc s' = [] ∧ Vc_ci s' = 0%float.
Proof.
  assert (H : ∃ s', inner cfg_excl_rf env_two (acc_zero 8) = Some s')
    by (eexists; vm_compute; reflexivity).
  destruct H as [s' H]. exists s'. split; [exact H|].
  apply (force_only_keeps_energies cfg_excl_rf env_two (acc_zero 8) s'
           eq_refl H).
Defined.

Lemma pair_counter_counts_witness :
  ∃ s', inner cfg_count env_two (acc_zero 8) = Some s' ∧
        npair s' = 0 + passing_pairs cfg_count env_two 1 ∧
        0 ≤ passing_pairs cfg_count env_two 1 ≤ 4 * 4.
Proof.
  assert (H : ∃ s', inner cfg_count env_two (acc_zero 8) = Some s')
    by (eexists; vm_compute; reflexivity).
  destruct H as [s' H]. exists s'. split; [exact H|].
  apply (pair_counter_counts cfg_count env_two (acc_zero 8) s'
           {| c := 1; excl := 65535 |} eq_refl H).
Defined.

Lemma inner_writes_confined_witness :
  (length (fi acc_two) = length (fi (acc_zero 8)) ∧
   length (f acc_two) = length (f (acc_zero 8)) ∧
   length (Vvdw acc_two) = length (Vvdw (acc_zero 8)) ∧
   length (Vc acc_two) = length (Vc (acc_zero 8))) ∧
  (∀ n, ¬ (0 ≤ n < 3 * 4) → idx (fi acc_two) n = idx (fi (acc_zero 8)) n) ∧
  (∀ n, ¬ (3 * (1 * 4) ≤ n < 3 * (1 * 4 + 4)) →
        idx (f acc_two) n = idx (f (acc_zero 8)) n).
Proof.
  assert (H : inner cfg_rf env_two (acc_zero 8) = Some acc_two)
    by reflexivity.
  apply (inner_writes_confined cfg_rf env_two (acc_zero 8) acc_two
           {| c := 1; excl := 65535 |} eq_refl H).
Defined.

Lemma no_pair_no_change_witness :
  inner cfg_excl_lj (two_particles 0) (acc_zero 8) = Some (acc_zero 8).
Proof.
  assert (H : ∃ s', inner cfg_excl_lj (two_particles 0) (acc_zero 8) = Some s')
    by (eexists; vm_compute; reflexivity).
  destruct H as [s' H]. rewrite H. f_equal.
  apply (no_pair_no_change cfg_excl_lj (two_particles 0) (acc_zero 8) s'
           {| c := 1; excl := 0 |} eq_refl); [|exact H].
  intros i j Hi Hj.
  assert (Hi' : i = 0 ∨ i = 1 ∨ i = 2 ∨ i = 3) by (simpl in Hi; lia).
  assert (Hj' : j = 0 ∨ j = 1 ∨ j = 2 ∨ j = 3) by (simpl in Hj; lia).
  destruct Hi' as [-> | [-> | [-> | ->]]];
    destruct Hj' as [-> | [-> | [-> | ->]]]; reflexivity.
Defined.

Lemma inner_defined_witness :
  ∃ s', inner cfg_rf env_two (acc_zero 8) = Some s'.
Proof.
  apply (inner_defined cfg_rf env_two {| c := 1; excl := 65535 |});
    try reflexivity; try (simpl; lia); try discriminate.
  intros ti tj Hi Hj. simpl in *.
    assert (Hall : ∀ t, t ∈ [0; 0; 0; 0; 0; 0; 0; 0] → t = 0).
    { intros t Ht. repeat (apply elem_of_cons in Ht as [-> | Ht]; [done|]).
      by apply elem_of_nil in Ht. }
    rewrite (Hall ti Hi), (Hall tj Hj). lia.
Defined.

Lemma total_force_conserved_witness :
  ∃ s', inner cfg_rf env_two_R (acc_zero_R 8) = Some s' ∧
        total_force 0 s' = total_force 0 (acc_zero_R 8).
Proof.
  assert (H : ∃ s', inner cfg_rf env_two_R (acc_zero_R 8) = Some s').
  { unfold inner, for_range, i_body, for_range, pair_body, pair_tests. simpl.
    repeat decide_R. eexists. reflexivity. }
  destruct H as [s' H]. exists s'. split; [exact H|].
  apply (total_force_conserved cfg_rf env_two_R (acc_zero_R 8) s' 0%nat H).
Defined.

Lemma excluded_pair_force_witness :
  ∃ t, pair_terms cfg_excl_rf (two_particles_R 65534 0 0 []) 0 0 g_excl_R
       = Some t ∧
       fx t = (- (1 * -1 * / 64) * dx g_excl_R)%R.
Proof.
  assert (Hg : pair_tests cfg_excl_rf (two_particles_R 65534 0 0 []) 1 0 0 =
               Some (Go g_excl_R)).
  { unfold pair_tests. simpl. repeat decide_R. reflexivity. }
  assert (Ht : ∃ t, pair_terms cfg_excl_rf (two_particles_R 65534 0 0 [])
                      0 0 g_excl_R = Some t)
    by (eexists; reflexivity).
  destruct Ht as [t Ht]. exists t. split; [exact Ht|].
  destruct (excluded_pair_force cfg_excl_rf (two_particles_R 65534 0 0 [])
              1 0 0 0 g_excl_R t eq_refl eq_refl eq_refl eq_refl Hg Ht)
    as (qa & qb & Ha & Hb & _ & _ & Hx & _).
  change (Some 1%R = Some qa) in Ha. change (Some (-1)%R = Some qb) in Hb.
  injection Ha as <-. injection Hb as <-. exact Hx.
Defined.

Lemma lj_force_is_energy_gradient_witness :
  ∃ t dV,
    pair_terms cfg_excl_lj (two_particles_R 65535 1 2 []) 0 0 g_two_R
      = Some t ∧
    derivable_pt_lim (lj_energy 1 2) (rsq g_two_R) dV ∧
    fx t = (- 2 * dV * dx g_two_R)%R.
Proof.
  assert (Hg : pair_tests cfg_excl_lj (two_particles_R 65535 1 2 []) 1 0 0 =
               Some (Go g_two_R)).
  { unfold pair_tests. simpl. repeat decide_R. reflexivity. }
  assert (Hu : (0 < rsq g_two_R)%R) by (simpl; lra).
  destruct (lj_force_is_energy_gradient cfg_excl_lj
              (two_particles_R 65535 1 2 []) 1 0 0 0 g_two_R 0 1%R 2%R
              eq_refl eq_refl Hg eq_refl eq_refl eq_refl Hu)
    as (t & dV & Ht & _ & Hd & _ & Hx & _).
  exists t, dV. split; [exact Ht|]. split; [exact Hd | exact Hx].
Defined.

Lemma rf_force_is_energy_gradient_witness :
  ∃ t dVv dVc,
    pair_terms cfg_rf env_two_R 0 0 g_two_R = Some t ∧
    derivable_pt_lim (lj_energy 0 0) (rsq g_two_R) dVv ∧
    derivable_pt_lim (rf_energy (1 * -1) (/ 128) (13 / 32)) (rsq g_two_R) dVc ∧
    fx t = (- 2 * (dVv + dVc) * dx g_two_R)%R.
Proof.
  assert (Hg : pair_tests cfg_rf env_two_R 1 0 0 = Some (Go g_two_R)).
  { unfold pair_tests. simpl. repeat decide_R. reflexivity. }
  assert (Hu : (0 < rsq g_two_R)%R) by (simpl; lra).
  assert (Hk : (k_rf2 env_two_R = 2 * k_rf env_two_R)%R) by (simpl; lra).
  destruct (rf_force_is_energy_gradient cfg_rf env_two_R 1 0 0 0 g_two_R
              0 0%R 0%R 1%R (-1)%R
              eq_refl eq_refl eq_refl eq_refl Hg eq_refl eq_refl eq_refl
              eq_refl eq_refl eq_refl Hu Hk)
    as (t & vc & dVv & dVc & Ht & _ & _ & _ & Hdv & Hdc & Hx & _).
  exists t, dVv, dVc. split; [exact Ht|]. split; [exact Hdv|].
  split; [exact Hdc | exact Hx].
Defined.

Lemma table_index_exact_not_double_witness :
  ∃ ri tabF tabD fc vc,
    coul_block cfg_tab
      (two_particles_R 65535 0 0
         [4; 1; 0; 0;  3; 1; 0; 0;  2; 1; 0; 0;  1; 1; 0; 0]%R)
      0 g_two_R (/ R_sqrt.sqrt (rsq g_two_R))%R
      (/ R_sqrt.sqrt (rsq g_two_R) * / R_sqrt.sqrt (rsq g_two_R))%R
      = Some (fc, vc) ∧
    (0 ≤ ri ≤ 3) ∧
    idx [4; 1; 0; 0;  3; 1; 0; 0;  2; 1; 0; 0;  1; 1; 0; 0]%R (ri * 4)
      = Some tabF ∧
    idx [4; 1; 0; 0;  3; 1; 0; 0;  2; 1; 0; 0;  1; 1; 0; 0]%R (ri * 4 + 1)
      = Some tabD.
Proof.
  set (tab := [4; 1; 0; 0;  3; 1; 0; 0;  2; 1; 0; 0;  1; 1; 0; 0]%R).
  assert (Hg : pair_tests cfg_tab (two_particles_R 65535 0 0 tab) 1 0 0 =
               Some (Go g_two_R)).
  { unfold pair_tests. simpl. repeat decide_R. reflexivity. }
  assert (Hn : Int_part (R_sqrt.sqrt 9 * 1) = 3).
  { replace 9%R with (3 * 3)%R by lra. rewrite sqrt_square by lra.
    symmetry. apply Int_part_spec. lra. }
  assert (Hsc : (0 <= tabq_scale (two_particles_R 65535 0 0 tab))%R)
    by (simpl; lra).
  destruct (proj1 table_index_exact_not_double cfg_tab
              (two_particles_R 65535 0 0 tab)
              1 0 0 g_two_R 1%R (-1)%R eq_refl Hg eq_refl eq_refl Hsc)
    as (ri & tabF & tabD & fc & vc & Hc & _ & Hri & _ & HF & HD & _).
  - change (Int_part (R_sqrt.sqrt 9 * 1) ≤ INT_MAX). rewrite Hn. done.
  - change (4 * (Int_part (R_sqrt.sqrt 9 * 1) + 1) ≤ 16). rewrite Hn. done.
  - exists ri, tabF, tabD, fc, vc. split; [exact Hc|].
    change (0 ≤ ri ≤ Int_part (R_sqrt.sqrt 9 * 1)) in Hri.
    rewrite Hn in Hri. split; [exact Hri|]. split; [exact HF | exact HD].
Defined.

Lemma energy_groups_exclusive_witness :
  ∃ s', inner cfg_groups env_groups acc_groups = Some s' ∧
        Vvdw_ci s' = 0%float ∧ Vc_ci s' = 0%float ∧
        Vc s' = [0; -0.125]%float.
Proof.
  assert (H : ∃ s', inner cfg_groups env_groups acc_groups = Some s')
    by (eexists; vm_compute; reflexivity).
  destruct H as [s' H]. exists s'. split; [exact H|].
  destruct (proj1 (energy_groups_exclusive cfg_groups env_groups acc_groups
                     s' H) eq_refl) as [H1 H2].
  split; [exact H1|]. split; [exact H2|].
  vm_compute in H. injection H as <-. reflexivity.
Defined.

Lemma rinvsix_bounded_witness :
  let rinvsq := (gmx_invsqrt (rsq g_two_R) * gmx_invsqrt (rsq g_two_R))%R in
  (0 <= IZR (interact g_two_R) * rinvsq * rinvsq * rinvsq <= 10 ^ 36)%R ∧
  (10 ^ 36 < FLT_MAX)%R.
Proof.
  assert (Hg : pair_tests cfg_excl_rf (two_particles_R 65535 0 0 []) 1 0 0 =
               Some (Go g_two_R)).
  { unfold pair_tests. simpl. repeat decide_R. reflexivity. }
  apply (rinvsix_bounded cfg_excl_rf (two_particles_R 65535 0 0 []) 1 0 0
           g_two_R eq_refl Hg).
Defined.

Lemma excluded_pair_energy_witness :
  ∃ s', pair_body cfg_excl_rf_en (two_particles_R 65534 0 0 []) 1 0 0 0 0
          (acc_zero_R 8) = Some s' ∧
        Vc_ci s' = (0 + 1 * -1 * (/ 128 * rsq g_excl_R - 13 / 32))%R ∧
        Vvdw_ci s' = 0%R.
Proof.
  assert (Hg : pair_tests cfg_excl_rf_en (two_particles_R 65534 0 0 [])
                 1 0 0 = Some (Go g_excl_R)).
  { unfold pair_tests. simpl. repeat decide_R. reflexivity. }
  assert (H : ∃ s', pair_body cfg_excl_rf_en (two_particles_R 65534 0 0 [])
                      1 0 0 0 0 (acc_zero_R 8) = Some s').
  { unfold pair_body. rewrite Hg. eexists. reflexivity. }
  destruct H as [s' H]. exists s'. split; [exact H|].
  apply (excluded_pair_energy cfg_excl_rf_en (two_particles_R 65534 0 0 [])
           1 0 0 0 0 g_excl_R 1%R (-1)%R (acc_zero_R 8) s'
           eq_refl eq_refl eq_refl eq_refl eq_refl eq_refl Hg eq_refl eq_refl
           H).
Defined.

Lemma nan_distance_not_filtered_witness :
  ∃ s', pair_body cfg_rf env_nan 1 0 0 0 0 (acc_zero 8) = Some s' ∧
        pair_tests cfg_rf env_nan 1 0 0 =
          Some (Go {| interact := 1; aj := 4; dx := nan; dy := 0%float;
                      dz := 0%float; rsq := nan |}) ∧
        ∃ u v, idx (fi s') (0 * 3 + 0) = Some u ∧
               PrimFloat.is_nan u = true ∧
               idx (f s') (4 * 3 + 0) = Some v ∧
               PrimFloat.is_nan v = true.
Proof.
  assert (H : ∃ s', pair_body cfg_rf env_nan 1 0 0 0 0 (acc_zero 8) = Some s')
    by (eexists; vm_compute; reflexivity).
  destruct H as [s' H]. exists s'. split; [exact H|].
  assert (Hd : pair_dist cfg_rf env_nan 1 0 0 =
                 Some (nan, 0%float, 0%float, nan)) by reflexivity.
  destruct (nan_distance_not_filtered cfg_rf env_nan 1 0 0 0 0 1
              nan 0%float 0%float nan (acc_zero 8) eq_refl)
    as (Hg & _ & Hrf); [| |exact Hd|reflexivity|].
  - intros (Hc & _). discriminate Hc.
  - intros (Hc & _). discriminate Hc.
  - split; [exact Hg|]. apply (Hrf (λ _, eq_refl) s' H 0). lia.
Defined.

End KernelLoops.
